(** * featuretools.primitives.options_utils

    A shallow embedding of [featuretools/primitives/options_utils.py]:
    normalisation of primitive options, reconciliation with the global
    ignore rules, and the filters deciding which feature matches a
    primitive may be applied to.

    The file has two layers.  The match filters only read option records,
    so they are embedded as functions over record values in an error
    monad.  Normalisation and reconciliation build and update Python
    objects that are shared between several owners, so they are embedded
    in a state-and-error monad over an explicit object store. *)

From stdpp Require Import gmap strings list fin_maps.

Set Default Proof Using "Type".

(** ** Exceptions and the error monad *)

(** The key of a raw [primitive_options] entry: a primitive name or a tuple
    of primitive names. *)
Inductive primitive_key :=
| PKName (name : string)
| PKTuple (names : list string).

(** Python exceptions the module can raise.  The first four are the
    module's own [raise]/[assert] statements; the next five are raised by
    the interpreter on a failed subscript or attribute access; the last is
    for the methods of features that the module calls without defining
    them. *)
Inductive exn :=
| UnrecognizedOption (option_key : string) (key : primitive_key)
    (* KeyError("Unrecognized primitive option '%s' for %s") *)
| IncorrectTypeFormatting (option_key : string) (key : primitive_key)
    (* TypeError("Incorrect type formatting for '%s' for %s") *)
| OptionsInputsMismatch (key : primitive_key)
    (* AssertionError("Number of options does not match number of inputs ...") *)
| MultipleOptions (primitive : string)
    (* KeyError('Multiple options found for primitive %s') *)
| KeyError (k : string)        (* d[k] with k missing *)
| IndexError                   (* l[0] on an empty list *)
| AttributeError               (* None.input_types, or a method the object lacks *)
| RuntimeError                 (* dictionary changed size during iteration *)
| TypeError                    (* subscript or iteration of the wrong kind of object *)
| AssertionError.              (* a failed [assert] in code the module calls *)

Inductive result (A : Type) :=
| Ok (a : A)
| Raise (e : exn).
Arguments Ok {A} a.
Arguments Raise {A} e.

Definition result_bind {A B} (r : result A) (k : A → result B) : result B :=
  match r with
  | Ok a => k a
  | Raise e => Raise e
  end.

Notation "'let!' x ':=' e 'in' k" := (result_bind e (λ x, k))
  (at level 10, x name, e at level 100, k at level 200,
   format "'[v' 'let!'  x  ':='  e  'in' '/' k ']'").

(** [[f(x) for x in l]]: every element is evaluated, left to right; the
    first exception aborts the comprehension. *)
Fixpoint comprehension {A B} (f : A → result B) (l : list A) : result (list B) :=
  match l with
  | [] => Ok []
  | x :: l' => let! y := f x in let! ys := comprehension f l' in Ok (y :: ys)
  end.

(** Python's [all] and [any] on a list of booleans. *)
Definition py_all (bs : list bool) : bool := forallb id bs.
Definition py_any (bs : list bool) : bool := existsb id bs.

(** ** Features *)

(** A feature is an [IdentityFeature] (a direct read of one variable of an
    entity) or any other [FeatureBase] subclass.  Every feature has
    [f.entity.id]; only identity features are asked for [f.variable.id].

    A value of this type stands for one feature object: two occurrences of
    a value are two references to that object. *)
Inductive feature :=
| IdentityFeature (entity variable : string)
| OtherFeature (entity name : string).

(** Equality of values is therefore [f is g], the identity of objects.  It
    is not [f == g]: see [feature_eq] below. *)
#[global] Instance feature_eq_dec : EqDecision feature.
Proof. solve_decision. Defined.

(** The module puts tuples of features in a set, which hashes and compares
    them with [FeatureBase.__hash__] and [FeatureBase.__eq__].  Neither is
    defined in this module, and nothing here constrains them: they are
    parameters of the embedding.  Each may raise; [feature_eq f g] is the
    truth value of [f == g]. *)
Class FeatureBase := {
  feature_hash : feature → result Z;
  feature_eq : feature → feature → result bool
}.

(** Two more parameters come from the interpreter: how the hash of a tuple
    is computed from the hashes of its items, and in which order a set
    compares a key with the entries stored under the hash of that key (the
    order of the probe sequence: all of them are met, each once). *)
Class Interpreter := {
  tuple_hash : list Z → Z;
  probe : Z → list (list feature) → list (list feature);
  probe_order : ∀ h keys, probe h keys ≡ₚ keys
}.

Definition feature_entity_id (f : feature) : string :=
  match f with
  | IdentityFeature e _ => e
  | OtherFeature e _ => e
  end.

Definition isinstance_IdentityFeature (f : feature) : bool :=
  match f with
  | IdentityFeature _ _ => true
  | OtherFeature _ _ => false
  end.

(** ** Option records as values *)

(** The value stored under an option key of an initialized option dict: a
    set of entity ids, or a dict from entity id to a set of variable ids. *)
Inductive optval :=
| OSet (s : gset string)
| OMap (m : gmap string (gset string)).

#[global] Instance optval_eq_dec : EqDecision optval.
Proof. solve_decision. Defined.

(** An initialized option dict: option key to value.  Absence of a key is meaningful. *)
Abbreviation option_record := (gmap string optval).

(** [options[k]] *)
Definition getitem (options : option_record) (k : string) : result optval :=
  match options !! k with
  | Some v => Ok v
  | None => Raise (KeyError k)
  end.

(** [k in options] *)
Definition has_key (options : option_record) (k : string) : bool :=
  bool_decide (is_Some (options !! k)).

(** [x in v]: membership in a set, key membership in a dict. *)
Definition py_in (x : string) (v : optval) : bool :=
  match v with
  | OSet s => bool_decide (x ∈ s)
  | OMap m => bool_decide (is_Some (m !! x))
  end.

(** [v[x]]: defined on dicts only. *)
Definition subscript (v : optval) (x : string) : result (gset string) :=
  match v with
  | OMap m => match m !! x with
              | Some s => Ok s
              | None => Raise (KeyError x)
              end
  | OSet _ => Raise TypeError
  end.

(** ** [_variable_filter_generator] *)

Definition passes_ignore_filter (options : option_record) (f : feature) : result bool :=
  match f with
  | OtherFeature _ _ => Ok true
  | IdentityFeature entity variable =>
      let! iv := getitem options "ignore_variables" in
      if negb (py_in entity iv) then Ok true
      else let! vars := subscript iv entity in
           Ok (negb (bool_decide (variable ∈ vars)))
  end.

Definition passes_include_filter (options : option_record) (f : feature) : result bool :=
  match f with
  | OtherFeature _ _ => Ok true
  | IdentityFeature entity variable =>
      let! inc := getitem options "include_variables" in
      if py_in entity inc
      then let! vars := subscript inc entity in Ok (bool_decide (variable ∈ vars))
      else Ok false
  end.

Definition _variable_filter_generator (options : option_record) : feature → result bool :=
  if has_key options "include_variables" then
    λ f : feature, let! b := passes_include_filter options f in
         if b then Ok true
         else let! inc := getitem options "include_variables" in
              if negb (py_in (feature_entity_id f) inc)
              then passes_ignore_filter options f
              else Ok false
  else
    λ f : feature, passes_ignore_filter options f.

(** ** [_groupby_filter_generator] *)

Definition passes_include_groupby_filter (options : option_record) (f : feature)
  : result bool :=
  match f with
  | OtherFeature _ _ => Ok false
  | IdentityFeature entity variable =>
      let! inc := getitem options "include_groupby_variables" in
      if py_in entity inc
      then let! vars := subscript inc entity in Ok (bool_decide (variable ∈ vars))
      else Ok false
  end.

Definition passes_ignore_groupby_filter (options : option_record) (f : feature)
  : result bool :=
  match f with
  | OtherFeature _ _ => Ok false
  | IdentityFeature entity variable =>
      let! ign := getitem options "ignore_groupby_variables" in
      if negb (py_in entity ign) then Ok true
      else let! ign' := getitem options "ignore_groupby_variables" in
           if py_in entity ign'
           then let! vars := subscript ign' entity in
                Ok (negb (bool_decide (variable ∈ vars)))
           else Ok false
  end.

Definition _groupby_filter_generator (options : option_record) : feature → result bool :=
  if has_key options "include_groupby_variables"
     && has_key options "ignore_groupby_variables" then
    λ f : feature, let! b := passes_include_groupby_filter options f in
         if b then Ok true
         else let! inc := getitem options "include_groupby_variables" in
              if negb (py_in (feature_entity_id f) inc)
              then passes_ignore_groupby_filter options f
              else Ok false
  else if has_key options "include_groupby_variables" then
    λ f : feature, let! b := passes_include_groupby_filter options f in
         if b then Ok true
         else let! inc := getitem options "include_groupby_variables" in
              Ok (negb (py_in (feature_entity_id f) inc))
  else if has_key options "ignore_groupby_variables" then
    λ f : feature, passes_ignore_groupby_filter options f
  else
    λ f : feature, Ok (isinstance_IdentityFeature f).

(** ** [ignore_entity_for_primitive] *)

(** [k in option and entity.id not in option[k]] *)
Definition present_and_excludes (option : option_record) (k entity : string) : bool :=
  match option !! k with
  | Some v => negb (py_in entity v)
  | None => false
  end.

(** [k in option and entity.id in option[k]] *)
Definition present_and_contains (option : option_record) (k entity : string) : bool :=
  match option !! k with
  | Some v => py_in entity v
  | None => false
  end.

Definition should_ignore_entity (entity : string) (groupby : bool)
    (option : option_record) : result bool :=
  if present_and_excludes option "include_entities" entity
     || groupby && present_and_excludes option "include_groupby_entities" entity
  then Ok true
  else
    let! ign := getitem option "ignore_entities" in
    if py_in entity ign
       || groupby && present_and_contains option "ignore_groupby_entities" entity
    then Ok true
    else Ok false.

Definition ignore_entity_for_primitive (options : list option_record)
    (entity : string) (groupby : bool) : result bool :=
  let! bs := comprehension (should_ignore_entity entity groupby) options in
  Ok (py_any bs).

(** ** [filter_matches_by_options] *)

(** A match is a tuple of features. *)
Abbreviation match_ := (list feature).

Definition generator (groupby : bool) : option_record → feature → result bool :=
  if groupby then _groupby_filter_generator else _variable_filter_generator.

Definition is_valid_match (groupby : bool) (options : list option_record)
    (m : match_) : result bool :=
  if bool_decide (1 < length options) then
    let variable_filter := map (generator groupby) options in
    let! bs := comprehension (λ p : (feature → result bool) * feature, p.1 p.2)
                       (zip variable_filter m) in
    Ok (py_all bs)
  else
    let! option0 := from_option Ok (Raise IndexError) (options !! 0) in
    let variable_filter := generator groupby option0 in
    let! bs := comprehension variable_filter m in
    Ok (py_all bs).

(** *** The set of valid matches *)

(** [valid_matches] is a set of tuples.  A set keeps each key with the hash
    it was stored under; the model lists these entries in the order of
    insertion. *)
Abbreviation py_set := (list (Z * match_)).

(** [set()] *)
#[global] Instance py_set_empty : Empty py_set := [].

Section ValidMatches.

Context `{FeatureBase} `{Interpreter}.

(** [hash(match)]: the items are hashed left to right. *)
Definition hash_match (m : match_) : result Z :=
  let! hs := comprehension feature_hash m in
  Ok (tuple_hash hs).

(** [v == w] on two tuples: the items are compared pairwise up to the first
    pair that differs, an item with itself without a call of [__eq__]; when
    no pair differs the lengths decide. *)
Fixpoint tuple_eq (v w : match_) : result bool :=
  match v, w with
  | [], [] => Ok true
  | f :: v', g :: w' =>
      let! same := if bool_decide (f = g) then Ok true else feature_eq f g in
      if same then tuple_eq v' w' else Ok false
  | _, _ => Ok false
  end.

(** The search for [key] among the keys stored under its hash: the first
    that equals [key] ends it. *)
Fixpoint set_search (startkeys : list match_) (key : match_) : result bool :=
  match startkeys with
  | [] => Ok false
  | startkey :: rest =>
      let! found := tuple_eq startkey key in
      if found then Ok true else set_search rest key
  end.

(** [valid_matches.add(match)]: the tuple is hashed, then compared with
    the entries of the same hash; it is stored unless one of them equals
    it. *)
Definition set_add (valid_matches : py_set) (m : match_) : result py_set :=
  let! h := hash_match m in
  let startkeys := probe h (filter (λ e, e.1 = h) valid_matches).*2 in
  let! found := set_search startkeys m in
  Ok (if found then valid_matches else valid_matches ++ [(h, m)]).

Fixpoint filter_loop (groupby : bool) (options : list option_record)
    (matches : list match_) (valid_matches : py_set) : result py_set :=
  match matches with
  | [] => Ok valid_matches
  | m :: rest =>
      let! b := is_valid_match groupby options m in
      let! valid_matches :=
        if b then set_add valid_matches m else Ok valid_matches in
      filter_loop groupby options rest valid_matches
  end.

Definition filter_matches_by_options (matches : list match_)
    (options : list option_record) (groupby : bool) : result py_set :=
  filter_loop groupby options matches ∅.

Definition filter_groupby_matches_by_options (groupby_matches : list feature)
    (options : list option_record) : result py_set :=
  filter_matches_by_options (map (λ g, [g]) groupby_matches) options true.

End ValidMatches.

(** For closed examples: features that hash alike and are [==] when they
    have the same entity and the same name, and an interpreter that
    compares in the order of insertion. *)
Definition sample_features : FeatureBase := {|
  feature_hash := λ _, Ok 0%Z;
  feature_eq := λ f g,
    Ok match f, g with
       | (IdentityFeature e n | OtherFeature e n),
         (IdentityFeature e' n' | OtherFeature e' n') =>
           bool_decide (e = e') && bool_decide (n = n')
       end
|}.

Definition sample_interpreter : Interpreter := {|
  tuple_hash := λ hs, foldr Z.add 0%Z hs;
  probe := λ _ keys, keys;
  probe_order := λ _ keys, reflexivity keys
|}.

(** ** The object store *)

(** Sets, dicts and lists that outlive the call that built them, or that
    the caller hands in, are objects in a store and are referred to by
    location.  Keys and set elements are strings (entity ids, variable ids,
    option keys, primitive names). *)
Abbreviation loc := nat.

Inductive obj :=
| ObjSet (s : gset string)
| ObjDict (d : gmap string loc)
| ObjList (l : list loc).

(** What [warnings.warn] and [print] emit. *)
Inductive output :=
| Printed (s : string)
| WarnEntityNotInEntityset (entity : string)
| WarnVariableNotInEntity (variable entity : string).

Record state := State { heap : list obj; out : list output }.

Definition M (A : Type) : Type := state → result A * state.

Definition ret {A} (a : A) : M A := λ st, (Ok a, st).

Definition raise {A} (e : exn) : M A := λ st, (Raise e, st).

Definition bind {A B} (m : M A) (k : A → M B) : M B :=
  λ st, match m st with
        | (Ok a, st') => k a st'
        | (Raise e, st') => (Raise e, st')
        end.

Notation "'let*' x ':=' e 'in' k" := (bind e (λ x, k))
  (at level 10, x name, e at level 100, k at level 200,
   format "'[v' 'let*'  x  ':='  e  'in' '/' k ']'").
Notation "e ';;' k" := (bind e (λ _, k))
  (at level 100, k at level 200, right associativity).

Definition lift {A} (r : result A) : M A := λ st, (r, st).

Definition emit (o : output) : M unit :=
  λ st, (Ok (), State (heap st) (out st ++ [o])).

(** A new object; its location is the next free one. *)
Definition alloc (o : obj) : M loc :=
  λ st, (Ok (length (heap st)), State (heap st ++ [o]) (out st)).

Definition read_obj (l : loc) : M obj :=
  λ st, match heap st !! l with
        | Some o => (Ok o, st)
        | None => (Raise TypeError, st)     (* dangling: not reachable *)
        end.

Definition write_obj (l : loc) (o : obj) : M unit :=
  λ st, (Ok (), State (<[l := o]> (heap st)) (out st)).

(** [for x in l: body(x)] *)
Fixpoint for_each {A} (l : list A) (body : A → M unit) : M unit :=
  match l with
  | [] => ret ()
  | x :: l' => body x ;; for_each l' body
  end.

(** [[f(x) for x in l]] with effects. *)
Fixpoint for_list {A B} (f : A → M B) (l : list A) : M (list B) :=
  match l with
  | [] => ret []
  | x :: l' => let* y := f x in let* ys := for_list f l' in ret (y :: ys)
  end.

(** A loop that threads a local variable. *)
Fixpoint for_fold {A S} (l : list A) (body : S → A → M S) (s : S) : M S :=
  match l with
  | [] => ret s
  | x :: l' => let* s' := body s x in for_fold l' body s'
  end.

(** *** Operations on objects *)

(** The object is a set: [s.union], [s.difference]. *)
Definition as_set (l : loc) : M (gset string) :=
  let* o := read_obj l in
  match o with
  | ObjSet s => ret s
  | _ => raise AttributeError
  end.

(** The object is a dict: [d.get], [d.items], [d.keys]. *)
Definition as_dict (l : loc) : M (gmap string loc) :=
  let* o := read_obj l in
  match o with
  | ObjDict d => ret d
  | _ => raise AttributeError
  end.

(** [d[k]] *)
Definition obj_getitem (l : loc) (k : string) : M loc :=
  let* o := read_obj l in
  match o with
  | ObjDict d => match d !! k with
                 | Some v => ret v
                 | None => raise (KeyError k)
                 end
  | _ => raise TypeError
  end.

(** [d[k] = v] *)
Definition obj_setitem (l : loc) (k : string) (v : loc) : M unit :=
  let* o := read_obj l in
  match o with
  | ObjDict d => write_obj l (ObjDict (<[k := v]> d))
  | _ => raise TypeError
  end.

(** [k in o] *)
Definition obj_contains (o : obj) (k : string) : bool :=
  match o with
  | ObjSet s => bool_decide (k ∈ s)
  | ObjDict d => bool_decide (is_Some (d !! k))
  | ObjList _ => false
  end.

(** Truth value of an object: non-empty. *)
Definition truthy (o : obj) : bool :=
  match o with
  | ObjSet s => negb (bool_decide (s = ∅))
  | ObjDict d => negb (bool_decide (d = ∅))
  | ObjList l => negb (bool_decide (l = []))
  end.

(** The ids an object yields when it is an argument of [set.union]: the
    elements of a set, the keys of a dict.  The elements of a list in the
    store are objects, which are not hashable. *)
Definition iter_ids (o : obj) : result (gset string) :=
  match o with
  | ObjSet s => Ok s
  | ObjDict d => Ok (dom d)
  | ObjList _ => Raise TypeError
  end.

(** [o.keys()] *)
Definition obj_keys (o : obj) : result (gset string) :=
  match o with
  | ObjDict d => Ok (dom d)
  | _ => Raise AttributeError
  end.

(** *** Placing a fresh record in the store *)

Definition alloc_gmap {A} (f : A → M loc) (m : gmap string A) : M (gmap string loc) :=
  for_fold (map_to_list m)
    (λ d kv, let* l := f kv.2 in ret (<[kv.1 := l]> d)) ∅.

Definition alloc_optval (v : optval) : M loc :=
  match v with
  | OSet s => alloc (ObjSet s)
  | OMap m => let* d := alloc_gmap (λ s, alloc (ObjSet s)) m in alloc (ObjDict d)
  end.

Definition alloc_record (r : option_record) : M loc :=
  let* d := alloc_gmap alloc_optval r in alloc (ObjDict d).

(** *** Reading the structure behind a location *)

Definition read_set (st : state) (l : loc) : option (gset string) :=
  match heap st !! l with
  | Some (ObjSet s) => Some s
  | _ => None
  end.

Definition read_vardict (st : state) (l : loc) : option (gmap string (gset string)) :=
  match heap st !! l with
  | Some (ObjDict d) => Some (omap (read_set st) d)
  | _ => None
  end.

Definition read_optval (st : state) (l : loc) : option optval :=
  match heap st !! l with
  | Some (ObjSet s) => Some (OSet s)
  | Some (ObjDict d) => Some (OMap (omap (read_set st) d))
  | _ => None
  end.

Definition read_record (st : state) (l : loc) : option option_record :=
  match heap st !! l with
  | Some (ObjDict d) => Some (omap (read_optval st) d)
  | _ => None
  end.

Definition read_options (st : state) (l : loc) : option (list option_record) :=
  match heap st !! l with
  | Some (ObjList ls) => mapM (read_record st) ls
  | _ => None
  end.

Definition read_table (st : state) (t : gmap string loc)
  : gmap string (list option_record) :=
  omap (read_options st) t.

(** ** Raw user input *)

(** The value a user gives for an option key.  Ids are strings; a value that
    is neither a list of ids nor a dict is [RawOther]. *)
#[warnings="-register-all"]
Inductive raw_value :=
| RawList (l : list string)
| RawDict (d : list (string * raw_value))
| RawOther.

(** A raw option dict, in insertion order. *)
Abbreviation raw_option_dict := (list (string * raw_value)).

(** The value of a [primitive_options] entry: one option dict, or a list
    with one option dict per input. *)
Inductive raw_options :=
| OptionDict (d : raw_option_dict)
| OptionList (l : list raw_option_dict).

Record entity := Entity { entity_id : string; entity_variables : list string }.

(** [{entity.id: [variable.id for variable in entity.variables]
      for entity in es.entities}] *)
Definition entityset_dict (es : list entity) : gmap string (list string) :=
  foldl (λ d e, <[entity_id e := entity_variables e]> d) ∅ es.

Definition isinstance_list (v : raw_value) : bool :=
  match v with RawList _ => true | _ => false end.

(** ** The option checkers *)

Definition dict_to_list_variable_check (option : raw_value)
    (es : gmap string (list string)) : M bool :=
  match option with
  | RawDict d =>
      if forallb isinstance_list (map snd d) then
        for_each d (λ item,
          match es !! item.1 with
          | None => emit (WarnEntityNotInEntityset item.1)
          | Some es_entity =>
              match item.2 with
              | RawList variables =>
                  for_each
                    (filter (λ variable, variable ∉ es_entity) variables)
                    (λ invalid_var, emit (WarnVariableNotInEntity invalid_var item.1))
              | _ => ret ()
              end
          end) ;;
        ret true
      else ret false
  | _ => ret false
  end.

Definition list_entity_check (option : raw_value)
    (es : gmap string (list string)) : M bool :=
  match option with
  | RawList l =>
      for_each (filter (λ entity, es !! entity = None) l)
        (λ invalid_entity,
           emit (Printed invalid_entity) ;;
           emit (WarnEntityNotInEntityset invalid_entity)) ;;
      ret true
  | _ => ret false
  end.

Definition _get_primitive_options
  : gmap string (raw_value → gmap string (list string) → M bool) :=
  list_to_map
    [("ignore_entities", list_entity_check);
     ("include_entities", list_entity_check);
     ("ignore_variables", dict_to_list_variable_check);
     ("include_variables", dict_to_list_variable_check);
     ("ignore_groupby_entities", list_entity_check);
     ("include_groupby_entities", list_entity_check);
     ("ignore_groupby_variables", dict_to_list_variable_check);
     ("include_groupby_variables", dict_to_list_variable_check)].

(** ** [_init_option_dict] *)

(** [set(v)] *)
Definition raw_set (v : raw_value) : result (gset string) :=
  match v with
  | RawList l => Ok (list_to_set l)
  | RawDict d => Ok (list_to_set (map fst d))
  | RawOther => Raise TypeError
  end.

(** [{key: set(option[key]) for key in option}] *)
Fixpoint set_values (d : list (string * raw_value)) (acc : gmap string (gset string))
  : result (gmap string (gset string)) :=
  match d with
  | [] => Ok acc
  | (key, v) :: d' => let! s := raw_set v in set_values d' (<[key := s]> acc)
  end.

(** The dicts and sets this function builds are new and are referred to by
    nothing else until it returns, so the result is a record value; the
    caller places it in the store. *)
Definition _init_option_dict (key : primitive_key) (option_dict : raw_option_dict)
    (es : gmap string (list string)) : M option_record :=
  let* initialized_option_dict :=
    for_fold option_dict
      (λ (initialized_option_dict : option_record) item,
         match _get_primitive_options !! item.1 with
         | None => raise (UnrecognizedOption item.1 key)
         | Some check =>
             let* ok := check item.2 es in
             if negb ok then raise (IncorrectTypeFormatting item.1 key)
             else match item.2 with
                  | RawList l =>
                      ret (<[item.1 := OSet (list_to_set l)]> initialized_option_dict)
                  | RawDict d =>
                      let* m := lift (set_values d ∅) in
                      ret (<[item.1 := OMap m]> initialized_option_dict)
                  | RawOther => ret initialized_option_dict
                  end
         end) ∅ in
  let initialized_option_dict :=
    if has_key initialized_option_dict "ignore_variables"
    then initialized_option_dict
    else <["ignore_variables" := OMap ∅]> initialized_option_dict in
  let initialized_option_dict :=
    if has_key initialized_option_dict "ignore_entities"
    then initialized_option_dict
    else <["ignore_entities" := OSet ∅]> initialized_option_dict in
  ret initialized_option_dict.

(** ** Primitives *)

(** An element of [primitive.input_types]: a variable type, or a list of
    variable types when the primitive declares several signatures. *)
Inductive input_type :=
| VariableType (t : string)
| TypeList (ts : list string).

Record primitive := Primitive { name : string; input_types : list input_type }.

(** An element of [all_primitives]: a primitive name or a primitive. *)
Inductive primitive_ref :=
| ByName (s : string)
| ByObject (p : primitive).

Definition primitive_name (p : primitive_ref) : string :=
  match p with
  | ByName s => s
  | ByObject p => name p
  end.

(** [len(primitive.input_types[0]) == len(options)
      if isinstance(primitive.input_types[0], list)
      else len(primitive.input_types) == len(options)] *)
Definition number_of_inputs_matches (p : primitive) (n : nat) : result bool :=
  match input_types p with
  | [] => Raise IndexError
  | TypeList ts :: _ => Ok (bool_decide (length ts = n))
  | VariableType _ :: _ => Ok (bool_decide (length (input_types p) = n))
  end.

(** [(primitive_key,)] unless the key is a tuple already *)
Definition key_names (key : primitive_key) : list string :=
  match key with
  | PKName n => [n]
  | PKTuple ns => ns
  end.

Section Synthesis.

(** The registries of [featuretools.primitives], which this module
    consults and does not define: primitive name to primitive. *)
Variable get_aggregation_primitives : gmap string primitive.
Variable get_transform_primitives : gmap string primitive.

(** [primitives.get_aggregation_primitives().get(primitive_key) or
     primitives.get_transform_primitives().get(primitive_key)];
    the registries are keyed by name, so a tuple key finds nothing. *)
Definition find_primitive (primitive_key : primitive_key) : option primitive :=
  match primitive_key with
  | PKName n =>
      match get_aggregation_primitives !! n with
      | Some p => Some p
      | None => get_transform_primitives !! n
      end
  | PKTuple _ => None
  end.

(** ** [_init_primitive_options] *)

(** One pass of the loop over [primitive_options.items()]. *)
Definition init_entry (es : gmap string (list string))
    (flattened_options : gmap string loc)
    (item : primitive_key * raw_options) : M (gmap string loc) :=
  let primitive_key := item.1 in
  let* options :=
    match item.2 with
    | OptionList options =>
        match find_primitive primitive_key with
        | None => raise AttributeError
        | Some primitive =>
            let* ok := lift (number_of_inputs_matches primitive (length options)) in
            if ok
            then for_list (λ option, _init_option_dict primitive_key option es) options
            else raise (OptionsInputsMismatch primitive_key)
        end
    | OptionDict options =>
        let* r := _init_option_dict primitive_key options es in ret [r]
    end in
  let* records := for_list alloc_record options in
  let* options_loc := alloc (ObjList records) in
  for_fold (key_names primitive_key)
    (λ (flattened_options : gmap string loc) each_primitive,
       if bool_decide (is_Some (flattened_options !! each_primitive))
       then raise (MultipleOptions each_primitive)
       else ret (<[each_primitive := options_loc]> flattened_options))
    flattened_options.

Definition _init_primitive_options
    (primitive_options : list (primitive_key * raw_options))
    (es : gmap string (list string)) : M (gmap string loc) :=
  for_fold primitive_options (init_entry es) ∅.

(** ** [generate_all_primitive_options] *)

(** [set().union(
      option.get('include_entities') if option.get('include_entities') else set([]),
      option.get('include_variables').keys() if option.get('include_variables') else set([]))] *)
Definition included_of_option (option : loc) : M (gset string) :=
  let* d := as_dict option in
  let* a :=
    match d !! "include_entities" with
    | None => ret ∅
    | Some l => let* o := read_obj l in
                if truthy o then lift (iter_ids o) else ret ∅
    end in
  let* b :=
    match d !! "include_variables" with
    | None => ret ∅
    | Some l => let* o := read_obj l in
                if truthy o then lift (obj_keys o) else ret ∅
    end in
  ret (a ∪ b).

(** [option['ignore_entities'] = option['ignore_entities'].union(
      ignore_entities.difference(included_entities))] *)
Definition add_global_ignore_entities (ignore_entities : loc)
    (included_entities : gset string) (option : loc) : M unit :=
  let* cur := obj_getitem option "ignore_entities" in
  let* s := as_set cur in
  let* g := as_set ignore_entities in
  let* new := alloc (ObjSet (s ∪ (g ∖ included_entities))) in
  obj_setitem option "ignore_entities" new.

(** The body of the loop over [options] for one
    [(entity, ignore_vars)] of the global [ignore_variables]. *)
Definition add_global_ignore_variables (included_entities : gset string)
    (entity : string) (ignore_vars : loc) (option : loc) : M unit :=
  let* iv := obj_getitem option "ignore_variables" in
  let* o := read_obj iv in
  if obj_contains o entity then
    let* cur := obj_getitem iv entity in
    let* s := as_set cur in
    let* a := read_obj ignore_vars in
    let* g := lift (iter_ids a) in
    let* new := alloc (ObjSet (s ∪ g)) in
    obj_setitem iv entity new
  else if bool_decide (entity ∈ included_entities) then ret ()
  else obj_setitem iv entity ignore_vars.

(** The branch for a primitive with options of its own. *)
Definition reconcile (ignore_entities ignore_variables : loc)
    (global_ignore_entities : loc) (options_loc : loc) : M loc :=
  let* o := read_obj options_loc in
  let* options := match o with
                  | ObjList ls => ret ls
                  | _ => raise TypeError
                  end in
  let* included := for_list included_of_option options in
  let included_entities : gset string := ⋃ included in
  let* g := as_set global_ignore_entities in
  let* global_ignore_entities := alloc (ObjSet (g ∖ included_entities)) in
  for_each options (add_global_ignore_entities ignore_entities included_entities) ;;
  let* items := as_dict ignore_variables in
  for_each (map fst (map_to_list items)) (λ entity,
    let* d := as_dict ignore_variables in
    match d !! entity with
    | None => raise RuntimeError
    | Some ignore_vars =>
        for_each options
          (add_global_ignore_variables included_entities entity ignore_vars)
    end) ;;
  ret global_ignore_entities.

(** One pass of the loop over [all_primitives]; the loop threads the
    table and [global_ignore_entities]. *)
Definition reconcile_primitive (ignore_entities ignore_variables : loc)
    (acc : gmap string loc * loc) (primitive : primitive_ref)
  : M (gmap string loc * loc) :=
  let primitive_options := acc.1 in
  let global_ignore_entities := acc.2 in
  let primitive := primitive_name primitive in
  match primitive_options !! primitive with
  | Some options =>
      let* global_ignore_entities :=
        reconcile ignore_entities ignore_variables global_ignore_entities options in
      ret (primitive_options, global_ignore_entities)
  | None =>
      let* r := alloc (ObjDict (<["ignore_variables" := ignore_variables]>
                                (<["ignore_entities" := ignore_entities]> ∅))) in
      let* options := alloc (ObjList [r]) in
      ret (<[primitive := options]> primitive_options, global_ignore_entities)
  end.

Definition generate_all_primitive_options
    (all_primitives : list primitive_ref)
    (primitive_options : list (primitive_key * raw_options))
    (ignore_entities ignore_variables : loc)
    (es : list entity) : M (gmap string loc * loc) :=
  let entityset_dict := entityset_dict es in
  let* primitive_options := _init_primitive_options primitive_options entityset_dict in
  let global_ignore_entities := ignore_entities in
  for_fold all_primitives
    (reconcile_primitive ignore_entities ignore_variables)
    (primitive_options, global_ignore_entities).

End Synthesis.

(** * Specification-level definitions *)

(** The option keys whose value is a set of entity ids, and those whose
    value maps an entity id to a set of variable ids. *)
Definition entity_option_keys : list string :=
  ["ignore_entities"; "include_entities";
   "ignore_groupby_entities"; "include_groupby_entities"].

Definition variable_option_keys : list string :=
  ["ignore_variables"; "include_variables";
   "ignore_groupby_variables"; "include_groupby_variables"].

Definition well_shaped (k : string) (v : optval) : bool :=
  match v with
  | OSet _ => bool_decide (k ∈ entity_option_keys)
  | OMap _ => bool_decide (k ∈ variable_option_keys)
  end.

(** The invariant of an option record after normalisation:
    [ignore_entities] and [ignore_variables] are present, and every key
    present is a recognised one holding a value of its shape. *)
Definition normalized (O : option_record) : Prop :=
  is_Some (O !! "ignore_entities") ∧ is_Some (O !! "ignore_variables") ∧
  map_Forall (λ k v, well_shaped k v = true) O.

(** "The entity is listed in the map", "the column is in that entity's set". *)
Definition entity_listed (m : option optval) (e : string) : bool :=
  match m with
  | Some (OMap d) => bool_decide (is_Some (d !! e))
  | _ => false
  end.

Definition column_listed (m : option optval) (e v : string) : bool :=
  match m with
  | Some (OMap d) => match d !! e with
                     | Some s => bool_decide (v ∈ s)
                     | None => false
                     end
  | _ => false
  end.

(** The ignore rule in the words of the specification: the owning entity is
    absent from [ignore_variables], or present but the column is not in
    that entity's ignored set. *)
Definition ignore_rule_passes (O : option_record) (e v : string) : bool :=
  negb (entity_listed (O !! "ignore_variables") e)
  || (entity_listed (O !! "ignore_variables") e
      && negb (column_listed (O !! "ignore_variables") e v)).

(** The direct filter in the words of the specification. *)
Definition direct_filter_passes (O : option_record) (e v : string) : bool :=
  match O !! "include_variables" with
  | Some inc =>
      (entity_listed (Some inc) e && column_listed (Some inc) e v)
      || (negb (entity_listed (Some inc) e) && ignore_rule_passes O e v)
  | None => ignore_rule_passes O e v
  end.

(** An entity is not mentioned by a record: the record has no
    [include_entities] and no [include_groupby_entities], and the entity is
    in neither of its ignore sets. *)
Definition unmentioned (entity : string) (O : option_record) : Prop :=
  O !! "include_entities" = None ∧
  O !! "include_groupby_entities" = None ∧
  present_and_contains O "ignore_entities" entity = false ∧
  present_and_contains O "ignore_groupby_entities" entity = false.

(** *** Normalisation *)

(** The shape a recognised option key demands of its value; [None] for a
    key that is not recognised. *)
Definition shape_ok (k : string) (v : raw_value) : option bool :=
  if bool_decide (k ∈ entity_option_keys) then Some (isinstance_list v)
  else if bool_decide (k ∈ variable_option_keys) then
    Some match v with
         | RawDict d => forallb isinstance_list (map snd d)
         | _ => false
         end
  else None.

(** The first key, in insertion order, that normalisation rejects, with
    the exception it raises. *)
Fixpoint first_rejection (key : primitive_key) (d : raw_option_dict) : option exn :=
  match d with
  | [] => None
  | (k, v) :: d' =>
      match shape_ok k v with
      | None => Some (UnrecognizedOption k key)
      | Some false => Some (IncorrectTypeFormatting k key)
      | Some true => first_rejection key d'
      end
  end.

(** The set, or dict of sets, made of a well-shaped raw value. *)
Definition convert (v : raw_value) : option optval :=
  match v with
  | RawList l => Some (OSet (list_to_set l))
  | RawDict d => match set_values d ∅ with
                 | Ok m => Some (OMap m)
                 | Raise _ => None
                 end
  | RawOther => None
  end.

Definition store_option (acc : option_record) (item : string * raw_value)
  : option_record :=
  match convert item.2 with
  | Some v => <[item.1 := v]> acc
  | None => acc
  end.

Definition with_defaults (r : option_record) : option_record :=
  let r := if has_key r "ignore_variables" then r
           else <["ignore_variables" := OMap ∅]> r in
  if has_key r "ignore_entities" then r
  else <["ignore_entities" := OSet ∅]> r.

(** What [_init_option_dict] returns or raises, as a function of the raw
    dict alone. *)
Definition normal_form (key : primitive_key) (d : raw_option_dict)
  : result option_record :=
  match first_rejection key d with
  | Some e => Raise e
  | None => Ok (with_defaults (foldl store_option ∅ d))
  end.

(** Equality of raw values as Python's [==] decides it: lists are equal
    element by element, dicts when they hold the same items in any order. *)
Definition raw_value_eq (v1 v2 : raw_value) : Prop :=
  match v1, v2 with
  | RawList l1, RawList l2 => l1 = l2
  | RawDict d1, RawDict d2 => NoDup d1.*1 ∧ d1 ≡ₚ d2
  | RawOther, RawOther => True
  | _, _ => False
  end.

Definition raw_item_eq (x y : string * raw_value) : Prop :=
  x.1 = y.1 ∧ raw_value_eq x.2 y.2.

(** Two raw option dicts are equal when, up to the order of insertion, they
    have the same keys with equal values. *)
Definition raw_option_dict_eq (d1 d2 : raw_option_dict) : Prop :=
  NoDup d1.*1 ∧ ∃ d, d1 ≡ₚ d ∧ Forall2 raw_item_eq d d2.

(** *** Computations that only write to the output *)

(** [m] returns [r] (a value or an exception) from every state, and leaves
    the store as it is: all it may do is emit output. *)
Definition emits {A} (m : M A) (r : result A) : Prop :=
  ∀ st, ∃ o, m st = (r, State (heap st) (out st ++ o)).

(** *** Reconciliation on record values *)

(** The entities the records of a primitive include explicitly. *)
Definition included_of_record (rec : option_record) : gset string :=
  match rec !! "include_entities" with
  | Some (OSet s) => s
  | _ => ∅
  end
  ∪ match rec !! "include_variables" with
    | Some (OMap m) => dom m
    | _ => ∅
    end.

Definition included_of_records (recs : list option_record) : gset string :=
  ⋃ (included_of_record <$> recs).

(** The global [ignore_entities], less the included entities, join the
    record's own. *)
Definition add_ignore_entities (S inc : gset string) (rec : option_record)
  : option_record :=
  match rec !! "ignore_entities" with
  | Some (OSet s) => <["ignore_entities" := OSet (s ∪ (S ∖ inc))]> rec
  | _ => rec
  end.

(** One [(entity, ignore_vars)] of the global [ignore_variables] meets one
    record. *)
Definition add_ignore_variables (inc : gset string) (entity : string)
    (g : gset string) (rec : option_record) : option_record :=
  match rec !! "ignore_variables" with
  | Some (OMap m) =>
      match m !! entity with
      | Some s => <["ignore_variables" := OMap (<[entity := s ∪ g]> m)]> rec
      | None =>
          if bool_decide (entity ∈ inc) then rec
          else <["ignore_variables" := OMap (<[entity := g]> m)]> rec
      end
  | _ => rec
  end.

(** What the branch for a primitive with options of its own does to the
    records of that primitive. *)
Definition reconcile_records (S : gset string) (V : gmap string (gset string))
    (recs : list option_record) : list option_record :=
  let inc := included_of_records recs in
  foldl (λ recs item, add_ignore_variables inc item.1 item.2 <$> recs)
        (add_ignore_entities S inc <$> recs)
        (map_to_list V).

(** The record of a primitive without options of its own. *)
Definition default_record (S : gset string) (V : gmap string (gset string))
  : option_record :=
  <["ignore_variables" := OMap V]> (<["ignore_entities" := OSet S]> ∅).

(** *** The table as a value *)

(** Primitives named by one key of [primitive_options] share one list of
    records.  A table value keeps that sharing: a primitive name maps to a
    group, and a group is a list of records. *)
Record table := Table {
  group_of : gmap string nat;
  groups : list (list option_record)
}.

(** The records of each primitive. *)
Definition table_records (t : table) : gmap string (list option_record) :=
  omap (λ g, groups t !! g) (group_of t).

(** [for each_primitive in primitive_key: ...] *)
Fixpoint register_names (names : list string) (g : nat) (m : gmap string nat)
  : result (gmap string nat) :=
  match names with
  | [] => Ok m
  | n :: names' =>
      if bool_decide (is_Some (m !! n)) then Raise (MultipleOptions n)
      else register_names names' g (<[n := g]> m)
  end.

Section TableValue.

Variable get_aggregation_primitives get_transform_primitives
  : gmap string primitive.

(** The records one entry of [primitive_options] yields. *)
Definition entry_records (item : primitive_key * raw_options)
  : result (list option_record) :=
  match item.2 with
  | OptionList options =>
      match find_primitive get_aggregation_primitives get_transform_primitives
              item.1 with
      | None => Raise AttributeError
      | Some primitive =>
          let! ok := number_of_inputs_matches primitive (length options) in
          if ok then comprehension (normal_form item.1) options
          else Raise (OptionsInputsMismatch item.1)
      end
  | OptionDict options => let! r := normal_form item.1 options in Ok [r]
  end.

Definition table_of_entry (t : table) (item : primitive_key * raw_options)
  : result table :=
  let! recs := entry_records item in
  let! m := register_names (key_names item.1) (length (groups t)) (group_of t) in
  Ok (Table m (groups t ++ [recs])).

(** The table [_init_primitive_options] builds. *)
Fixpoint table_of_options (entries : list (primitive_key * raw_options))
    (t : table) : result table :=
  match entries with
  | [] => Ok t
  | item :: entries' =>
      let! t' := table_of_entry t item in table_of_options entries' t'
  end.

(** One pass of the loop of [generate_all_primitive_options], on the table
    and the contents of [global_ignore_entities]. *)
Definition reconcile_step (S : gset string) (V : gmap string (gset string))
    (acc : table * gset string) (primitive : string) : table * gset string :=
  match group_of acc.1 !! primitive with
  | Some g =>
      let recs := default [] (groups acc.1 !! g) in
      (Table (group_of acc.1) (<[g := reconcile_records S V recs]> (groups acc.1)),
       acc.2 ∖ included_of_records recs)
  | None =>
      (Table (<[primitive := length (groups acc.1)]> (group_of acc.1))
             (groups acc.1 ++ [[default_record S V]]),
       acc.2)
  end.

(** What [generate_all_primitive_options] returns, as a function of the
    contents of its arguments. *)
Definition reconciled (all_primitives : list primitive_ref)
    (primitive_options : list (primitive_key * raw_options))
    (S : gset string) (V : gmap string (gset string))
  : result (table * gset string) :=
  let! t := table_of_options primitive_options (Table ∅ []) in
  Ok (foldl (reconcile_step S V) (t, S) (primitive_name <$> all_primitives)).

End TableValue.

(** *** Objects and the values they hold *)

Definition is_set (st : state) (x : loc) (s : gset string) : Prop :=
  heap st !! x = Some (ObjSet s).

Definition is_vardict (st : state) (x : loc) (m : gmap string (gset string)) : Prop :=
  ∃ d, heap st !! x = Some (ObjDict d) ∧
       ∀ k, option_Forall2 (is_set st) (d !! k) (m !! k).

(** The object at [x] holds the option value [v].  A dict of variables is
    the record's own (in its footprint [D]) or the caller's
    [ignore_variables] itself. *)
Definition is_optval (lv : loc) (st : state) (D : gset loc) (x : loc) (v : optval)
  : Prop :=
  match v with
  | OSet s => is_set st x s
  | OMap m => (x ∈ D ∨ x = lv) ∧ is_vardict st x m
  end.

(** The dict at [r] is the record [rec]; the dicts it is made of lie in the
    footprint [D] and are distinct objects. *)
Definition is_record (lv : loc) (st : state) (D : gset loc) (r : loc)
    (rec : option_record) : Prop :=
  r ∈ D ∧ r ≠ lv ∧
  ∃ d, heap st !! r = Some (ObjDict d) ∧
       (∀ k, option_Forall2 (is_optval lv st D) (d !! k) (rec !! k)) ∧
       (∀ k, d !! k ≠ Some r) ∧
       (∀ k1 k2 x, k1 ≠ k2 → d !! k1 = Some x → d !! k2 = Some x →
                   ∃ s, is_set st x s).

(** From [st] to [st'] objects that are not dicts stay as they are, and so
    do the dicts outside [W]. *)
Definition evolves (W : gset loc) (st st' : state) : Prop :=
  length (heap st) ≤ length (heap st') ∧
  ∀ x o, heap st !! x = Some o →
         match o with ObjDict _ => x ∉ W | _ => True end →
         heap st' !! x = Some o.

(** *** The invariant of the table in the store *)

(** Footprints that share no object. *)
Fixpoint separated (Ds : list (gset loc)) : Prop :=
  match Ds with
  | [] => True
  | D :: Ds' => Forall (λ D', D ## D') Ds' ∧ separated Ds'
  end.

(** A record in the store, with its footprint: it holds a normalised
    record value, and its footprint is allocated and does not contain the
    caller's [ignore_variables]. *)
Definition record_ok (lv : loc) (st : state) (rd : loc * gset loc)
    (rec : option_record) : Prop :=
  is_record lv st (rd.2) (rd.1) rec ∧ normalized rec ∧
  (lv ∉ (rd.2)) ∧ ∀ x, x ∈ (rd.2) → x < length (heap st).

(** A list object of the table, with the records it lists. *)
Definition group_ok (lv : loc) (st : state)
    (G : loc * list (loc * gset loc)) (recs : list option_record) : Prop :=
  heap st !! G.1 = Some (ObjList G.2.*1) ∧ Forall2 (record_ok lv st) G.2 recs.

(** The table [t] in the store [st] holds the table value [T]: [Gs] lists,
    group by group, the list object and the records with their footprints. *)
Definition table_ok (lv : loc) (st : state) (t : gmap string loc)
    (Gs : list (loc * list (loc * gset loc))) (T : table) : Prop :=
  (∀ p, t !! p = (group_of T !! p) ≫= (λ g, fst <$> Gs !! g)) ∧
  (∀ p g, group_of T !! p = Some g → g < length (groups T)) ∧
  Forall2 (group_ok lv st) Gs (groups T) ∧
  Forall (λ G, separated (G.2.*2)) Gs ∧
  (∀ g g' G G', g ≠ g' → Gs !! g = Some G → Gs !! g' = Some G' →
                ⋃ (G.2.*2) ## ⋃ (G'.2.*2)).

(** A dict under construction by [alloc_gmap]: its entries are objects
    allocated from [n0] on that hold, in the sense of [Q], the values of
    [m], and no two keys share an object. *)
Definition built {A} (Q : state → loc → A → Prop) (n0 : nat) (st : state)
    (d : gmap string loc) (m : gmap string A) : Prop :=
  (∀ k, option_Forall2 (λ x a, n0 ≤ x < length (heap st) ∧ Q st x a)
                       (d !! k) (m !! k)) ∧
  (∀ k1 k2 x, d !! k1 = Some x → d !! k2 = Some x → k1 = k2).

(** The contents of a record's [ignore_entities]. *)
Definition ignore_entities_of (rec : option_record) : gset string :=
  match rec !! "ignore_entities" with
  | Some (OSet s) => s
  | _ => ∅
  end.

(** The included entities of a primitive with records of its own in the
    table; nothing for any other primitive. *)
Definition explicit_included (T : table) (p : string) : gset string :=
  match table_records T !! p with
  | Some recs => included_of_records recs
  | None => ∅
  end.

(** Reconciliation so far has left the record [rec'] related to the
    user's record [rec]: the included entities are the same, and
    [ignore_entities] has gained at most the global ones that are not in
    [inc]. *)
Definition reconciled_from (S inc : gset string) (rec' rec : option_record)
  : Prop :=
  included_of_record rec' = included_of_record rec ∧
  ignore_entities_of rec ⊆ ignore_entities_of rec' ∧
  ignore_entities_of rec' ⊆ ignore_entities_of rec ∪ (S ∖ inc).

(** Every primitive of the table has a group. *)
Definition table_wf (T : table) : Prop :=
  ∀ p g, group_of T !! p = Some g → g < length (groups T).

(** The state of the loop of [generate_all_primitive_options] after the
    primitives [processed], starting from the table [T0] of the user's
    options: the groups of [T0] are still where they were, their records
    are reconciled from the user's, the groups made since include nothing,
    and [global_ignore_entities] has lost what the processed primitives
    include. *)
Definition loop_inv (S : gset string) (T0 : table) (processed : list string)
    (acc : table * gset string) : Prop :=
  length (groups T0) ≤ length (groups acc.1) ∧
  (∀ p g, group_of T0 !! p = Some g → group_of acc.1 !! p = Some g) ∧
  (∀ p g, group_of acc.1 !! p = Some g → group_of T0 !! p = None →
          length (groups T0) ≤ g) ∧
  (∀ g recs0, groups T0 !! g = Some recs0 →
              ∃ recs, groups acc.1 !! g = Some recs ∧
                      Forall2 (reconciled_from S (included_of_records recs0))
                              recs recs0) ∧
  (∀ g recs, length (groups T0) ≤ g → groups acc.1 !! g = Some recs →
             included_of_records recs = ∅) ∧
  acc.2 = S ∖ ⋃ (explicit_included T0 <$> processed).

(** The groupby filter on an identity feature, case by case on which of
    [include_groupby_variables] and [ignore_groupby_variables] the record
    has. *)
Definition groupby_filter_passes (O : option_record) (e v : string) : bool :=
  let inc := O !! "include_groupby_variables" in
  let ign := O !! "ignore_groupby_variables" in
  let not_ignored := negb (entity_listed ign e) || negb (column_listed ign e v) in
  match inc, ign with
  | Some _, Some _ =>
      (entity_listed inc e && column_listed inc e v)
      || (negb (entity_listed inc e) && not_ignored)
  | Some _, None =>
      (entity_listed inc e && column_listed inc e v) || negb (entity_listed inc e)
  | None, Some _ => not_ignored
  | None, None => true
  end.

(** What one record says of an entity, in the words of the entity
    pre-filter: an include list is present and the entity is not in it, or
    the entity is in an ignore list; the groupby lists count in groupby
    mode only. *)
Definition record_excludes (entity : string) (groupby : bool)
    (O : option_record) : bool :=
  present_and_excludes O "include_entities" entity
  || groupby && present_and_excludes O "include_groupby_entities" entity
  || present_and_contains O "ignore_entities" entity
  || groupby && present_and_contains O "ignore_groupby_entities" entity.

(** The contents of a record's [ignore_variables]. *)
Definition ignore_variables_of (rec : option_record)
  : gmap string (gset string) :=
  match rec !! "ignore_variables" with
  | Some (OMap m) => m
  | _ => ∅
  end.

(** What reconciliation leaves for the entity [e] in a record's
    [ignore_variables], from the record's own entry and the global one: the
    union when both exist; the record's own when there is no global one; the
    global one when the record has none, unless the primitive includes the
    entity explicitly. *)
Definition merge_rule (inc : gset string) (e : string)
    (own glob : option (gset string)) : option (gset string) :=
  match own, glob with
  | Some s, Some g => Some (s ∪ g)
  | Some s, None => Some s
  | None, Some g => if bool_decide (e ∈ inc) then None else Some g
  | None, None => None
  end.

(** The record [rec'] is the record [rec] reconciled with the global
    [ignore_entities] [S] and [ignore_variables] [V], for a primitive whose
    records include the entities [inc]. *)
Definition reconciles (S : gset string) (V : gmap string (gset string))
    (inc : gset string) (rec' rec : option_record) : Prop :=
  rec' !! "ignore_entities" = Some (OSet (ignore_entities_of rec ∪ (S ∖ inc))) ∧
  (∃ m', rec' !! "ignore_variables" = Some (OMap m') ∧
         ∀ e, m' !! e
              = merge_rule inc e (ignore_variables_of rec !! e) (V !! e)) ∧
  ∀ k, k ≠ "ignore_entities" → k ≠ "ignore_variables" → rec' !! k = rec !! k.

(** A group of the user's table is touched by the loop over
    [all_primitives] when one of the primitives processed refers to it. *)
Definition touched (T0 : table) (processed : list string) (g : nat) : Prop :=
  Exists (λ p, group_of T0 !! p = Some g) processed.

(** The state of the loop of [generate_all_primitive_options] after the
    primitives [processed], in full: besides [loop_inv], the table is well
    formed; a group of the user's table holds the user's records, reconciled
    if the group is touched; the groups made since hold the default record;
    and the primitives of the table are the user's and those processed. *)
Definition reconcile_inv (S : gset string) (V : gmap string (gset string))
    (T0 : table) (processed : list string) (acc : table * gset string) : Prop :=
  loop_inv S T0 processed acc ∧
  table_wf acc.1 ∧
  (∀ g recs0, groups T0 !! g = Some recs0 →
     ∃ recs, groups acc.1 !! g = Some recs ∧
       (touched T0 processed g →
          Forall2 (reconciles S V (included_of_records recs0)) recs recs0) ∧
       (¬ touched T0 processed g → recs = recs0)) ∧
  (∀ g recs, length (groups T0) ≤ g → groups acc.1 !! g = Some recs →
             recs = [default_record S V]) ∧
  (∀ p, is_Some (group_of acc.1 !! p)
        ↔ is_Some (group_of T0 !! p) ∨ p ∈ processed).

(** The ids a raw option value refers to are in the entityset: the
    entities of a list; the entities of a dict and, for each, the variables
    listed. *)
Definition known_ids (es : gmap string (list string)) (v : raw_value) : Prop :=
  match v with
  | RawList l => Forall (λ e, is_Some (es !! e)) l
  | RawDict d =>
      Forall (λ item : string * raw_value,
                ∃ cols, es !! item.1 = Some cols ∧
                        match item.2 with
                        | RawList vs => Forall (λ x, x ∈ cols) vs
                        | _ => True
                        end) d
  | RawOther => True
  end.

(** The option dicts of one entry of [primitive_options], one per record
    of the entry: the dict itself, or the dicts of the list. *)
Definition option_dicts (opts : raw_options) : list raw_option_dict :=
  match opts with
  | OptionDict d => [d]
  | OptionList l => l
  end.

(** * Properties *)

(** A closed decidable proposition, settled by evaluation. *)
Ltac by_compute := refine (bool_decide_unpack _ _); vm_compute; exact I.

(** ** The error monad *)

Lemma comprehension_all_ok {A B} (f : A → result B) (g : A → B) (l : list A) :
  Forall (λ x, f x = Ok (g x)) l → comprehension f l = Ok (map g l).
Proof.
  induction 1 as [|x l Hx _ IH]; simpl; [done|].
  by rewrite Hx, IH.
Qed.

Lemma zip_app_r_short {A B} (l : list A) (k xs : list B) :
  length l ≤ length k → zip l (k ++ xs) = zip l k.
Proof.
  revert k. induction l as [|a l IH]; intros [|b k] Hlen; simpl in *;
    try done; try lia.
  f_equal. apply IH. lia.
Qed.

Lemma zip_app_l_short {A B} (l os : list A) (k : list B) :
  length k ≤ length l → zip (l ++ os) k = zip l k.
Proof.
  revert k. induction l as [|a l IH]; intros [|b k] Hlen; simpl in *;
    try done; try lia.
  - by destruct os.
  - f_equal. apply IH. lia.
Qed.

Lemma all_comprehension_true {A} (f : A → result bool) (l : list A) :
  (let! bs := comprehension f l in Ok (py_all bs)) = Ok true
  ↔ Forall (λ x, f x = Ok true) l.
Proof.
  induction l as [|x l IH]; simpl.
  - split; [constructor|done].
  - rewrite Forall_cons, <- IH. destruct (f x) as [[]|]; simpl.
    + destruct (comprehension f l) as [bs|]; simpl.
      * unfold py_all. simpl. tauto.
      * split; [done|]. by intros [_ ?].
    + destruct (comprehension f l) as [bs|]; simpl.
      * split; [done|]. by intros [? _].
      * split; [done|]. by intros [? _].
    + split; [done|]. by intros [? _].
Qed.

Lemma comprehension_returns {A B} (f : A → result B) (l : list A) :
  (∃ ys, comprehension f l = Ok ys) ↔ Forall (λ x, ∃ y, f x = Ok y) l.
Proof.
  induction l as [|x l IH]; simpl.
  - split; [constructor|eauto].
  - rewrite Forall_cons, <- IH. destruct (f x) as [y|]; simpl.
    + destruct (comprehension f l) as [ys|]; simpl.
      * split; eauto.
      * split; [by intros [? ?]|]. by intros [_ [? ?]].
    + split; [by intros [? ?]|]. by intros [[? ?] _].
Qed.

Lemma comprehension_zip_map {A B C} (g : A → B → result C) (os : list A)
    (m : list B) :
  comprehension (λ p : (B → result C) * B, p.1 p.2) (zip (map g os) m)
  = comprehension (λ p : A * B, g p.1 p.2) (zip os m).
Proof.
  revert m. induction os as [|O os IH]; intros [|f m]; simpl; try done.
  by rewrite IH.
Qed.

(** ** The groupby filter *)

(** The three branches of [_groupby_filter_generator] other than
    "include only" reject every feature that is not an identity feature. *)
Lemma groupby_filter_rejects_other (O : option_record) (e n : string) :
  ¬ (has_key O "include_groupby_variables" = true
     ∧ has_key O "ignore_groupby_variables" = false) →
  _groupby_filter_generator O (OtherFeature e n) = Ok false.
Proof.
  intros Hbranch. unfold _groupby_filter_generator.
  destruct (has_key O "include_groupby_variables") eqn:Hinc,
           (has_key O "ignore_groupby_variables") eqn:Hign; simpl; try done.
  - unfold has_key in Hinc. apply bool_decide_eq_true in Hinc as [inc Hinc].
    unfold getitem. rewrite Hinc. simpl. by destruct (py_in e inc).
  - destruct Hbranch. done.
Qed.

(** In the "include only" branch a feature that is not an identity feature
    passes exactly when its entity is not a key of
    [include_groupby_variables]. *)
Lemma groupby_filter_include_only_other (O : option_record) (inc : optval)
    (e n : string) :
  O !! "include_groupby_variables" = Some inc →
  O !! "ignore_groupby_variables" = None →
  _groupby_filter_generator O (OtherFeature e n) = Ok (negb (py_in e inc)).
Proof.
  intros Hinc Hign.
  assert (has_key O "include_groupby_variables" = true) as Hi
    by (unfold has_key; rewrite Hinc; apply bool_decide_eq_true_2; eauto).
  assert (has_key O "ignore_groupby_variables" = false) as Hg
    by (unfold has_key; rewrite Hign; apply bool_decide_eq_false_2;
        intros [? ?]; done).
  unfold _groupby_filter_generator. rewrite Hi, Hg. simpl.
  unfold getitem. by rewrite Hinc.
Qed.

(** C1, evaluated at the failing input: with only
    [include_groupby_variables = {"customers": {"id"}}] present, the groupby
    filter accepts a feature on entity "transactions" that is not an
    identity feature. *)
Theorem groupby_filter_accepts_non_identity :
  _groupby_filter_generator
    {[ "include_groupby_variables" := OMap {[ "customers" := {[ "id" ]} ]} ]}
    (OtherFeature "transactions" "MONTH(transactions.time)")
  = Ok true.
Proof. by vm_compute. Qed.

(** ** The direct filter *)

Lemma normalized_ignore_variables (O : option_record) :
  normalized O → ∃ m, O !! "ignore_variables" = Some (OMap m).
Proof.
  intros (_ & [v Hv] & Hall). specialize (Hall _ _ Hv).
  destruct v as [s|m]; [|eauto]. by vm_compute in Hall.
Qed.

Lemma normalized_ignore_entities (O : option_record) :
  normalized O → ∃ s, O !! "ignore_entities" = Some (OSet s).
Proof.
  intros ([v Hv] & _ & Hall). specialize (Hall _ _ Hv).
  destruct v as [s|m]; [eauto|]. by vm_compute in Hall.
Qed.

Lemma normalized_include_variables (O : option_record) (v : optval) :
  normalized O → O !! "include_variables" = Some v → ∃ m, v = OMap m.
Proof.
  intros (_ & _ & Hall) Hv. specialize (Hall _ _ Hv).
  destruct v as [s|m]; [|eauto]. by vm_compute in Hall.
Qed.

Lemma passes_ignore_filter_spec (O : option_record) (e v : string) :
  normalized O →
  passes_ignore_filter O (IdentityFeature e v) = Ok (ignore_rule_passes O e v).
Proof.
  intros [m Hm]%normalized_ignore_variables.
  unfold passes_ignore_filter, ignore_rule_passes, getitem. rewrite Hm. simpl.
  destruct (m !! e) as [s|] eqn:He.
  - rewrite bool_decide_eq_true_2 by eauto. by simpl.
  - rewrite bool_decide_eq_false_2 by (intros [? ?]; done). by simpl.
Qed.

(** C5: on a normalised record the direct variable filter returns, for an
    identity feature, exactly the verdict the specification words: with
    [include_variables] present, (entity listed and column included) or
    (entity not listed and the ignore rule passes); with it absent, the
    ignore rule alone. *)
Theorem variable_filter_spec (O : option_record) (e v : string) :
  normalized O →
  _variable_filter_generator O (IdentityFeature e v)
  = Ok (direct_filter_passes O e v).
Proof.
  intros HO. unfold _variable_filter_generator, direct_filter_passes, has_key.
  destruct (O !! "include_variables") as [inc|] eqn:Hinc.
  - rewrite bool_decide_eq_true_2 by eauto.
    destruct (normalized_include_variables O inc HO Hinc) as [m ->].
    unfold passes_include_filter, getitem. rewrite Hinc. simpl.
    destruct (m !! e) as [s|] eqn:He.
    + rewrite bool_decide_eq_true_2 by eauto. simpl.
      by destruct (bool_decide (v ∈ s)).
    + rewrite bool_decide_eq_false_2 by (intros [? ?]; done). simpl.
      by apply passes_ignore_filter_spec.
  - rewrite bool_decide_eq_false_2 by (intros [? ?]; done).
    by apply passes_ignore_filter_spec.
Qed.

(** ** The entity pre-filter *)

Lemma should_ignore_unmentioned (entity : string) (groupby : bool)
    (O : option_record) :
  is_Some (O !! "ignore_entities") → unmentioned entity O →
  should_ignore_entity entity groupby O = Ok false.
Proof.
  intros [ign Hign] (Hinc & Hincg & Hie & Hige).
  unfold should_ignore_entity, present_and_excludes.
  rewrite Hinc, Hincg. rewrite andb_false_r. simpl.
  unfold getitem. rewrite Hign. simpl.
  unfold present_and_contains in Hie. rewrite Hign in Hie. rewrite Hie, Hige.
  by rewrite andb_false_r.
Qed.

(** C6: an entity that no record mentions is never ignored, in groupby
    mode and in direct mode; the records are option records, that is, each
    has its [ignore_entities]. *)
Theorem ignore_entity_unmentioned (options : list option_record)
    (entity : string) (groupby : bool) :
  Forall (λ O, is_Some (O !! "ignore_entities")) options →
  Forall (unmentioned entity) options →
  ignore_entity_for_primitive options entity groupby = Ok false.
Proof.
  intros Hwf Hun. unfold ignore_entity_for_primitive.
  rewrite (comprehension_all_ok _ (λ _, false)).
  - simpl. unfold py_any. induction options; simpl; [done|].
    apply IHoptions; by eapply Forall_inv_tail.
  - revert Hun. induction Hwf as [|O os HO _ IH]; intros Hun; [constructor|].
    constructor.
    + apply should_ignore_unmentioned; [done|]. by eapply Forall_inv.
    + apply IH. by eapply Forall_inv_tail.
Qed.

Lemma variable_filter_spec_witness :
  let O : option_record :=
    {[ "ignore_variables" := OMap {[ "transactions" := {[ "amount" ]} ]};
       "ignore_entities" := OSet ∅ ]} in
  normalized O ∧
  _variable_filter_generator O (IdentityFeature "transactions" "amount")
  = Ok (direct_filter_passes O "transactions" "amount").
Proof.
  intros O.
  assert (normalized O) as HO.
  { repeat split; [by eexists; vm_compute ..|].
    apply map_Forall_to_list. vm_compute. by repeat constructor. }
  split; [exact HO|]. exact (variable_filter_spec O _ _ HO).
Defined.

Lemma ignore_entity_unmentioned_witness :
  let O : option_record :=
    {[ "ignore_entities" := OSet {[ "customers" ]};
       "ignore_variables" := OMap ∅ ]} in
  Forall (λ O, is_Some (O !! "ignore_entities")) [O] ∧
  Forall (unmentioned "transactions") [O] ∧
  ignore_entity_for_primitive [O] "transactions" true = Ok false.
Proof.
  intros O.
  assert (Forall (λ O, is_Some (O !! "ignore_entities")) [O]) as H1
    by (repeat constructor; by eexists; vm_compute).
  assert (Forall (unmentioned "transactions") [O]) as H2
    by (repeat constructor; by vm_compute).
  split; [exact H1|]. split; [exact H2|].
  exact (ignore_entity_unmentioned [O] "transactions" true H1 H2).
Defined.

(** ** Filtering matches *)

(** C3 as stated fails: with an empty list of option records and one
    candidate match, [options[0]] raises [IndexError]; the match is not
    returned. *)
Lemma filter_empty_options_counterexample :
  let features : FeatureBase := sample_features in
  let interpreter : Interpreter := sample_interpreter in
  let matches := [[IdentityFeature "transactions" "amount"]] in
  filter_matches_by_options matches [] false = Raise IndexError ∧
  ∀ s, filter_matches_by_options matches [] false ≠ Ok s.
Proof.
  intros features interpreter matches.
  assert (filter_matches_by_options matches [] false = Raise IndexError) as Hev
    by reflexivity.
  split; [exact Hev|]. intros s. rewrite Hev. discriminate.
Qed.

(** C3, amended: with an empty list of option records the filter returns
    the empty set when there is no candidate match, and raises [IndexError]
    as soon as there is one. *)
Theorem filter_empty_options `{FeatureBase} `{Interpreter} (groupby : bool) :
  filter_matches_by_options [] [] groupby = Ok ∅ ∧
  ∀ (m : match_) (matches : list match_),
    filter_matches_by_options (m :: matches) [] groupby = Raise IndexError.
Proof. split; [done|]. intros m matches. by destruct groupby. Qed.

(** The check of one match against several records, position by position:
    the specification of the branch [len(options) > 1]. *)
Lemma is_valid_match_several (groupby : bool) (options : list option_record)
    (m : match_) :
  1 < length options →
  is_valid_match groupby options m
  = let! bs := comprehension (λ p : (feature → result bool) * feature, p.1 p.2)
                 (zip (map (generator groupby) options) m) in
    Ok (py_all bs).
Proof.
  intros Hlen. unfold is_valid_match.
  by rewrite bool_decide_eq_true_2 by done.
Qed.

(** C10: with more than one record the features and records are paired by
    [zip]: the check evaluates, in order, the filter of each record on the
    feature at the same position, for the positions that both the record
    list and the match have, and nothing else; so the match is valid
    exactly when each of these pairs passes.  Features beyond the last
    record are never tested, and records beyond the last feature constrain
    nothing: the check is that of the match cut to the length of the
    record list, and that of any non-empty prefix of the records that is
    as long as the match. *)
Theorem is_valid_match_zip (groupby : bool) (options : list option_record)
    (m : match_) :
  1 < length options →
  is_valid_match groupby options m
  = (let! bs := comprehension (λ p : option_record * feature,
                                 generator groupby p.1 p.2) (zip options m) in
     Ok (py_all bs)) ∧
  (is_valid_match groupby options m = Ok true
   ↔ Forall (λ p : option_record * feature, generator groupby p.1 p.2 = Ok true)
            (zip options m)) ∧
  (∀ extra_features : list feature,
     length options ≤ length m →
     is_valid_match groupby options (m ++ extra_features)
     = is_valid_match groupby options m) ∧
  (∀ records extra_records : list option_record,
     options = records ++ extra_records → records ≠ [] →
     length m ≤ length records →
     is_valid_match groupby options m = is_valid_match groupby records m).
Proof.
  intros Hlen.
  assert (∀ m', is_valid_match groupby options m'
          = (let! bs := comprehension (λ p : option_record * feature,
                                         generator groupby p.1 p.2)
                          (zip options m') in
             Ok (py_all bs))) as Heq.
  { intros m'. rewrite is_valid_match_several by done.
    by rewrite comprehension_zip_map. }
  split; [apply Heq|]. split; [|split].
  - rewrite Heq. apply all_comprehension_true.
  - intros xs Hm. rewrite !Heq.
    by rewrite zip_app_r_short.
  - intros records extra -> Hne Hm. rewrite Heq.
    rewrite zip_app_l_short by done.
    destruct (decide (1 < length records)) as [Hlong|Hshort].
    + rewrite (is_valid_match_several groupby records) by done.
      by rewrite comprehension_zip_map.
    + destruct records as [|O [|O' records]]; [done| |simpl in Hshort; lia].
      unfold is_valid_match. rewrite bool_decide_eq_false_2 by (simpl; lia).
      simpl. by destruct m as [|f [|f' m]]; [| |simpl in Hm; lia].
Qed.

(** With two records that ignore [transactions.amount], a match of three
    features whose third is that very column is accepted, and so is a match
    of one feature whatever the second record; a match whose second feature
    is that column is rejected. *)
Lemma is_valid_match_zip_witness :
  let O : option_record :=
    {[ "ignore_variables" := OMap {[ "transactions" := {[ "amount" ]} ]};
       "ignore_entities" := OSet ∅ ]} in
  let ok := IdentityFeature "transactions" "id" in
  let bad := IdentityFeature "transactions" "amount" in
  1 < length [O; O] ∧
  is_valid_match false [O; O] ([ok; ok] ++ [bad]) = Ok true ∧
  is_valid_match false [O; O] [ok] = Ok true ∧
  is_valid_match false [O; O] [ok; bad] = Ok false.
Proof.
  intros O ok bad.
  assert (1 < length [O; O]) as Hlen by (simpl; lia).
  split; [exact Hlen|].
  destruct (is_valid_match_zip false [O; O] [ok; ok] Hlen) as (_ & _ & Hf & _).
  destruct (is_valid_match_zip false [O; O] [ok] Hlen) as (_ & _ & _ & Hr).
  destruct (is_valid_match_zip false [O; O] [ok; bad] Hlen) as (Heq & _).
  split; [|split].
  - rewrite (Hf [bad]) by (simpl; lia). by vm_compute.
  - rewrite (Hr [O] [O]) by (done || (simpl; lia)). by vm_compute.
  - rewrite Heq. by vm_compute.
Defined.

(** ** The state monad *)

Lemma bind_run_ok {A B} (m : M A) (k : A → M B) st a st' :
  m st = (Ok a, st') → bind m k st = k a st'.
Proof. intros H. unfold bind. by rewrite H. Qed.

Lemma bind_run_raise {A B} (m : M A) (k : A → M B) st e st' :
  m st = (Raise e, st') → bind m k st = (Raise e, st').
Proof. intros H. unfold bind. by rewrite H. Qed.

Lemma bind_assoc {A B C} (m : M A) (f : A → M B) (g : B → M C) st :
  bind (bind m f) g st = bind m (λ x, bind (f x) g) st.
Proof. unfold bind. by destruct (m st) as [[a|e] st']. Qed.

Lemma for_fold_app {A S} (l1 l2 : list A) (body : S → A → M S) (s : S) st :
  for_fold (l1 ++ l2) body s st
  = (let* s' := for_fold l1 body s in for_fold l2 body s') st.
Proof.
  revert s st. induction l1 as [|x l1 IH]; intros s st; simpl.
  { unfold bind, ret. done. }
  rewrite bind_assoc. unfold bind at 1 2.
  destruct (body s x st) as [[s'|e] st']; [|done].
  apply IH.
Qed.

(** *** Computations that only emit *)

Lemma emits_ret {A} (a : A) : emits (ret a) (Ok a).
Proof. intros st. exists []. destruct st. by rewrite app_nil_r. Qed.

Lemma emits_raise {A} (e : exn) : emits (raise (A:=A) e) (Raise e).
Proof. intros st. exists []. destruct st. by rewrite app_nil_r. Qed.

Lemma emits_lift {A} (r : result A) : emits (lift r) r.
Proof. intros st. exists []. destruct st. by rewrite app_nil_r. Qed.

Lemma emits_emit (o : output) : emits (emit o) (Ok ()).
Proof. intros st. by exists [o]. Qed.

Lemma emits_bind {A B} (m : M A) (k : A → M B) (a : A) (r : result B) :
  emits m (Ok a) → emits (k a) r → emits (bind m k) r.
Proof.
  intros Hm Hk st. destruct (Hm st) as [o1 H1].
  destruct (Hk (State (heap st) (out st ++ o1))) as [o2 H2].
  exists (o1 ++ o2). unfold bind. rewrite H1, H2. simpl. by rewrite app_assoc.
Qed.

Lemma emits_bind_raise {A B} (m : M A) (k : A → M B) (e : exn) :
  emits m (Raise e) → emits (bind m k) (Raise e).
Proof.
  intros Hm st. destruct (Hm st) as [o1 H1].
  exists o1. unfold bind. by rewrite H1.
Qed.

Lemma emits_for_each {A} (l : list A) (body : A → M unit) :
  (∀ x, emits (body x) (Ok ())) → emits (for_each l body) (Ok ()).
Proof.
  intros Hbody. induction l as [|x l IH]; simpl.
  - apply emits_ret.
  - eapply emits_bind; [apply Hbody|apply IH].
Qed.

Lemma emits_result {A} (m : M A) (r : result A) st :
  emits m r → (m st).1 = r.
Proof. intros H. destruct (H st) as [o ->]. done. Qed.

Lemma emits_heap {A} (m : M A) (r : result A) st :
  emits m r → heap (m st).2 = heap st.
Proof. intros H. destruct (H st) as [o ->]. done. Qed.

(** ** The option checkers *)

Lemma list_entity_check_emits (v : raw_value) (es : gmap string (list string)) :
  emits (list_entity_check v es) (Ok (isinstance_list v)).
Proof.
  destruct v as [l|d|]; simpl; try apply emits_ret.
  eapply emits_bind; [|apply emits_ret].
  apply emits_for_each. intros x.
  eapply emits_bind; apply emits_emit.
Qed.

Lemma dict_to_list_variable_check_emits (v : raw_value)
    (es : gmap string (list string)) :
  emits (dict_to_list_variable_check v es)
        (Ok match v with
            | RawDict d => forallb isinstance_list (map snd d)
            | _ => false
            end).
Proof.
  destruct v as [l|d|]; simpl; try apply emits_ret.
  destruct (forallb isinstance_list (map snd d)); [|apply emits_ret].
  eapply emits_bind; [|apply emits_ret].
  apply emits_for_each. intros [entity variables]. simpl.
  destruct (es !! entity) as [es_entity|]; [|apply emits_emit].
  destruct variables; try apply emits_ret.
  apply emits_for_each. intros x. apply emits_emit.
Qed.

Lemma get_primitive_options_lookup (k : string) :
  _get_primitive_options !! k
  = if bool_decide (k ∈ entity_option_keys) then Some list_entity_check
    else if bool_decide (k ∈ variable_option_keys)
         then Some dict_to_list_variable_check
         else None.
Proof.
  unfold _get_primitive_options, entity_option_keys, variable_option_keys.
  simpl.
  repeat (rewrite lookup_insert; case_decide; [subst k; reflexivity|]).
  rewrite lookup_empty.
  rewrite !bool_decide_eq_false_2; [done|..];
    rewrite !elem_of_cons, elem_of_nil; intuition congruence.
Qed.

Lemma check_emits (k : string) (v : raw_value) (es : gmap string (list string))
    check :
  _get_primitive_options !! k = Some check →
  ∃ b, shape_ok k v = Some b ∧ emits (check v es) (Ok b).
Proof.
  rewrite get_primitive_options_lookup. unfold shape_ok.
  destruct (bool_decide (k ∈ entity_option_keys)).
  - intros [= <-]. eexists. split; [done|]. apply list_entity_check_emits.
  - destruct (bool_decide (k ∈ variable_option_keys)); [|done].
    intros [= <-]. eexists. split; [done|].
    apply dict_to_list_variable_check_emits.
Qed.

Lemma shape_ok_unrecognized (k : string) (v : raw_value) :
  _get_primitive_options !! k = None ↔ shape_ok k v = None.
Proof.
  rewrite get_primitive_options_lookup. unfold shape_ok.
  destruct (bool_decide (k ∈ entity_option_keys)); [done|].
  by destruct (bool_decide (k ∈ variable_option_keys)).
Qed.

(** ** Normalisation: [_init_option_dict] *)

Lemma set_values_lists (d : list (string * raw_value)) (acc : gmap string (gset string)) :
  forallb isinstance_list (map snd d) = true → ∃ m, set_values d acc = Ok m.
Proof.
  revert acc. induction d as [|[k v] d IH]; intros acc Hd; simpl in *.
  - eauto.
  - apply andb_true_iff in Hd as [Hv Hd].
    destruct v; try done. simpl. by apply IH.
Qed.

Lemma shape_ok_dict (k : string) (d : list (string * raw_value)) :
  shape_ok k (RawDict d) = Some true → ∃ m, set_values d ∅ = Ok m.
Proof.
  unfold shape_ok. destruct (bool_decide (k ∈ entity_option_keys)); [done|].
  destruct (bool_decide (k ∈ variable_option_keys)); [|done].
  intros [= Hd]. by apply set_values_lists.
Qed.

Lemma init_option_dict_loop_emits (key : primitive_key)
    (es : gmap string (list string)) (d : raw_option_dict) (acc : option_record) :
  emits
    (for_fold d
       (λ (initialized_option_dict : option_record) item,
          match _get_primitive_options !! item.1 with
          | None => raise (UnrecognizedOption item.1 key)
          | Some check =>
              let* ok := check item.2 es in
              if negb ok then raise (IncorrectTypeFormatting item.1 key)
              else match item.2 with
                   | RawList l =>
                       ret (<[item.1 := OSet (list_to_set l)]> initialized_option_dict)
                   | RawDict d =>
                       let* m := lift (set_values d ∅) in
                       ret (<[item.1 := OMap m]> initialized_option_dict)
                   | RawOther => ret initialized_option_dict
                   end
          end) acc)
    match first_rejection key d with
    | Some e => Raise e
    | None => Ok (foldl store_option acc d)
    end.
Proof.
  revert acc. induction d as [|[k v] d IH]; intros acc; simpl.
  - apply emits_ret.
  - destruct (_get_primitive_options !! k) as [check|] eqn:Hk.
    + destruct (check_emits k v es check Hk) as (b & Hshape & Hcheck).
      rewrite Hshape. destruct b.
      * eapply emits_bind; [|apply IH].
        eapply emits_bind; [apply Hcheck|]. simpl.
        unfold store_option. simpl. destruct v as [l|dd|]; simpl.
        -- apply emits_ret.
        -- destruct (shape_ok_dict k dd Hshape) as [m Hm]. rewrite Hm.
           eapply emits_bind; [apply emits_lift|apply emits_ret].
        -- apply emits_ret.
      * apply emits_bind_raise.
        eapply emits_bind; [apply Hcheck|]. apply emits_raise.
    + apply (shape_ok_unrecognized k v) in Hk as ->.
      apply emits_bind_raise, emits_raise.
Qed.

(** [_init_option_dict] returns, or raises, what [normal_form] says, and
    leaves the store alone. *)
Lemma init_option_dict_emits (key : primitive_key) (d : raw_option_dict)
    (es : gmap string (list string)) :
  emits (_init_option_dict key d es) (normal_form key d).
Proof.
  unfold _init_option_dict, normal_form.
  pose proof (init_option_dict_loop_emits key es d ∅) as Hloop.
  destruct (first_rejection key d) as [e|].
  - by apply emits_bind_raise.
  - eapply emits_bind; [apply Hloop|]. apply emits_ret.
Qed.

Lemma first_rejection_unrecognized (key : primitive_key) (d : raw_option_dict) :
  Exists (λ item, _get_primitive_options !! item.1 = None) d →
  ∃ k, first_rejection key d = Some (UnrecognizedOption k key)
       ∨ first_rejection key d = Some (IncorrectTypeFormatting k key).
Proof.
  induction 1 as [[k v] d Hk|[k v] d _ IH]; simpl in *.
  - apply (shape_ok_unrecognized k v) in Hk as ->. eauto.
  - destruct (shape_ok k v) as [[]|]; eauto.
Qed.

Lemma first_rejection_first_unrecognized (key : primitive_key)
    (d1 d2 : raw_option_dict) (k : string) (v : raw_value) :
  Forall (λ item, shape_ok item.1 item.2 = Some true) d1 →
  _get_primitive_options !! k = None →
  first_rejection key (d1 ++ (k, v) :: d2) = Some (UnrecognizedOption k key).
Proof.
  intros Hd1 Hk. induction Hd1 as [|[k' v'] d1 Hok _ IH]; simpl in *.
  - by apply (shape_ok_unrecognized k v) in Hk as ->.
  - by rewrite Hok.
Qed.

(** C7 as stated fails: when a key inserted before the unrecognised one
    holds an ill-shaped value, the exception is the [TypeError] for that
    key, not the [KeyError] for the unrecognised key. *)
Lemma init_option_dict_unrecognized_counterexample :
  let d := [("ignore_entities", RawOther); ("bogus_option", RawList [])] in
  let r := (_init_option_dict (PKName "sum") d ∅ (State [] [])).1 in
  Exists (λ item, _get_primitive_options !! item.1 = None) d ∧
  r = Raise (IncorrectTypeFormatting "ignore_entities" (PKName "sum")) ∧
  r ≠ Raise (UnrecognizedOption "bogus_option" (PKName "sum")).
Proof.
  intros d r.
  assert (r = Raise (IncorrectTypeFormatting "ignore_entities" (PKName "sum")))
    as Hr by (by vm_compute).
  split; [|split; [exact Hr|by rewrite Hr]].
  apply Exists_cons_tl, Exists_cons_hd. by vm_compute.
Qed.

Lemma first_rejection_first_ill_shaped (key : primitive_key)
    (d1 d2 : raw_option_dict) (k : string) (v : raw_value) :
  Forall (λ item, shape_ok item.1 item.2 = Some true) d1 →
  shape_ok k v = Some false →
  first_rejection key (d1 ++ (k, v) :: d2) = Some (IncorrectTypeFormatting k key).
Proof.
  intros Hd1 Hk. induction Hd1 as [|[k' v'] d1 Hok _ IH]; simpl in *.
  - by rewrite Hk.
  - by rewrite Hok.
Qed.

(** A dict with an unrecognised key splits at the first key that is
    rejected. *)
Lemma first_rejected_key (d : raw_option_dict) :
  Exists (λ item, _get_primitive_options !! item.1 = None) d →
  ∃ d1 k v d2,
    d = d1 ++ (k, v) :: d2 ∧
    Forall (λ item, shape_ok item.1 item.2 = Some true) d1 ∧
    (shape_ok k v = None ∨ shape_ok k v = Some false).
Proof.
  induction 1 as [[k v] d Hk|[k v] d _ IH]; simpl in *.
  - exists [], k, v, d. split; [done|]. split; [constructor|].
    left. by apply shape_ok_unrecognized.
  - destruct (shape_ok k v) as [[]|] eqn:Hs.
    + destruct IH as (d1 & k' & v' & d2 & -> & Hd1 & Hk').
      exists ((k, v) :: d1), k', v', d2. split; [done|].
      split; [by constructor|done].
    + exists [], k, v, d. split; [done|]. split; [constructor|by right].
    + exists [], k, v, d. split; [done|]. split; [constructor|by left].
Qed.

(** C7, amended: a raw option dict with an unrecognised key is never
    normalised.  The dict has a first key, in insertion order, that is
    rejected: every key before it is recognised and well-shaped, and it is
    either unrecognised, and then [_init_option_dict] raises
    [UnrecognizedOption] for it, or recognised with an ill-shaped value,
    and then [_init_option_dict] raises [IncorrectTypeFormatting] for it.
    Conversely, whichever key comes after well-shaped keys only and is
    unrecognised, or ill-shaped, is the key of the exception. *)
Theorem init_option_dict_unrecognized (key : primitive_key)
    (d : raw_option_dict) (es : gmap string (list string)) (st : state) :
  Exists (λ item, _get_primitive_options !! item.1 = None) d →
  (∃ d1 k v d2,
     d = d1 ++ (k, v) :: d2 ∧
     Forall (λ item, shape_ok item.1 item.2 = Some true) d1 ∧
     ((_get_primitive_options !! k = None ∧
       (_init_option_dict key d es st).1 = Raise (UnrecognizedOption k key))
      ∨ (shape_ok k v = Some false ∧
         (_init_option_dict key d es st).1
         = Raise (IncorrectTypeFormatting k key))))
  ∧ (∀ d1 k v d2,
       d = d1 ++ (k, v) :: d2 →
       Forall (λ item, shape_ok item.1 item.2 = Some true) d1 →
       (_get_primitive_options !! k = None →
        (_init_option_dict key d es st).1 = Raise (UnrecognizedOption k key))
       ∧ (shape_ok k v = Some false →
          (_init_option_dict key d es st).1
          = Raise (IncorrectTypeFormatting k key))).
Proof.
  intros Hex.
  rewrite (emits_result _ _ st (init_option_dict_emits key d es)).
  unfold normal_form. split.
  - destruct (first_rejected_key d Hex) as (d1 & k & v & d2 & -> & Hd1 & Hk).
    exists d1, k, v, d2. split; [done|]. split; [done|].
    destruct Hk as [Hk|Hk].
    + left. apply shape_ok_unrecognized in Hk. split; [done|].
      by rewrite (first_rejection_first_unrecognized key d1 d2 k v Hd1 Hk).
    + right. split; [done|].
      by rewrite (first_rejection_first_ill_shaped key d1 d2 k v Hd1 Hk).
  - intros d1 k v d2 -> Hd1. split; intros Hk.
    + by rewrite (first_rejection_first_unrecognized key d1 d2 k v Hd1 Hk).
    + by rewrite (first_rejection_first_ill_shaped key d1 d2 k v Hd1 Hk).
Qed.

(** An unrecognised key after a well-shaped one, and after an ill-shaped
    one. *)
Lemma init_option_dict_unrecognized_witness :
  let d := [("ignore_entities", RawList ["customers"]); ("bogus_option", RawList [])] in
  let d' := [("ignore_entities", RawOther); ("bogus_option", RawList [])] in
  Exists (λ item, _get_primitive_options !! item.1 = None) d ∧
  (_init_option_dict (PKName "sum") d ∅ (State [] [])).1
  = Raise (UnrecognizedOption "bogus_option" (PKName "sum")) ∧
  (_init_option_dict (PKName "sum") d' ∅ (State [] [])).1
  = Raise (IncorrectTypeFormatting "ignore_entities" (PKName "sum")).
Proof.
  intros d d'.
  assert (Exists (λ item, _get_primitive_options !! item.1 = None) d) as Hex
    by (apply Exists_cons_tl, Exists_cons_hd; by vm_compute).
  assert (Exists (λ item, _get_primitive_options !! item.1 = None) d') as Hex'
    by (apply Exists_cons_tl, Exists_cons_hd; by vm_compute).
  split; [exact Hex|].
  destruct (init_option_dict_unrecognized (PKName "sum") d ∅ (State [] []) Hex)
    as [_ Hfirst].
  destruct (init_option_dict_unrecognized (PKName "sum") d' ∅ (State [] []) Hex')
    as [_ Hfirst'].
  split.
  - apply (Hfirst [("ignore_entities", RawList ["customers"])] "bogus_option"
             (RawList []) []); [done| |by vm_compute].
    repeat constructor.
  - apply (Hfirst' [] "ignore_entities" RawOther [("bogus_option", RawList [])]);
      [done|constructor|by vm_compute].
Defined.

(** *** Equal raw dicts have the same normal form *)

Lemma set_values_perm (d1 d2 : list (string * raw_value)) :
  d1 ≡ₚ d2 → NoDup d1.*1 → ∀ acc, set_values d1 acc = set_values d2 acc.
Proof.
  induction 1 as [|[k v] d1 d2 Hp IH|[k1 v1] [k2 v2] d|d1 d2 d3 H12 IH12 H23 IH23];
    intros Hnd acc; simpl in *.
  - done.
  - apply NoDup_cons in Hnd as [_ Hnd].
    destruct (raw_set v); simpl; [by apply IH|done].
  - apply NoDup_cons in Hnd as [Hne _].
    assert (k2 ≠ k1) as Hk by (intros ->; apply Hne; left).
    destruct v1, v2; simpl; try done; by rewrite insert_insert_ne.
  - rewrite IH12 by done. apply IH23.
    by rewrite <-H12.
Qed.

Lemma convert_eq (v1 v2 : raw_value) :
  raw_value_eq v1 v2 → convert v1 = convert v2.
Proof.
  destruct v1 as [l1|d1|], v2 as [l2|d2|]; simpl; try done.
  - by intros ->.
  - intros [Hnd Hp]. by rewrite (set_values_perm d1 d2 Hp Hnd).
Qed.

Lemma forallb_perm {A} (f : A → bool) (l1 l2 : list A) :
  l1 ≡ₚ l2 → forallb f l1 = forallb f l2.
Proof.
  induction 1 as [|x l1 l2 _ IH|x y l|l1 l2 l3 _ IH12 _ IH23]; simpl.
  - done.
  - by rewrite IH.
  - by destruct (f x), (f y).
  - by rewrite IH12.
Qed.

Lemma shape_ok_eq (k : string) (v1 v2 : raw_value) :
  raw_value_eq v1 v2 → shape_ok k v1 = shape_ok k v2.
Proof.
  unfold shape_ok.
  destruct v1 as [l1|d1|], v2 as [l2|d2|]; simpl; try done.
  intros [_ Hp]. by rewrite (forallb_perm _ (map snd d1) (map snd d2))
    by (by apply fmap_Permutation).
Qed.

Lemma first_rejection_None (key : primitive_key) (d : raw_option_dict) :
  first_rejection key d = None
  ↔ Forall (λ item, shape_ok item.1 item.2 = Some true) d.
Proof.
  induction d as [|[k v] d IH]; simpl.
  - split; [constructor|done].
  - rewrite Forall_cons. simpl. destruct (shape_ok k v) as [[]|].
    + rewrite IH. tauto.
    + split; [done|]. by intros [? _].
    + split; [done|]. by intros [? _].
Qed.

Lemma foldl_store_option_perm (d1 d2 : raw_option_dict) :
  d1 ≡ₚ d2 → NoDup d1.*1 →
  ∀ acc, foldl store_option acc d1 = foldl store_option acc d2.
Proof.
  induction 1 as [|[k v] d1 d2 Hp IH|[k1 v1] [k2 v2] d|d1 d2 d3 H12 IH12 H23 IH23];
    intros Hnd acc; simpl in *.
  - done.
  - apply NoDup_cons in Hnd as [_ Hnd]. by apply IH.
  - apply NoDup_cons in Hnd as [Hne _].
    assert (k2 ≠ k1) as Hk by (intros ->; apply Hne; left).
    f_equal. unfold store_option. simpl.
    destruct (convert v1), (convert v2); try done.
    by rewrite insert_insert_ne.
  - rewrite IH12 by done. apply IH23. by rewrite <-H12.
Qed.

Lemma foldl_store_option_eq (d1 d2 : raw_option_dict) :
  Forall2 raw_item_eq d1 d2 →
  ∀ acc, foldl store_option acc d1 = foldl store_option acc d2.
Proof.
  induction 1 as [|[k1 v1] [k2 v2] d1 d2 [Hk Hv] _ IH]; intros acc; simpl in *.
  - done.
  - subst k2. unfold store_option at 2 4. simpl.
    rewrite (convert_eq v1 v2 Hv). apply IH.
Qed.

Lemma normal_form_eq (key : primitive_key) (d1 d2 : raw_option_dict)
    (r : option_record) :
  raw_option_dict_eq d1 d2 →
  normal_form key d1 = Ok r → normal_form key d2 = Ok r.
Proof.
  intros (Hnd & d & Hp & Heq). unfold normal_form.
  destruct (first_rejection key d1) eqn:H1; [done|].
  apply first_rejection_None in H1. rewrite Hp in H1.
  assert (first_rejection key d2 = None) as ->.
  { apply first_rejection_None. clear Hp.
    induction Heq as [|[k1 v1] [k2 v2] d d2 [Hk Hv] _ IH]; [constructor|].
    apply Forall_cons in H1 as [Hx H1]. simpl in *. subst k2.
    constructor; [|by apply IH]. simpl. by rewrite <-(shape_ok_eq k1 v1 v2). }
  intros [= <-]. f_equal. f_equal.
  rewrite (foldl_store_option_perm d1 d Hp Hnd).
  symmetry. by apply foldl_store_option_eq.
Qed.

(** C9: when [_init_option_dict] normalises a raw option dict, normalising
    it again, from whatever state, and normalising any raw dict equal to it
    give the same record. *)
Theorem init_option_dict_idempotent (key : primitive_key)
    (d : raw_option_dict) (es : gmap string (list string))
    (st : state) (r : option_record) :
  (_init_option_dict key d es st).1 = Ok r →
  (∀ st', (_init_option_dict key d es st').1 = Ok r) ∧
  (∀ d' st', raw_option_dict_eq d d' →
             (_init_option_dict key d' es st').1 = Ok r).
Proof.
  rewrite (emits_result _ _ st (init_option_dict_emits key d es)).
  intros Hr. split.
  - intros st'. by rewrite (emits_result _ _ st' (init_option_dict_emits key d es)).
  - intros d' st' Heq.
    rewrite (emits_result _ _ st' (init_option_dict_emits key d' es)).
    by apply (normal_form_eq key d d').
Qed.

Lemma init_option_dict_idempotent_witness :
  let d := [("ignore_entities", RawList ["customers"]);
            ("include_variables",
             RawDict [("transactions", RawList ["amount"; "id"]);
                      ("sessions", RawList ["device"])])] in
  let d' := [("include_variables",
              RawDict [("sessions", RawList ["device"]);
                       ("transactions", RawList ["amount"; "id"])]);
             ("ignore_entities", RawList ["customers"])] in
  let r : option_record :=
    {[ "ignore_entities" := OSet {[ "customers" ]};
       "ignore_variables" := OMap ∅;
       "include_variables" :=
         OMap {[ "transactions" := {[ "amount"; "id" ]};
                 "sessions" := {[ "device" ]} ]} ]} in
  (_init_option_dict (PKName "sum") d ∅ (State [] [])).1 = Ok r ∧
  raw_option_dict_eq d d' ∧
  (_init_option_dict (PKName "sum") d' ∅ (State [ObjSet ∅] [])).1 = Ok r.
Proof.
  intros d d' r.
  assert ((_init_option_dict (PKName "sum") d ∅ (State [] [])).1 = Ok r) as Hr
    by (vm_compute; reflexivity).
  assert (raw_option_dict_eq d d') as Heq.
  { split; [by_compute|].
    exists [("include_variables",
             RawDict [("transactions", RawList ["amount"; "id"]);
                      ("sessions", RawList ["device"])]);
            ("ignore_entities", RawList ["customers"])].
    split; [apply perm_swap|].
    constructor; [|constructor; [|constructor]].
    - split; [done|]. split; [by_compute|apply perm_swap].
    - by split. }
  split; [exact Hr|]. split; [exact Heq|].
  destruct (init_option_dict_idempotent (PKName "sum") d ∅ (State [] []) r Hr)
    as [_ H].
  exact (H d' (State [ObjSet ∅] []) Heq).
Defined.

(** ** The table: [_init_primitive_options] *)

Section Table.

Variable get_aggregation_primitives get_transform_primitives
  : gmap string primitive.

Abbreviation init_primitive_options :=
  (_init_primitive_options get_aggregation_primitives get_transform_primitives).


End Table.



(** ** The object store *)

Lemma read_obj_run (l : loc) (o : obj) st :
  heap st !! l = Some o → read_obj l st = (Ok o, st).
Proof. intros H. unfold read_obj. by rewrite H. Qed.

Lemma as_set_run (l : loc) (s : gset string) st :
  is_set st l s → as_set l st = (Ok s, st).
Proof. intros H. unfold as_set, bind. by rewrite (read_obj_run l _ st H). Qed.

Lemma as_dict_run (l : loc) (d : gmap string loc) st :
  heap st !! l = Some (ObjDict d) → as_dict l st = (Ok d, st).
Proof. intros H. unfold as_dict, bind. by rewrite (read_obj_run l _ st H). Qed.

Lemma obj_getitem_run (l : loc) (d : gmap string loc) (k : string) (v : loc) st :
  heap st !! l = Some (ObjDict d) → d !! k = Some v →
  obj_getitem l k st = (Ok v, st).
Proof.
  intros H Hk. unfold obj_getitem, bind.
  rewrite (read_obj_run l _ st H). by rewrite Hk.
Qed.

Lemma obj_setitem_run (l : loc) (d : gmap string loc) (k : string) (v : loc) st :
  heap st !! l = Some (ObjDict d) →
  obj_setitem l k v st
  = (Ok (), State (<[l := ObjDict (<[k := v]> d)]> (heap st)) (out st)).
Proof.
  intros H. unfold obj_setitem, bind. by rewrite (read_obj_run l _ st H).
Qed.

(** *** How the store evolves *)

Lemma evolves_refl (W : gset loc) st : evolves W st st.
Proof. split; [done|]. by intros x o H _. Qed.

Lemma evolves_trans (W : gset loc) st1 st2 st3 :
  evolves W st1 st2 → evolves W st2 st3 → evolves W st1 st3.
Proof.
  intros [L12 H12] [L23 H23]. split; [lia|].
  intros x o Hx Ho. apply H23; [|done]. by apply H12.
Qed.

Lemma evolves_weaken (W W' : gset loc) st st' :
  W ⊆ W' → evolves W st st' → evolves W' st st'.
Proof.
  intros HW [L H]. split; [done|]. intros x o Hx Ho. apply H; [done|].
  destruct o; try done. set_solver.
Qed.

Lemma evolves_alloc (W : gset loc) (o : obj) st :
  evolves W st (State (heap st ++ [o]) (out st)).
Proof.
  split; [simpl; rewrite length_app; lia|].
  intros x o' Hx _. simpl. by apply lookup_app_l_Some.
Qed.

Lemma evolves_write (l : loc) (d d' : gmap string loc) st :
  heap st !! l = Some (ObjDict d) →
  evolves {[ l ]} st (State (<[l := ObjDict d']> (heap st)) (out st)).
Proof.
  intros Hl. split; [simpl; by rewrite length_insert|].
  intros x o Hx Ho. simpl.
  destruct (decide (x = l)) as [->|Hne].
  - rewrite Hl in Hx. injection Hx as <-. set_solver.
  - by rewrite list_lookup_insert_ne.
Qed.

Lemma evolves_emit (W : gset loc) (o : list output) st :
  evolves W st (State (heap st) o).
Proof. split; [done|]. by intros x o' Hx _. Qed.

(** *** Judgements are stable *)

Lemma is_set_evolves (W : gset loc) st st' x s :
  evolves W st st' → is_set st x s → is_set st' x s.
Proof. intros [_ H] Hx. by apply H. Qed.

Lemma is_vardict_evolves (W : gset loc) st st' x m :
  evolves W st st' → x ∉ W → is_vardict st x m → is_vardict st' x m.
Proof.
  intros Hev HxW (d & Hd & Hk). exists d. split.
  - destruct Hev as [_ H]. by apply H.
  - intros k. destruct (Hk k); constructor. by eapply is_set_evolves.
Qed.

Lemma is_vardict_functional st x m1 m2 :
  is_vardict st x m1 → is_vardict st x m2 → m1 = m2.
Proof.
  intros (d1 & Hd1 & H1) (d2 & Hd2 & H2). rewrite Hd1 in Hd2.
  injection Hd2 as <-. apply map_eq. intros k.
  specialize (H1 k). specialize (H2 k).
  destruct H1 as [y s1 Hs1|]; inversion H2 as [y' s2 Hs2|]; subst; [|done].
  unfold is_set in *. congruence.
Qed.

Lemma is_optval_evolves (lv : loc) (V : gmap string (gset string))
    (W D : gset loc) st st' x v :
  evolves W st st' → W ## D →
  is_vardict st lv V → is_vardict st' lv V →
  is_optval lv st D x v → is_optval lv st' D x v.
Proof.
  intros Hev HWD HV HV'. destruct v as [s|m]; simpl.
  - by apply (is_set_evolves W).
  - intros [[HxD| ->] Hm].
    + split; [by left|]. eapply is_vardict_evolves; [done| |done]. set_solver.
    + split; [by right|]. by rewrite (is_vardict_functional st lv m V).
Qed.

Lemma is_record_evolves (lv : loc) (V : gmap string (gset string))
    (W D : gset loc) st st' r rec :
  evolves W st st' → W ## D →
  is_vardict st lv V → is_vardict st' lv V →
  is_record lv st D r rec → is_record lv st' D r rec.
Proof.
  intros Hev HWD HV HV' (HrD & Hrlv & d & Hd & Hk & Hself & Hinj).
  split; [done|]. split; [done|]. exists d. split; [|split; [|split]].
  - destruct Hev as [_ H]. apply H; [done|]. set_solver.
  - intros k. destruct (Hk k); constructor.
    by eapply is_optval_evolves.
  - done.
  - intros k1 k2 x Hne H1 H2. destruct (Hinj k1 k2 x Hne H1 H2) as [s Hs].
    exists s. by eapply is_set_evolves.
Qed.

Lemma option_Forall2_Some_l {A B} (R : A → B → Prop) (x : A) (o : option B) :
  option_Forall2 R (Some x) o → ∃ y, o = Some y ∧ R x y.
Proof. inversion 1; eauto. Qed.

Lemma option_Forall2_None_l {A B} (R : A → B → Prop) (o : option B) :
  option_Forall2 R None o → o = None.
Proof. by inversion 1. Qed.

Lemma option_Forall2_Some_r {A B} (R : A → B → Prop) (o : option A) (y : B) :
  option_Forall2 R o (Some y) → ∃ x, o = Some x ∧ R x y.
Proof. inversion 1; eauto. Qed.

Lemma is_optval_evolves_at (lv : loc) (W D : gset loc) st st' x v :
  evolves W st st' → x ∉ W →
  is_optval lv st D x v → is_optval lv st' D x v.
Proof.
  intros Hev HxW. destruct v as [s|m]; simpl.
  - by apply (is_set_evolves W).
  - intros [HD Hm]. split; [done|]. by eapply is_vardict_evolves.
Qed.

Lemma is_vardict_dom st x m d :
  is_vardict st x m → heap st !! x = Some (ObjDict d) → dom d = dom m.
Proof.
  intros (d' & Hd' & Hk) Hd. rewrite Hd in Hd'. injection Hd' as <-.
  apply set_eq. intros k. rewrite !elem_of_dom.
  destruct (Hk k) as [y s _|]; split; intros [? ?]; try done; eauto.
Qed.

Lemma is_vardict_lookup st x m d k :
  is_vardict st x m → heap st !! x = Some (ObjDict d) →
  option_Forall2 (is_set st) (d !! k) (m !! k).
Proof.
  intros (d' & Hd' & Hk) Hd. rewrite Hd in Hd'. by injection Hd' as <-.
Qed.

(** ** Reconciliation *)

Lemma normalized_shape (rec : option_record) (k : string) (v : optval) :
  normalized rec → rec !! k = Some v → well_shaped k v = true.
Proof. intros (_ & _ & Hall) Hk. by apply (Hall k v). Qed.

Section Reconcile.

Variable lv : loc.

Lemma included_of_option_run st D r rec :
  is_record lv st D r rec → normalized rec →
  included_of_option r st = (Ok (included_of_record rec), st).
Proof.
  intros (_ & _ & d & Hd & Hk & _) Hnorm.
  unfold included_of_option, included_of_record.
  rewrite (bind_run_ok _ _ st d st (as_dict_run r d st Hd)).
  assert (∃ a : gset string,
    a = match rec !! "include_entities" with Some (OSet s) => s | _ => ∅ end ∧
    match d !! "include_entities" with
    | Some l => let* o := read_obj l in
                if truthy o then lift (iter_ids o) else ret ∅
    | None => ret ∅
    end st = (Ok a, st)) as (a & -> & Ha).
  { eexists. split; [done|].
    pose proof (Hk "include_entities") as Hie.
    destruct (d !! "include_entities") as [x|].
    2:{ by rewrite (option_Forall2_None_l _ _ Hie). }
    apply option_Forall2_Some_l in Hie as (v & Hrec & Hv). rewrite Hrec.
    pose proof (normalized_shape rec _ v Hnorm Hrec) as Hs.
    destruct v as [s|m]; [|by vm_compute in Hs].
    simpl in Hv. rewrite (bind_run_ok _ _ st _ st (read_obj_run x _ st Hv)).
    simpl. case_bool_decide as He; simpl; [by subst s|done]. }
  rewrite (bind_run_ok _ _ st _ st Ha).
  assert (∃ b : gset string,
    b = match rec !! "include_variables" with Some (OMap m) => dom m | _ => ∅ end ∧
    match d !! "include_variables" with
    | Some l => let* o := read_obj l in
                if truthy o then lift (obj_keys o) else ret ∅
    | None => ret ∅
    end st = (Ok b, st)) as (b & -> & Hb).
  { eexists. split; [done|].
    pose proof (Hk "include_variables") as Hiv.
    destruct (d !! "include_variables") as [x|].
    2:{ by rewrite (option_Forall2_None_l _ _ Hiv). }
    apply option_Forall2_Some_l in Hiv as (v & Hrec & Hv). rewrite Hrec.
    pose proof (normalized_shape rec _ v Hnorm Hrec) as Hs.
    destruct v as [s|m]; [by vm_compute in Hs|].
    destruct Hv as [_ Hm]. pose proof Hm as (dm & Hdm & _).
    rewrite (bind_run_ok _ _ st _ st (read_obj_run x _ st Hdm)).
    pose proof (is_vardict_dom st x m dm Hm Hdm) as Hdom.
    simpl. case_bool_decide as He; simpl.
    - subst dm. rewrite dom_empty_L in Hdom. by rewrite <-Hdom.
    - unfold lift. by rewrite Hdom. }
  by rewrite (bind_run_ok _ _ st _ st Hb).
Qed.

Lemma normalized_insert (rec : option_record) (k : string) (v : optval) :
  normalized rec → well_shaped k v = true → normalized (<[k := v]> rec).
Proof.
  intros (Hie & Hiv & Hall) Hs. split; [|split].
  - destruct (decide (k = "ignore_entities")) as [->|Hne].
    + rewrite lookup_insert_eq. eauto.
    + by rewrite lookup_insert_ne.
  - destruct (decide (k = "ignore_variables")) as [->|Hne].
    + rewrite lookup_insert_eq. eauto.
    + by rewrite lookup_insert_ne.
  - by apply map_Forall_insert_2.
Qed.

(** A vardict whose entry [entity] is pointed at the set [z]. *)
Lemma is_vardict_insert st y dy m entity z s :
  heap st !! y = Some (ObjDict dy) → is_vardict st y m → is_set st z s →
  is_vardict (State (<[y := ObjDict (<[entity := z]> dy)]> (heap st)) (out st))
             y (<[entity := s]> m).
Proof.
  intros Hy Hm Hz.
  pose proof (evolves_write y dy (<[entity := z]> dy) st Hy) as Hev.
  exists (<[entity := z]> dy). split.
  - simpl. apply list_lookup_insert_eq. by eapply lookup_lt_Some.
  - intros k. destruct (decide (k = entity)) as [->|Hne].
    + rewrite !lookup_insert_eq. constructor. by apply (is_set_evolves {[y]} st).
    + rewrite !lookup_insert_ne by done.
      destruct (is_vardict_lookup st y m dy k Hm Hy); constructor.
      by apply (is_set_evolves {[y]} st).
Qed.

(** The record at [r] after its [ignore_variables] dict [y] has changed. *)
Lemma is_record_update_ignore_variables st st' D r rec d y m m' :
  is_record lv st D r rec →
  heap st !! r = Some (ObjDict d) →
  d !! "ignore_variables" = Some y →
  rec !! "ignore_variables" = Some (OMap m) →
  evolves {[ y ]} st st' → is_vardict st' y m' →
  is_record lv st' D r (<["ignore_variables" := OMap m']> rec).
Proof.
  intros (HrD & Hrlv & d' & Hd' & Hk & Hself & Hinj) Hd Hy Hrec Hev Hm'.
  rewrite Hd in Hd'. injection Hd' as <-.
  assert (is_optval lv st D y (OMap m)) as [HyD Hm].
  { pose proof (Hk "ignore_variables") as H. rewrite Hy, Hrec in H.
    by inversion H. }
  destruct Hm as (dy & Hdy & _).
  assert (∀ k x, k ≠ "ignore_variables" → d !! k = Some x → x ≠ y) as Hother.
  { intros k x Hne Hx ->.
    destruct (Hinj k "ignore_variables" y Hne Hx Hy) as [s Hs].
    unfold is_set in Hs. congruence. }
  split; [done|]. split; [done|]. exists d. split; [|split; [|split]].
  - destruct Hev as [_ H]. apply H; [done|].
    intros ->%elem_of_singleton. by apply (Hself "ignore_variables").
  - intros k. destruct (decide (k = "ignore_variables")) as [->|Hne].
    + rewrite Hy, lookup_insert_eq. constructor. by split.
    + rewrite lookup_insert_ne by done.
      pose proof (Hk k) as H. destruct (d !! k) as [x|] eqn:Hdk.
      * apply option_Forall2_Some_l in H as (v & -> & Hv). constructor.
        apply (is_optval_evolves_at lv {[y]} D st); [done| |done].
        intros ->%elem_of_singleton. by apply (Hother k y Hne).
      * rewrite (option_Forall2_None_l _ _ H). constructor.
  - done.
  - intros k1 k2 x Hne H1 H2. destruct (Hinj k1 k2 x Hne H1 H2) as [s Hs].
    exists s. by apply (is_set_evolves {[y]} st).
Qed.

Lemma add_global_ignore_entities_run le S inc st D r rec :
  is_record lv st D r rec → normalized rec → is_set st le S →
  ∃ st', add_global_ignore_entities le inc r st = (Ok (), st') ∧
         evolves {[ r ]} st st' ∧
         is_record lv st' D r (add_ignore_entities S inc rec) ∧
         normalized (add_ignore_entities S inc rec).
Proof.
  intros (HrD & Hrlv & d & Hd & Hk & Hself & Hinj) Hnorm Hle.
  destruct (normalized_ignore_entities rec Hnorm) as [s Hrec].
  assert (∃ cur, d !! "ignore_entities" = Some cur ∧ is_set st cur s)
    as (cur & Hcur & Hs).
  { pose proof (Hk "ignore_entities") as H. rewrite Hrec in H.
    apply option_Forall2_Some_r in H as (cur & ? & ?). eauto. }
  unfold add_global_ignore_entities, add_ignore_entities. rewrite Hrec.
  rewrite (bind_run_ok _ _ st _ st (obj_getitem_run r d _ cur st Hd Hcur)).
  rewrite (bind_run_ok _ _ st _ st (as_set_run cur s st Hs)).
  rewrite (bind_run_ok _ _ st _ st (as_set_run le S st Hle)).
  set (new := ObjSet (s ∪ S ∖ inc)).
  set (st1 := State (heap st ++ [new]) (out st)).
  rewrite (bind_run_ok _ _ st (length (heap st)) st1) by done.
  assert (heap st1 !! r = Some (ObjDict d)) as Hd1
    by (by apply lookup_app_l_Some).
  rewrite (obj_setitem_run r d _ _ st1 Hd1).
  set (d' := <["ignore_entities" := length (heap st)]> d).
  set (st' := State _ _).
  assert (r < length (heap st)) as Hr by (by eapply lookup_lt_Some).
  assert (evolves {[ r ]} st st') as Hev.
  { apply (evolves_trans _ st st1); [apply evolves_alloc|].
    by apply (evolves_write r d). }
  assert (is_set st' (length (heap st)) (s ∪ S ∖ inc)) as Hnew.
  { unfold is_set, st'. simpl. rewrite list_lookup_insert_ne by lia.
    by apply list_lookup_middle. }
  exists st'. split; [done|]. split; [done|]. split.
  - split; [done|]. split; [done|]. exists d'. split; [|split; [|split]].
    + unfold st'. simpl. apply list_lookup_insert_eq.
      rewrite length_app. simpl. lia.
    + intros k. unfold d'.
      destruct (decide (k = "ignore_entities")) as [->|Hne].
      * rewrite !lookup_insert_eq. by constructor.
      * rewrite !lookup_insert_ne by done.
        pose proof (Hk k) as H. destruct (d !! k) as [x|] eqn:Hdk.
        -- apply option_Forall2_Some_l in H as (v & -> & Hv). constructor.
           apply (is_optval_evolves_at lv {[r]} D st); [done| |done].
           intros ->%elem_of_singleton. by apply (Hself k).
        -- rewrite (option_Forall2_None_l _ _ H). constructor.
    + intros k. unfold d'.
      destruct (decide (k = "ignore_entities")) as [->|Hne].
      * rewrite lookup_insert_eq. intros [=]. lia.
      * rewrite lookup_insert_ne by done. apply Hself.
    + intros k1 k2 x Hne. unfold d'.
      destruct (decide (k1 = "ignore_entities")) as [->|Hne1].
      { rewrite lookup_insert_eq. intros [= <-] _. eauto. }
      destruct (decide (k2 = "ignore_entities")) as [->|Hne2].
      { rewrite lookup_insert_eq. intros _ [= <-]. eauto. }
      rewrite !lookup_insert_ne by done. intros H1 H2.
      destruct (Hinj k1 k2 x Hne H1 H2) as [s' Hs']. exists s'.
      by apply (is_set_evolves {[r]} st).
  - by apply normalized_insert.
Qed.

Lemma add_ignore_variables_normalized inc entity g rec :
  normalized rec → normalized (add_ignore_variables inc entity g rec).
Proof.
  intros Hnorm. unfold add_ignore_variables.
  destruct (rec !! "ignore_variables") as [[s|m]|]; try done.
  destruct (m !! entity); [by apply normalized_insert|].
  case_bool_decide; [done|]. by apply normalized_insert.
Qed.

Lemma add_global_ignore_variables_run V inc entity x g st D r rec :
  is_record lv st D r rec → normalized rec →
  is_vardict st lv V → lv ∉ D →
  is_set st x g → V !! entity = Some g →
  ∃ st', add_global_ignore_variables inc entity x r st = (Ok (), st') ∧
         evolves (D ∪ {[ lv ]}) st st' ∧
         is_vardict st' lv V ∧
         is_record lv st' D r (add_ignore_variables inc entity g rec).
Proof.
  intros Hrecord Hnorm HV HlvD Hx HVe.
  pose proof Hrecord as (HrD & Hrlv & d & Hd & Hk & Hself & Hinj).
  destruct (normalized_ignore_variables rec Hnorm) as [m Hrec].
  assert (∃ y, d !! "ignore_variables" = Some y ∧ is_optval lv st D y (OMap m))
    as (y & Hy & HyD & Hm).
  { pose proof (Hk "ignore_variables") as H. rewrite Hrec in H.
    apply option_Forall2_Some_r in H as (y & ? & ?). eauto. }
  pose proof Hm as (dy & Hdy & _).
  assert (y ∈ D ∪ {[ lv ]}) as HyW by set_solver.
  unfold add_global_ignore_variables, add_ignore_variables. rewrite Hrec.
  rewrite (bind_run_ok _ _ st _ st (obj_getitem_run r d _ y st Hd Hy)).
  rewrite (bind_run_ok _ _ st _ st (read_obj_run y _ st Hdy)).
  unfold obj_contains.
  pose proof (is_vardict_lookup st y m dy entity Hm Hdy) as He.
  destruct (dy !! entity) as [cur|] eqn:Hcur.
  - apply option_Forall2_Some_l in He as (s & Hme & Hs). rewrite Hme.
    rewrite (bool_decide_eq_true_2 (is_Some (Some cur))) by eauto.
    rewrite (bind_run_ok _ _ st _ st (obj_getitem_run y dy _ cur st Hdy Hcur)).
    rewrite (bind_run_ok _ _ st _ st (as_set_run cur s st Hs)).
    rewrite (bind_run_ok _ _ st _ st (read_obj_run x _ st Hx)).
    rewrite (bind_run_ok _ _ st g st) by done.
    set (st1 := State (heap st ++ [ObjSet (s ∪ g)]) (out st)).
    rewrite (bind_run_ok _ _ st (length (heap st)) st1) by done.
    assert (evolves {[ y ]} st st1) as Hev1 by apply evolves_alloc.
    assert (heap st1 !! y = Some (ObjDict dy)) as Hdy1
      by (by apply lookup_app_l_Some).
    assert (is_set st1 (length (heap st)) (s ∪ g)) as Hnew
      by (by apply list_lookup_middle).
    rewrite (obj_setitem_run y dy _ _ st1 Hdy1).
    set (st' := State _ _).
    assert (is_vardict st' y (<[entity := s ∪ g]> m)) as Hm'.
    { apply is_vardict_insert; [done| |done].
      apply (is_vardict_evolves ∅ st); [apply evolves_alloc|set_solver|done]. }
    assert (evolves {[ y ]} st st') as Hev.
    { apply (evolves_trans _ st st1); [done|]. by apply (evolves_write y dy). }
    exists st'. split; [done|]. split; [|split].
    + apply (evolves_weaken {[ y ]}); [set_solver|done].
    + destruct (decide (y = lv)) as [->|Hne].
      * pose proof (is_vardict_functional st lv m V Hm HV) as ->.
        assert (s = g) as -> by congruence.
        rewrite union_idemp_L in Hm'. by rewrite insert_id in Hm'.
      * apply (is_vardict_evolves {[ y ]} st); [done|set_solver|done].
    + by apply (is_record_update_ignore_variables st st' D r rec d y m).
  - rewrite (option_Forall2_None_l _ _ He).
    rewrite (bool_decide_eq_false_2 (is_Some None)) by (by intros [? ?]).
    case_bool_decide as Hinc.
    + exists st. split; [done|]. split; [apply evolves_refl|]. by split.
    + assert (y ≠ lv) as Hne.
      { intros ->. pose proof (is_vardict_functional st lv m V Hm HV) as ->.
        rewrite HVe in He. by inversion He. }
      rewrite (obj_setitem_run y dy _ _ st Hdy).
      set (st' := State _ _).
      assert (evolves {[ y ]} st st') as Hev by (by apply (evolves_write y dy)).
      exists st'. split; [done|]. split; [|split].
      * apply (evolves_weaken {[ y ]}); [set_solver|done].
      * apply (is_vardict_evolves {[ y ]} st); [done|set_solver|done].
      * apply (is_record_update_ignore_variables st st' D r rec d y m);
          try done.
        by apply is_vardict_insert.
Qed.

(** *** Loops over the records of a primitive *)

Lemma disjoint_union_list (D : gset loc) (Ds : list (gset loc)) :
  Forall (λ D', D ## D') Ds → D ## ⋃ Ds.
Proof.
  induction 1 as [|D' Ds HD _ IH]; simpl.
  - apply disjoint_empty_r.
  - by apply disjoint_union_r.
Qed.

Lemma record_ok_evolves V (W : gset loc) st st' rd rec :
  evolves W st st' → W ## rd.2 →
  is_vardict st lv V → is_vardict st' lv V →
  record_ok lv st rd rec → record_ok lv st' rd rec.
Proof.
  intros Hev HW HV HV' (Hrec & Hnorm & Hlv & Hbound).
  split; [|split; [done|split; [done|]]].
  - by apply (is_record_evolves lv V W _ st).
  - intros x Hx. destruct Hev as [Hlen _]. specialize (Hbound x Hx). lia.
Qed.

Lemma records_ok_evolves V (W : gset loc) st st' rds recs :
  evolves W st st' → Forall (λ rd, W ## rd.2) rds →
  is_vardict st lv V → is_vardict st' lv V →
  Forall2 (record_ok lv st) rds recs → Forall2 (record_ok lv st') rds recs.
Proof.
  intros Hev HW HV HV' Hall. induction Hall as [|rd rec rds recs Hrd _ IH].
  - constructor.
  - apply Forall_cons in HW as [HWrd HW]. constructor; [|by apply IH].
    by apply (record_ok_evolves V W st).
Qed.

Lemma records_ok_lv st rds recs :
  Forall2 (record_ok lv st) rds recs → Forall (λ rd, lv ∉ rd.2) rds.
Proof.
  induction 1 as [|rd rec rds recs (_ & _ & Hlv & _) _ IH]; by constructor.
Qed.

Lemma disjoint_from_records st (D : gset loc) rds recs :
  Forall (λ D', D ## D') (rds.*2) →
  Forall2 (record_ok lv st) rds recs →
  Forall (λ rd', D ∪ {[ lv ]} ## rd'.2) rds.
Proof.
  intros Hd Hall. induction Hall as [|rd rec rds recs Hrd _ IH]; simpl in *.
  - constructor.
  - apply Forall_cons in Hd as [Hd1 Hd]. constructor; [|by apply IH].
    destruct Hrd as (_ & _ & Hlv & _).
    apply disjoint_union_l. split; [done|]. by apply disjoint_singleton_l.
Qed.

Lemma for_each_records V (body : loc → M unit)
    (f : option_record → option_record) (P : state → Prop) :
  (∀ W st st', evolves W st st' → P st → P st') →
  (∀ st D r rec,
     P st → is_record lv st D r rec → normalized rec →
     is_vardict st lv V → lv ∉ D →
     ∃ st', body r st = (Ok (), st') ∧ evolves (D ∪ {[ lv ]}) st st' ∧
            is_vardict st' lv V ∧ is_record lv st' D r (f rec) ∧
            normalized (f rec)) →
  ∀ rds recs st,
    P st → is_vardict st lv V →
    Forall2 (record_ok lv st) rds recs → separated (rds.*2) →
    ∃ st', for_each (rds.*1) body st = (Ok (), st') ∧
           evolves (⋃ (rds.*2) ∪ {[ lv ]}) st st' ∧
           is_vardict st' lv V ∧ P st' ∧
           Forall2 (record_ok lv st') rds (f <$> recs).
Proof.
  intros HP Hbody rds.
  induction rds as [|rd rds' IH]; intros recs st HPst HV Hall Hsep.
  - apply Forall2_nil_inv_l in Hall as ->.
    exists st. split; [done|]. split; [apply evolves_refl|]. by repeat split.
  - apply Forall2_cons_inv_l in Hall as (rec & recs' & Hrd & Hall & ->).
    destruct Hsep as [Hdisj Hsep]. fold separated in Hsep.
    pose proof Hrd as (Hrec & Hnorm & Hlv & Hbound).
    destruct (Hbody st rd.2 rd.1 rec HPst Hrec Hnorm HV Hlv)
      as (st1 & Hrun & Hev1 & HV1 & Hrec1 & Hnorm1).
    pose proof (disjoint_from_records st rd.2 rds' recs' Hdisj Hall) as Hdisj'.
    pose proof (records_ok_evolves V _ st st1 rds' recs' Hev1 Hdisj' HV HV1 Hall)
      as Hall1.
    destruct (IH recs' st1 (HP _ _ _ Hev1 HPst) HV1 Hall1 Hsep)
      as (st' & Hrun' & Hev' & HV' & HP' & Hall').
    exists st'. split; [|split; [|split; [done|split; [done|]]]].
    + simpl. by rewrite (bind_run_ok _ _ st () st1 Hrun).
    + simpl. apply (evolves_trans _ st st1).
      * apply (evolves_weaken (rd.2 ∪ {[ lv ]})); [|done].
        apply union_mono_r, union_subseteq_l.
      * apply (evolves_weaken (⋃ (rds'.*2) ∪ {[ lv ]})); [|done].
        apply union_mono_r, union_subseteq_r.
    + simpl. constructor; [|done].
      apply (record_ok_evolves V (⋃ (rds'.*2) ∪ {[ lv ]}) st1); try done.
      * apply disjoint_union_l. split; [|by apply disjoint_singleton_l].
        symmetry. by apply disjoint_union_list.
      * split; [done|]. split; [done|]. split; [done|].
        intros x Hx. destruct Hev1 as [Hlen _]. specialize (Hbound x Hx). lia.
Qed.

Lemma for_list_included_of_option st rds recs :
  Forall2 (record_ok lv st) rds recs →
  for_list included_of_option (rds.*1) st
  = (Ok (included_of_record <$> recs), st).
Proof.
  induction 1 as [|rd rec rds recs (Hrec & Hnorm & _) _ IH]; simpl; [done|].
  rewrite (bind_run_ok _ _ st _ st (included_of_option_run st _ _ _ Hrec Hnorm)).
  by rewrite (bind_run_ok _ _ st _ st IH).
Qed.

Lemma vardict_keys st V d :
  is_vardict st lv V → heap st !! lv = Some (ObjDict d) →
  (map_to_list d).*1 = (map_to_list V).*1.
Proof.
  intros HV Hd.
  assert (V = (λ x, match heap st !! x with
                    | Some (ObjSet s) => s
                    | _ => ∅
                    end) <$> d) as ->.
  { apply map_eq. intros k. rewrite lookup_fmap.
    destruct (is_vardict_lookup st lv V d k HV Hd) as [x s Hs|]; simpl; [|done].
    unfold is_set in Hs. by rewrite Hs. }
  rewrite map_to_list_fmap, <-list_fmap_compose.
  apply list_fmap_ext. by intros i [k x] _.
Qed.

(** The loop over the items of the global [ignore_variables]. *)
Lemma for_each_ignore_variables V inc rds :
  separated (rds.*2) →
  ∀ (its : list (string * gset string)) recs st,
    Forall (λ it, V !! it.1 = Some it.2) its →
    is_vardict st lv V →
    Forall2 (record_ok lv st) rds recs →
    ∃ st',
      for_each (its.*1) (λ entity,
        let* d := as_dict lv in
        match d !! entity with
        | None => raise RuntimeError
        | Some ignore_vars =>
            for_each (rds.*1)
              (add_global_ignore_variables inc entity ignore_vars)
        end) st = (Ok (), st') ∧
      evolves (⋃ (rds.*2) ∪ {[ lv ]}) st st' ∧
      is_vardict st' lv V ∧
      Forall2 (record_ok lv st') rds
        (foldl (λ recs it, add_ignore_variables inc it.1 it.2 <$> recs) recs its).
Proof.
  intros Hsep its. induction its as [|[entity g] its IH];
    intros recs st Hits HV Hall; simpl.
  - exists st. split; [done|]. split; [apply evolves_refl|]. by split.
  - apply Forall_cons in Hits as [Hit Hits]. simpl in Hit.
    pose proof HV as (d & Hd & Hdk).
    pose proof (Hdk entity) as He. rewrite Hit in He.
    apply option_Forall2_Some_r in He as (x & Hx & Hg).
    destruct (for_each_records V
                (add_global_ignore_variables inc entity x)
                (add_ignore_variables inc entity g)
                (λ st, is_set st x g)) with (rds := rds) (recs := recs) (st := st)
      as (st1 & Hrun1 & Hev1 & HV1 & _ & Hall1); try done.
    { intros W s1 s2 Hev. by apply (is_set_evolves W). }
    { intros s1 D r rec Hs1 Hrec Hnorm HVs1 Hlv.
      destruct (add_global_ignore_variables_run V inc entity x g s1 D r rec)
        as (s2 & ? & ? & ? & ?); try done.
      exists s2. split; [done|]. split; [done|]. split; [done|].
      split; [done|]. by apply add_ignore_variables_normalized. }
    destruct (IH _ st1 Hits HV1 Hall1) as (st' & Hrun' & Hev' & HV' & Hall').
    exists st'. split; [|split; [|by split]].
    + erewrite bind_run_ok; [exact Hrun'|].
      rewrite (bind_run_ok _ _ st d st (as_dict_run lv d st Hd)).
      by rewrite Hx.
    + by apply (evolves_trans _ st st1).
Qed.

(** The branch for a primitive with options of its own: it returns, the
    records of the primitive become [reconcile_records], the new
    [global_ignore_entities] loses the included entities, and nothing
    outside the records' footprints and the caller's [ignore_variables]
    changes. *)
Lemma reconcile_run le S V res R st L rds recs :
  is_set st le S → is_set st res R → is_vardict st lv V →
  heap st !! L = Some (ObjList (rds.*1)) →
  Forall2 (record_ok lv st) rds recs → separated (rds.*2) →
  ∃ st' res',
    reconcile le lv res L st = (Ok res', st') ∧
    evolves (⋃ (rds.*2) ∪ {[ lv ]}) st st' ∧
    is_vardict st' lv V ∧
    is_set st' res' (R ∖ included_of_records recs) ∧
    Forall2 (record_ok lv st') rds (reconcile_records S V recs).
Proof.
  intros Hle Hres HV HL Hall Hsep. unfold reconcile.
  rewrite (bind_run_ok _ _ st _ st (read_obj_run L _ st HL)).
  rewrite (bind_run_ok _ _ st (rds.*1) st) by done.
  rewrite (bind_run_ok _ _ st _ st (for_list_included_of_option st rds recs Hall)).
  fold (included_of_records recs). set (inc := included_of_records recs).
  rewrite (bind_run_ok _ _ st _ st (as_set_run res R st Hres)).
  set (st1 := State (heap st ++ [ObjSet (R ∖ inc)]) (out st)).
  rewrite (bind_run_ok _ _ st (length (heap st)) st1) by done.
  assert (evolves ∅ st st1) as Hev1 by apply evolves_alloc.
  assert (is_set st1 (length (heap st)) (R ∖ inc)) as Hres1
    by (by apply list_lookup_middle).
  assert (is_vardict st1 lv V) as HV1
    by (by apply (is_vardict_evolves ∅ st); [|set_solver|]).
  assert (Forall2 (record_ok lv st1) rds recs) as Hall1.
  { apply (records_ok_evolves V ∅ st); try done.
    apply Forall_true. intros rd. apply disjoint_empty_l. }
  destruct (for_each_records V
              (add_global_ignore_entities le inc)
              (add_ignore_entities S inc)
              (λ st, is_set st le S)) with (rds := rds) (recs := recs) (st := st1)
    as (st2 & Hrun2 & Hev2 & HV2 & _ & Hall2); try done.
  { intros W s1 s2 Hev. by apply (is_set_evolves W). }
  { intros s1 D r rec Hs1 Hrec Hnorm HVs1 Hlv.
    destruct (add_global_ignore_entities_run le S inc s1 D r rec)
      as (s2 & ? & Hev & ? & ?); try done.
    pose proof Hrec as (HrD & Hrlv & _).
    exists s2. split; [done|]. split; [|split; [|by split]].
    - apply (evolves_weaken {[ r ]}); [|done].
      apply singleton_subseteq_l, elem_of_union_l, HrD.
    - apply (is_vardict_evolves {[ r ]} s1); [done| |done].
      by intros ->%elem_of_singleton. }
  { by apply (is_set_evolves ∅ st). }
  rewrite (bind_run_ok _ _ st1 () st2 Hrun2).
  pose proof HV2 as (d & Hd & _).
  rewrite (bind_run_ok _ _ st2 d st2 (as_dict_run lv d st2 Hd)).
  destruct (for_each_ignore_variables V inc rds Hsep (map_to_list V)
              (add_ignore_entities S inc <$> recs) st2)
    as (st3 & Hrun3 & Hev3 & HV3 & Hall3); try done.
  { apply Forall_forall. intros [k g] Hin. by apply elem_of_map_to_list. }
  assert (map fst (map_to_list d) = (map_to_list V).*1) as ->
    by apply (vardict_keys st2 V d HV2 Hd).
  rewrite (bind_run_ok _ _ st2 () st3 Hrun3).
  exists st3, (length (heap st)). split; [done|]. split; [|split; [done|split]].
  - apply (evolves_trans _ st st1).
    { apply (evolves_weaken ∅); [apply empty_subseteq|done]. }
    by apply (evolves_trans _ st1 st2).
  - apply (is_set_evolves _ st2 st3 _ _ Hev3).
    by apply (is_set_evolves _ st1 st2 _ _ Hev2).
  - done.
Qed.

End Reconcile.

(** ** The loop over [all_primitives] *)

Section Loop.

Variable lv : loc.

Lemma footprint_subseteq (rd : loc * gset loc) (rds : list (loc * gset loc)) :
  rd ∈ rds → rd.2 ⊆ ⋃ (rds.*2).
Proof.
  intros Hrd x Hx. apply elem_of_union_list. exists rd.2. split; [|done].
  apply list_elem_of_fmap. by exists rd.
Qed.

Lemma group_ok_evolves V (W : gset loc) st st' G recs :
  evolves W st st' → W ## ⋃ (G.2.*2) →
  is_vardict st lv V → is_vardict st' lv V →
  group_ok lv st G recs → group_ok lv st' G recs.
Proof.
  intros Hev HW HV HV' [HL Hall]. split.
  - destruct Hev as [_ H]. by apply H.
  - apply (records_ok_evolves lv V W st); try done.
    apply Forall_forall. intros rd Hrd.
    pose proof (footprint_subseteq rd G.2 Hrd) as Hsub.
    intros x HxW HxD. apply (HW x); [done|]. by apply Hsub.
Qed.

Lemma group_ok_bound st G recs :
  group_ok lv st G recs → ∀ x, x ∈ ⋃ (G.2.*2) → x < length (heap st).
Proof.
  intros [_ Hall] x (D & HD & Hx)%elem_of_union_list.
  apply list_elem_of_fmap in HD as (rd & -> & Hrd).
  apply list_elem_of_lookup in Hrd as [i Hi].
  destruct (Forall2_lookup_l _ _ _ _ _ Hall Hi) as (rec & _ & Hok).
  destruct Hok as (_ & _ & _ & Hbound). by apply Hbound.
Qed.

Lemma group_ok_lv st G recs :
  group_ok lv st G recs → lv ∉ ⋃ (G.2.*2).
Proof.
  intros [_ Hall] (D & HD & Hx)%elem_of_union_list.
  apply list_elem_of_fmap in HD as (rd & -> & Hrd).
  apply list_elem_of_lookup in Hrd as [i Hi].
  destruct (Forall2_lookup_l _ _ _ _ _ Hall Hi) as (rec & _ & Hok).
  by destruct Hok as (_ & _ & Hlv & _).
Qed.

Lemma default_record_normalized S V : normalized (default_record S V).
Proof.
  unfold default_record. split; [|split].
  - rewrite lookup_insert_ne by done. rewrite lookup_insert_eq. eauto.
  - rewrite lookup_insert_eq. eauto.
  - apply map_Forall_insert_2; [done|].
    apply map_Forall_insert_2; [done|]. apply map_Forall_empty.
Qed.

(** The record of a primitive without options refers to the caller's two
    objects themselves. *)
Lemma default_record_ok le S V st r :
  is_set st le S → is_vardict st lv V →
  heap st !! r = Some (ObjDict (<["ignore_variables" := lv]>
                                 (<["ignore_entities" := le]> ∅))) →
  le < r → lv < r →
  record_ok lv st (r, {[ r ]}) (default_record S V).
Proof.
  intros Hle HV Hr Hler Hlvr.
  split; [|split; [apply default_record_normalized|split]].
  - simpl. split; [by apply elem_of_singleton|]. split; [lia|].
    eexists. split; [exact Hr|]. split; [|split].
    + intros k. unfold default_record.
      destruct (decide (k = "ignore_variables")) as [->|Hn1].
      { rewrite !lookup_insert_eq. constructor. split; [by right|done]. }
      rewrite !(lookup_insert_ne _ "ignore_variables") by done.
      destruct (decide (k = "ignore_entities")) as [->|Hn2].
      { rewrite !lookup_insert_eq. by constructor. }
      rewrite !lookup_insert_ne by done. rewrite !lookup_empty. constructor.
    + intros k.
      destruct (decide (k = "ignore_variables")) as [->|Hn1].
      { rewrite lookup_insert_eq. intros [=]. lia. }
      rewrite lookup_insert_ne by done.
      destruct (decide (k = "ignore_entities")) as [->|Hn2].
      { rewrite lookup_insert_eq. intros [=]. lia. }
      by rewrite lookup_insert_ne.
    + intros k1 k2 x Hne H1 H2.
      assert (x = le ∨ x = lv) as [->| ->].
      { destruct (decide (k1 = "ignore_variables")) as [->|Hn1].
        - rewrite lookup_insert_eq in H1. injection H1 as <-. by right.
        - rewrite lookup_insert_ne in H1 by done.
          destruct (decide (k1 = "ignore_entities")) as [->|Hn2].
          + rewrite lookup_insert_eq in H1. injection H1 as <-. by left.
          + by rewrite lookup_insert_ne in H1. }
      * eauto.
      * (* both keys hold lv: then one of them is ignore_entities *)
        exfalso.
        assert (le = lv) as Heq.
        { destruct (decide (k1 = "ignore_entities")) as [->|Hn1].
          - rewrite lookup_insert_ne, lookup_insert_eq in H1 by done. congruence.
          - destruct (decide (k2 = "ignore_entities")) as [->|Hn2].
            + rewrite lookup_insert_ne, lookup_insert_eq in H2 by done. congruence.
            + destruct (decide (k1 = "ignore_variables")) as [->|Hn3];
              destruct (decide (k2 = "ignore_variables")) as [->|Hn4]; try done.
              * by rewrite !lookup_insert_ne in H2.
              * by rewrite !lookup_insert_ne in H1.
              * by rewrite !lookup_insert_ne in H1. }
        subst le. destruct HV as (d & Hd & _). unfold is_set in Hle. congruence.
  - simpl. intros ->%elem_of_singleton. lia.
  - simpl. intros x ->%elem_of_singleton. by eapply lookup_lt_Some.
Qed.

Lemma table_ok_lookup st t Gs T p L :
  table_ok lv st t Gs T → t !! p = Some L →
  ∃ g rds recs,
    group_of T !! p = Some g ∧ Gs !! g = Some (L, rds) ∧
    groups T !! g = Some recs ∧ group_ok lv st (L, rds) recs.
Proof.
  intros (H1 & H2 & H3 & _) Ht. rewrite H1 in Ht.
  destruct (group_of T !! p) as [g|] eqn:Hg; [|done]. simpl in Ht.
  destruct (Gs !! g) as [[L' rds]|] eqn:HG; [|done].
  simpl in Ht. injection Ht as ->.
  destruct (Forall2_lookup_l _ _ _ _ _ H3 HG) as (recs & Hrecs & Hok).
  by exists g, rds, recs.
Qed.

Lemma table_ok_lookup_None st t Gs T p :
  table_ok lv st t Gs T → t !! p = None → group_of T !! p = None.
Proof.
  intros (H1 & H2 & H3 & _) Ht. rewrite H1 in Ht.
  destruct (group_of T !! p) as [g|] eqn:Hg; [|done]. simpl in Ht.
  pose proof (H2 p g Hg) as Hlt.
  rewrite <-(Forall2_length _ _ _ H3) in Hlt.
  apply lookup_lt_is_Some_2 in Hlt as [G HG]. by rewrite HG in Ht.
Qed.

Variables (le : loc) (S : gset string) (V : gmap string (gset string)).

(** One pass of the loop.  Besides the table it leaves, the pass keeps the
    groups there were, adding at most one; it leaves alone every object
    that is neither the caller's [ignore_variables] nor in the footprint of
    the group of the primitive; and for a primitive without a group it
    makes a record whose two entries are the caller's objects. *)
Lemma reconcile_primitive_run st t Gs T res R p :
  is_set st le S → is_vardict st lv V → is_set st res R →
  table_ok lv st t Gs T →
  ∃ st' t' Gs' res',
    (reconcile_primitive le lv (t, res) p st = (Ok (t', res'), st') ∧
     is_set st' le S ∧ is_vardict st' lv V ∧
     is_set st' res' (reconcile_step S V (T, R) (primitive_name p)).2 ∧
     table_ok lv st' t' Gs' (reconcile_step S V (T, R) (primitive_name p)).1) ∧
    Gs `prefix_of` Gs' ∧
    (∀ x o, heap st !! x = Some o → x ≠ lv →
            (∀ g G, group_of T !! primitive_name p = Some g →
                    Gs !! g = Some G → x ∉ ⋃ (G.2.*2)) →
            heap st' !! x = Some o) ∧
    (t !! primitive_name p = None →
     ∃ r L,
       Gs' = Gs ++ [(L, [(r, {[ r ]})])] ∧
       heap st' !! r = Some (ObjDict (<["ignore_variables" := lv]>
                                       (<["ignore_entities" := le]> ∅)))).
Proof.
  intros Hle HV Hres Hok. unfold reconcile_primitive, reconcile_step. simpl.
  destruct (t !! primitive_name p) as [L|] eqn:Ht.
  - destruct (table_ok_lookup st t Gs T _ L Hok Ht)
      as (g & rds & recs & Hg & HG & Hrecs & [HL Hall]).
    rewrite Hg, Hrecs. simpl in *.
    destruct Hok as (H1 & H2 & H3 & H4a & H4b).
    assert (separated (rds.*2)) as Hsep.
    { rewrite Forall_forall in H4a.
      apply (H4a (L, rds)). by eapply list_elem_of_lookup_2. }
    destruct (reconcile_run lv le S V res R st L rds recs)
      as (st' & res' & Hrun & Hev & HV' & Hres' & Hall'); try done.
    rewrite (bind_run_ok _ _ st res' st' Hrun).
    exists st', t, Gs, res'. split; [|split; [done|split; [|done]]].
    2:{ intros x o Hx Hxlv Hout. destruct Hev as [_ Hst]. apply Hst; [done|].
        destruct o; [done| |done]. apply not_elem_of_union. split.
        - by apply (Hout g (L, rds)).
        - by apply not_elem_of_singleton. }
    split; [done|].
    split; [by apply (is_set_evolves _ st st' _ _ Hev)|].
    split; [done|]. split; [done|].
    split; [done|]. split; [|split; [|by split]].
    + simpl. intros p' g' Hp'. rewrite length_insert. by apply (H2 p').
    + simpl. apply Forall2_same_length_lookup_2.
      { rewrite length_insert. by eapply Forall2_length. }
      intros i G recs_i HGi Hi.
      destruct (decide (i = g)) as [->|Hne].
      * rewrite list_lookup_insert_eq in Hi by (by eapply lookup_lt_Some).
        injection Hi as <-. rewrite HG in HGi. injection HGi as <-.
        split; [|done]. simpl. destruct Hev as [_ Hst]. by apply Hst.
      * rewrite list_lookup_insert_ne in Hi by done.
        pose proof (Forall2_lookup_lr _ _ _ _ _ _ H3 HGi Hi) as HGok.
        apply (group_ok_evolves V (⋃ (rds.*2) ∪ {[ lv ]}) st); try done.
        apply disjoint_union_l. split.
        -- apply (H4b g i (L, rds) G); [done|done|done].
        -- apply disjoint_singleton_l. by eapply group_ok_lv.
  - pose proof (table_ok_lookup_None st t Gs T _ Hok Ht) as Hg. rewrite Hg.
    destruct Hok as (H1 & H2 & H3 & H4a & H4b).
    set (r := length (heap st)).
    set (rd := ObjDict (<["ignore_variables" := lv]>
                          (<["ignore_entities" := le]> ∅))).
    set (st1 := State (heap st ++ [rd]) (out st)).
    rewrite (bind_run_ok _ _ st r st1) by done.
    set (st2 := State (heap st1 ++ [ObjList [r]]) (out st1)).
    rewrite (bind_run_ok _ _ st1 (Datatypes.S r) st2).
    2:{ unfold alloc, st2, st1, r. simpl. rewrite length_app. simpl.
        by rewrite Nat.add_1_r. }
    assert (evolves ∅ st st2) as Hev.
    { apply (evolves_trans _ st st1); apply evolves_alloc. }
    assert (is_set st2 le S) as Hle2 by (by apply (is_set_evolves ∅ st)).
    assert (is_vardict st2 lv V) as HV2
      by (by apply (is_vardict_evolves ∅ st); [|set_solver|]).
    assert (heap st2 !! r = Some rd) as Hr.
    { unfold st2, st1. simpl. apply lookup_app_l_Some.
      by apply list_lookup_middle. }
    assert (heap st2 !! Datatypes.S r = Some (ObjList [r])) as HL.
    { unfold st2. simpl. apply list_lookup_middle.
      unfold st1, r. simpl. rewrite length_app. simpl. lia. }
    assert (le < r) as Hler by (by eapply lookup_lt_Some).
    assert (lv < r) as Hlvr.
    { destruct HV as (d & Hd & _). by eapply lookup_lt_Some. }
    pose proof (default_record_ok le S V st2 r Hle2 HV2 Hr Hler Hlvr) as Hrec.
    pose proof (Forall2_length _ _ _ H3) as Hlen.
    exists st2, (<[primitive_name p := Datatypes.S r]> t),
           (Gs ++ [(Datatypes.S r, [(r, {[ r ]})])]), res.
    split; [|split; [by apply prefix_app_r|split]].
    2:{ intros x o Hx _ _. destruct Hev as [_ Hst]. apply Hst; [done|].
        destruct o; [done|apply not_elem_of_empty|done]. }
    2:{ intros _. by exists r, (Datatypes.S r). }
    split; [done|]. split; [done|]. split; [done|].
    split; [by apply (is_set_evolves ∅ st)|].
    split; [|split; [|split; [|split]]]; simpl.
    + intros p'. destruct (decide (p' = primitive_name p)) as [->|Hne].
      * rewrite !lookup_insert_eq. simpl. rewrite <-Hlen.
        by rewrite list_lookup_middle.
      * rewrite !lookup_insert_ne by done. rewrite H1.
        destruct (group_of T !! p') as [g|] eqn:Hg'; [|done]. simpl.
        rewrite lookup_app_l; [done|]. rewrite Hlen. by apply (H2 p').
    + intros p' g. rewrite length_app. simpl.
      destruct (decide (p' = primitive_name p)) as [->|Hne].
      * rewrite lookup_insert_eq. intros [= <-]. lia.
      * rewrite lookup_insert_ne by done. intros Hg'.
        pose proof (H2 p' g Hg'). lia.
    + apply Forall2_app.
      * eapply Forall2_impl; [exact H3|]. intros G recs HGok.
        by apply (group_ok_evolves V ∅ st).
      * constructor; [|constructor]. split; [done|]. simpl.
        constructor; [done|constructor].
    + apply Forall_app. split; [done|].
      constructor; [|constructor]. simpl. split; [constructor|done].
    + intros g g' G G' Hne HG HG'.
      assert (∀ i Gi, Gs !! i = Some Gi → ⋃ (Gi.2.*2) ## ({[ r ]} : gset loc))
        as Hfresh.
      { intros i Gi HGi x Hx ->%elem_of_singleton.
        destruct (Forall2_lookup_l _ _ _ _ _ H3 HGi) as (recs & _ & HGok).
        pose proof (group_ok_bound st Gi recs HGok r Hx). unfold r in *. lia. }
      destruct (decide (g < length Gs)) as [Hg1|Hg1];
        destruct (decide (g' < length Gs)) as [Hg2|Hg2].
      * rewrite lookup_app_l in HG, HG' by done. by apply (H4b g g').
      * rewrite lookup_app_l in HG by done.
        rewrite lookup_app_r in HG' by lia.
        destruct (g' - length Gs) as [|n]; [|by destruct n].
        injection HG' as <-. simpl. rewrite union_empty_r_L.
        by apply (Hfresh g).
      * rewrite lookup_app_l in HG' by done.
        rewrite lookup_app_r in HG by lia.
        destruct (g - length Gs) as [|n]; [|by destruct n].
        injection HG as <-. simpl. rewrite union_empty_r_L.
        symmetry. by apply (Hfresh g').
      * rewrite lookup_app_r in HG, HG' by lia.
        destruct (g - length Gs) as [|n] eqn:E1; [|by destruct n].
        destruct (g' - length Gs) as [|n] eqn:E2; [|by destruct n].
        lia.
Qed.

End Loop.

Section Loop2.

Variables (lv le : loc) (S : gset string) (V : gmap string (gset string)).

(** The loop of [generate_all_primitive_options] returns, and the table
    and [global_ignore_entities] it leaves are those [reconcile_step]
    computes. *)
Lemma reconcile_loop (ps : list primitive_ref) :
  ∀ st t Gs T res R,
    is_set st le S → is_vardict st lv V → is_set st res R →
    table_ok lv st t Gs T →
    ∃ st' t' Gs' res',
      for_fold ps (reconcile_primitive le lv) (t, res) st
      = (Ok (t', res'), st') ∧
      is_set st' le S ∧ is_vardict st' lv V ∧
      is_set st' res'
        (foldl (reconcile_step S V) (T, R) (primitive_name <$> ps)).2 ∧
      table_ok lv st' t' Gs'
        (foldl (reconcile_step S V) (T, R) (primitive_name <$> ps)).1.
Proof.
  induction ps as [|p ps IH]; intros st t Gs T res R Hle HV Hres Hok; simpl.
  - by exists st, t, Gs, res.
  - destruct (reconcile_primitive_run lv le S V st t Gs T res R p)
      as (st1 & t1 & Gs1 & res1 & (Hrun & Hle1 & HV1 & Hres1 & Hok1) & _);
      try done.
    rewrite (bind_run_ok _ _ st _ st1 Hrun).
    revert Hres1 Hok1.
    destruct (reconcile_step S V (T, R) (primitive_name p)) as [T1 R1].
    simpl. intros Hres1 Hok1. by apply (IH st1 t1 Gs1 T1 res1 R1).
Qed.

(** *** Reading the table back *)

Lemma is_vardict_read st x m :
  is_vardict st x m → read_vardict st x = Some m.
Proof.
  intros (d & Hd & Hk). unfold read_vardict. rewrite Hd. f_equal.
  apply map_eq. intros k. rewrite lookup_omap.
  destruct (Hk k) as [y s Hs|]; simpl; [|done].
  unfold read_set. by rewrite Hs.
Qed.

Lemma is_optval_read st D x v :
  is_optval lv st D x v → read_optval st x = Some v.
Proof.
  destruct v as [s|m]; simpl.
  - intros Hs. unfold read_optval. by rewrite Hs.
  - intros [_ Hm]. pose proof (is_vardict_read st x m Hm) as Hr.
    unfold read_vardict in Hr. unfold read_optval.
    destruct (heap st !! x) as [[]|]; try done. by injection Hr as ->.
Qed.

Lemma is_record_read st D r rec :
  is_record lv st D r rec → read_record st r = Some rec.
Proof.
  intros (_ & _ & d & Hd & Hk & _). unfold read_record. rewrite Hd. f_equal.
  apply map_eq. intros k. rewrite lookup_omap.
  destruct (Hk k) as [x v Hv|]; simpl; [|done].
  by apply (is_optval_read st D).
Qed.

Lemma group_ok_read st G recs :
  group_ok lv st G recs → read_options st G.1 = Some recs.
Proof.
  intros [HL Hall]. unfold read_options. rewrite HL.
  apply mapM_Some. apply Forall2_fmap_l.
  eapply Forall2_impl; [exact Hall|]. intros rd rec (Hrec & _). simpl.
  by apply (is_record_read st rd.2).
Qed.

Lemma table_ok_read st t Gs T :
  table_ok lv st t Gs T → read_table st t = table_records T.
Proof.
  intros (H1 & H2 & H3 & _). unfold read_table, table_records.
  apply map_eq. intros p. rewrite !lookup_omap, H1.
  destruct (group_of T !! p) as [g|] eqn:Hg; simpl; [|done].
  pose proof (H2 p g Hg) as Hlt.
  rewrite <-(Forall2_length _ _ _ H3) in Hlt.
  apply lookup_lt_is_Some_2 in Hlt as [G HG]. rewrite HG. simpl.
  destruct (Forall2_lookup_l _ _ _ _ _ H3 HG) as (recs & -> & HGok).
  by apply group_ok_read.
Qed.

End Loop2.

(** ** Placing records in the store *)

Lemma foldl_insert_list_to_map {A} (l : list (string * A)) (m0 : gmap string A) :
  NoDup (l.*1) →
  foldl (λ m kv, <[kv.1 := kv.2]> m) m0 l = list_to_map l ∪ m0.
Proof.
  revert m0. induction l as [|[k a] l IH]; intros m0 Hnd; simpl.
  - symmetry. apply (left_id_L ∅ (∪)).
  - apply NoDup_cons in Hnd as [Hk Hnd]. rewrite IH by done.
    rewrite <-insert_union_r; [by rewrite insert_union_l|].
    by apply not_elem_of_list_to_map_1.
Qed.

Lemma foldl_insert_map_to_list {A} (m : gmap string A) :
  foldl (λ m kv, <[kv.1 := kv.2]> m) ∅ (map_to_list m) = m.
Proof.
  rewrite foldl_insert_list_to_map by apply NoDup_fst_map_to_list.
  rewrite list_to_map_to_list. apply (right_id_L ∅ (∪)).
Qed.

Section Alloc.

Context {A : Type}.
Variable f : A → M loc.
Variable Q : state → loc → A → Prop.

Hypothesis f_run : ∀ a st, ∃ x st',
  f a st = (Ok x, st') ∧ evolves ∅ st st' ∧
  length (heap st) ≤ x < length (heap st') ∧ Q st' x a.
Hypothesis Q_stable : ∀ st st' x a, evolves ∅ st st' → Q st x a → Q st' x a.

Lemma alloc_fold_run (n0 : nat) (l : list (string * A)) :
  ∀ d0 m0 st,
    n0 ≤ length (heap st) → built Q n0 st d0 m0 →
    ∃ d st',
      for_fold l (λ d kv, let* x := f kv.2 in ret (<[kv.1 := x]> d)) d0 st
      = (Ok d, st') ∧
      evolves ∅ st st' ∧
      built Q n0 st' d (foldl (λ m kv, <[kv.1 := kv.2]> m) m0 l).
Proof using f_run Q_stable.
  induction l as [|[k a] l IH]; intros d0 m0 st Hn0 Hb; simpl.
  - exists d0, st. split; [done|]. split; [apply evolves_refl|done].
  - destruct (f_run a st) as (x & st1 & Hrun & Hev1 & Hx & HQ).
    destruct Hb as [Hrel Hinj].
    assert (built Q n0 st1 (<[k := x]> d0) (<[k := a]> m0)) as Hb1.
    { split.
      - intros k'. destruct (decide (k' = k)) as [->|Hne].
        + rewrite !lookup_insert_eq. constructor. split; [lia|done].
        + rewrite !lookup_insert_ne by done.
          destruct (Hrel k') as [y b [Hy Hb]|]; constructor.
          pose proof Hev1 as [Hlen _]. split; [lia|].
          by apply (Q_stable st).
      - assert (∀ k', d0 !! k' = Some x → False) as Hfresh.
        { intros k' Hk'. pose proof (Hrel k') as H. rewrite Hk' in H.
          apply option_Forall2_Some_l in H as (b & _ & Hy & _). lia. }
        intros k1 k2 y.
        destruct (decide (k1 = k)) as [->|Hn1];
          destruct (decide (k2 = k)) as [->|Hn2]; try done.
        + rewrite lookup_insert_eq, lookup_insert_ne by done.
          intros [= <-] H2. by destruct (Hfresh k2).
        + rewrite lookup_insert_eq, lookup_insert_ne by done.
          intros H1 [= <-]. by destruct (Hfresh k1).
        + rewrite !lookup_insert_ne by done. apply Hinj. }
    destruct (IH (<[k := x]> d0) (<[k := a]> m0) st1) as (d & st' & Hrun' & Hev' & Hb');
      [pose proof Hev1 as [? _]; lia|done|].
    exists d, st'. split; [|split; [|done]].
    + rewrite (bind_run_ok _ _ st (<[k := x]> d0) st1); [done|].
      by rewrite (bind_run_ok _ _ st x st1 Hrun).
    + by apply (evolves_trans _ st st1).
Qed.

Lemma alloc_gmap_run (m : gmap string A) st :
  ∃ d st',
    alloc_gmap f m st = (Ok d, st') ∧ evolves ∅ st st' ∧
    built Q (length (heap st)) st' d m.
Proof using f_run Q_stable.
  destruct (alloc_fold_run (length (heap st)) (map_to_list m) ∅ ∅ st)
    as (d & st' & Hrun & Hev & Hb); [done| |].
  { split; [|by intros k1 k2 x; rewrite lookup_empty].
    intros k. rewrite !lookup_empty. constructor. }
  rewrite foldl_insert_map_to_list in Hb. by exists d, st'.
Qed.

End Alloc.

Section AllocRecord.

Variable lv : loc.

Lemma alloc_set_run (s : gset string) st :
  ∃ x st', alloc (ObjSet s) st = (Ok x, st') ∧ evolves ∅ st st' ∧
           length (heap st) ≤ x < length (heap st') ∧ is_set st' x s.
Proof.
  eexists _, _. split; [done|]. split; [apply evolves_alloc|]. simpl. split.
  - rewrite length_app. simpl. lia.
  - by apply list_lookup_middle.
Qed.

Lemma alloc_optval_run (v : optval) st :
  ∃ x st', alloc_optval v st = (Ok x, st') ∧ evolves ∅ st st' ∧
           length (heap st) ≤ x < length (heap st') ∧
           is_optval lv st' {[ x ]} x v.
Proof.
  destruct v as [s|m]; simpl; [apply alloc_set_run|].
  destruct (alloc_gmap_run (λ s, alloc (ObjSet s)) is_set alloc_set_run
              (λ st st' x s, is_set_evolves ∅ st st' x s) m st)
    as (d & st1 & Hrun & Hev & Hrel & _).
  rewrite (bind_run_ok _ _ st d st1 Hrun).
  set (st' := State (heap st1 ++ [ObjDict d]) (out st1)).
  assert (evolves ∅ st1 st') as Hev' by apply evolves_alloc.
  exists (length (heap st1)), st'. split; [done|].
  split; [by apply (evolves_trans _ st st1)|]. split.
  - pose proof Hev as [Hlen _]. unfold st'. simpl. rewrite length_app. simpl. lia.
  - split; [left; by apply elem_of_singleton|].
    exists d. split; [by apply list_lookup_middle|].
    intros k. destruct (Hrel k) as [x s [_ Hs]|]; constructor.
    by apply (is_set_evolves ∅ st1).
Qed.

Lemma is_optval_fresh_stable st st' x v :
  evolves ∅ st st' →
  is_optval lv st {[ x ]} x v → is_optval lv st' {[ x ]} x v.
Proof. intros Hev. by apply (is_optval_evolves_at lv ∅ _ st). Qed.

(** A record value placed in the store: the objects allocated for it are
    its footprint. *)
Lemma alloc_record_run (rec : option_record) st :
  normalized rec → lv < length (heap st) →
  ∃ r st',
    alloc_record rec st = (Ok r, st') ∧ evolves ∅ st st' ∧
    length (heap st) < length (heap st') ∧
    record_ok lv st'
      (r, set_seq (length (heap st)) (length (heap st') - length (heap st)))
      rec.
Proof.
  intros Hnorm Hlv. unfold alloc_record.
  destruct (alloc_gmap_run alloc_optval
              (λ st x v, is_optval lv st {[ x ]} x v)
              alloc_optval_run is_optval_fresh_stable rec st)
    as (d & st1 & Hrun & Hev & Hrel & Hinj).
  rewrite (bind_run_ok _ _ st d st1 Hrun).
  set (n := length (heap st)). set (r := length (heap st1)).
  set (st' := State (heap st1 ++ [ObjDict d]) (out st1)).
  assert (evolves ∅ st1 st') as Hev' by apply evolves_alloc.
  pose proof Hev as [Hlen _].
  assert (length (heap st') = Datatypes.S r) as Hlen'.
  { unfold st', r. simpl. rewrite length_app. simpl. lia. }
  exists r, st'. split; [done|].
  split; [by apply (evolves_trans _ st st1)|]. split; [fold n r in Hlen; lia|].
  fold n. rewrite Hlen'. set (D := set_seq n (Datatypes.S r - n) : gset loc).
  assert (∀ x, x ∈ D ↔ n ≤ x ≤ r) as HD.
  { intros x. unfold D. rewrite elem_of_set_seq. fold n r in Hlen. lia. }
  split; [|split; [done|split]]; simpl.
  - split; [apply HD; fold n r in Hlen; lia|].
    split; [fold n r in Hlen; lia|].
    exists d. split; [by apply list_lookup_middle|]. split; [|split].
    + intros k. destruct (Hrel k) as [x v [Hx Hv]|]; constructor.
      apply (is_optval_fresh_stable st1 st' x v Hev') in Hv.
      destruct v as [s|m]; simpl in *; [done|].
      destruct Hv as [_ Hm]. split; [|done]. left. apply HD. fold r in Hx. lia.
    + intros k Hk. pose proof (Hrel k) as H. rewrite Hk in H.
      apply option_Forall2_Some_l in H as (v & _ & Hx & _). fold r in Hx. lia.
    + intros k1 k2 x Hne H1 H2. by destruct (Hne (Hinj k1 k2 x H1 H2)).
  - intros Hin%HD. fold n in Hlv. lia.
  - intros x Hx%HD. unfold st'. simpl. rewrite length_app. simpl.
    fold r. lia.
Qed.

End AllocRecord.

Section AllocRecords.

Variable lv : loc.

Lemma is_record_alloc st st' D r rec :
  evolves ∅ st st' → is_record lv st D r rec → is_record lv st' D r rec.
Proof.
  intros Hev (HrD & Hrlv & d & Hd & Hk & Hself & Hinj).
  split; [done|]. split; [done|]. exists d. split; [|split; [|split]].
  - destruct Hev as [_ H]. apply H; [done|]. apply not_elem_of_empty.
  - intros k. destruct (Hk k); constructor.
    apply (is_optval_evolves_at lv ∅ D st); [done| |done].
    apply not_elem_of_empty.
  - done.
  - intros k1 k2 x Hne H1 H2. destruct (Hinj k1 k2 x Hne H1 H2) as [s Hs].
    exists s. by apply (is_set_evolves ∅ st).
Qed.

Lemma record_ok_alloc st st' rd rec :
  evolves ∅ st st' → record_ok lv st rd rec → record_ok lv st' rd rec.
Proof.
  intros Hev (Hrec & Hnorm & Hlv & Hbound).
  split; [by apply (is_record_alloc st)|]. split; [done|]. split; [done|].
  intros x Hx. destruct Hev as [Hlen _]. specialize (Hbound x Hx). lia.
Qed.

Lemma group_ok_alloc st st' G recs :
  evolves ∅ st st' → group_ok lv st G recs → group_ok lv st' G recs.
Proof.
  intros Hev [HL Hall]. split.
  - destruct Hev as [_ H]. by apply H.
  - eapply Forall2_impl; [exact Hall|]. intros rd rec. by apply record_ok_alloc.
Qed.

Lemma for_list_alloc_record (recs : list option_record) :
  ∀ st, Forall normalized recs → lv < length (heap st) →
  ∃ rds st',
    for_list alloc_record recs st = (Ok (rds.*1), st') ∧ evolves ∅ st st' ∧
    Forall2 (record_ok lv st') rds recs ∧ separated (rds.*2) ∧
    ∀ x, x ∈ ⋃ (rds.*2) → length (heap st) ≤ x < length (heap st').
Proof.
  induction recs as [|rec recs IH]; intros st Hnorm Hlv; simpl.
  - exists [], st. split; [done|]. split; [apply evolves_refl|].
    split; [constructor|]. split; [done|]. intros x Hx. simpl in Hx.
    by apply not_elem_of_empty in Hx.
  - apply Forall_cons in Hnorm as [Hrec Hnorm].
    destruct (alloc_record_run lv rec st Hrec Hlv)
      as (r & st1 & Hrun & Hev1 & Hlen1 & Hok1).
    destruct (IH st1 Hnorm) as (rds & st' & Hrun' & Hev' & Hall & Hsep & Hrange);
      [lia|].
    set (D := set_seq (length (heap st)) (length (heap st1) - length (heap st))
              : gset loc) in *.
    assert (∀ x, x ∈ D → length (heap st) ≤ x < length (heap st1)) as HD.
    { intros x Hx. unfold D in Hx. apply elem_of_set_seq in Hx. lia. }
    pose proof Hev' as [Hlen' _].
    exists ((r, D) :: rds), st'. split; [|split; [|split; [|split]]].
    + rewrite (bind_run_ok _ _ st r st1 Hrun).
      by rewrite (bind_run_ok _ _ st1 (rds.*1) st' Hrun').
    + by apply (evolves_trans _ st st1).
    + constructor; [|done]. by apply (record_ok_alloc st1).
    + simpl. split; [|done]. apply Forall_forall. intros D' HD' x Hx Hx'.
      assert (x ∈ ⋃ (rds.*2)) as Hin
        by (apply elem_of_union_list; by exists D').
      specialize (Hrange x Hin). specialize (HD x Hx). lia.
    + intros x. simpl. rewrite elem_of_union. intros [Hx|Hx].
      * specialize (HD x Hx). lia.
      * specialize (Hrange x Hx). lia.
Qed.

End AllocRecords.

(** ** Normal forms are normalised *)

Lemma convert_well_shaped (k : string) (v : raw_value) (ov : optval) :
  shape_ok k v = Some true → convert v = Some ov → well_shaped k ov = true.
Proof.
  unfold shape_ok, well_shaped.
  destruct (bool_decide (k ∈ entity_option_keys)) eqn:He.
  - intros [= Hv]. destruct v; try done. simpl. by intros [= <-].
  - destruct (bool_decide (k ∈ variable_option_keys)) eqn:Hv; [|done].
    intros [= Hd]. destruct v as [|d|]; try done. simpl.
    destruct (set_values d ∅); [|done]. by intros [= <-].
Qed.

Lemma foldl_store_option_well_shaped (d : raw_option_dict) :
  ∀ acc : option_record,
    Forall (λ item, shape_ok item.1 item.2 = Some true) d →
    map_Forall (λ k v, well_shaped k v = true) acc →
    map_Forall (λ k v, well_shaped k v = true) (foldl store_option acc d).
Proof.
  induction d as [|[k v] d IH]; intros acc Hd Hacc; simpl; [done|].
  apply Forall_cons in Hd as [Hkv Hd]. apply IH; [done|].
  unfold store_option. simpl. destruct (convert v) as [ov|] eqn:Hc; [|done].
  apply map_Forall_insert_2; [|done]. by apply (convert_well_shaped k v).
Qed.

Lemma with_defaults_normalized (r : option_record) :
  map_Forall (λ k v, well_shaped k v = true) r → normalized (with_defaults r).
Proof.
  intros Hr. unfold with_defaults, has_key.
  set (r1 := if bool_decide (is_Some (r !! "ignore_variables")) then r
             else <["ignore_variables" := OMap ∅]> r).
  assert (is_Some (r1 !! "ignore_variables")) as H1.
  { unfold r1. case_bool_decide; [done|]. rewrite lookup_insert_eq. eauto. }
  assert (map_Forall (λ k v, well_shaped k v = true) r1) as Hr1.
  { unfold r1. case_bool_decide; [done|]. by apply map_Forall_insert_2. }
  case_bool_decide as H2.
  - by split.
  - split; [rewrite lookup_insert_eq; eauto|]. split.
    + by rewrite lookup_insert_ne.
    + by apply map_Forall_insert_2.
Qed.

Lemma normal_form_normalized (key : primitive_key) (d : raw_option_dict)
    (r : option_record) :
  normal_form key d = Ok r → normalized r.
Proof.
  unfold normal_form. destruct (first_rejection key d) eqn:Hrej; [done|].
  intros [= <-]. apply with_defaults_normalized.
  apply foldl_store_option_well_shaped; [|apply map_Forall_empty].
  by apply first_rejection_None in Hrej.
Qed.

(** What [_init_option_dict] returns is a normalised record. *)
Lemma init_option_dict_normalized (key : primitive_key) (d : raw_option_dict)
    (es : gmap string (list string)) (st : state) (r : option_record) :
  (_init_option_dict key d es st).1 = Ok r → normalized r.
Proof.
  rewrite (emits_result _ _ st (init_option_dict_emits key d es)).
  apply normal_form_normalized.
Qed.

(** ** Building the table *)

Lemma emits_for_list {A B} (f : A → M B) (g : A → result B) (l : list A) :
  (∀ x, emits (f x) (g x)) → emits (for_list f l) (comprehension g l).
Proof.
  intros Hf. induction l as [|x l IH]; simpl.
  - apply emits_ret.
  - pose proof (Hf x) as Hx. destruct (g x) as [y|e]; simpl.
    + eapply emits_bind; [exact Hx|].
      destruct (comprehension g l) as [ys|e]; simpl.
      * eapply emits_bind; [exact IH|]. apply emits_ret.
      * by apply emits_bind_raise.
    + by apply emits_bind_raise.
Qed.

Lemma comprehension_Forall {A B} (f : A → result B) (P : B → Prop)
    (l : list A) (ys : list B) :
  (∀ x y, f x = Ok y → P y) → comprehension f l = Ok ys → Forall P ys.
Proof.
  intros Hf. revert ys. induction l as [|x l IH]; intros ys; simpl.
  - intros [= <-]. constructor.
  - destruct (f x) as [y|] eqn:Hy; simpl; [|done].
    destruct (comprehension f l) as [ys'|]; simpl; [|done].
    intros [= <-]. constructor; [by apply (Hf x)|by apply IH].
Qed.

Section InitEntry.

Variable get_aggregation_primitives get_transform_primitives
  : gmap string primitive.
Variable lv : loc.

Lemma entry_records_emits (es : gmap string (list string))
    (item : primitive_key * raw_options) :
  emits
    match item.2 with
    | OptionList options =>
        match find_primitive get_aggregation_primitives
                get_transform_primitives item.1 with
        | None => raise AttributeError
        | Some primitive =>
            let* ok := lift (number_of_inputs_matches primitive (length options)) in
            if ok
            then for_list (λ option, _init_option_dict item.1 option es) options
            else raise (OptionsInputsMismatch item.1)
        end
    | OptionDict options =>
        let* r := _init_option_dict item.1 options es in ret [r]
    end
    (entry_records get_aggregation_primitives get_transform_primitives item).
Proof.
  unfold entry_records. destruct item as [key [d|l]]; simpl.
  - pose proof (init_option_dict_emits key d es) as Hd.
    destruct (normal_form key d) as [r|e]; simpl.
    + eapply emits_bind; [exact Hd|]. apply emits_ret.
    + by apply emits_bind_raise.
  - destruct (find_primitive _ _ key) as [p|]; [|apply emits_raise].
    destruct (number_of_inputs_matches p (length l)) as [[]|e] eqn:Hm; simpl.
    + eapply emits_bind; [apply emits_lift|]. simpl.
      apply emits_for_list. intros d. apply init_option_dict_emits.
    + eapply emits_bind; [apply emits_lift|]. apply emits_raise.
    + apply emits_bind_raise. apply emits_lift.
Qed.

Lemma entry_records_normalized (item : primitive_key * raw_options)
    (recs : list option_record) :
  entry_records get_aggregation_primitives get_transform_primitives item
  = Ok recs →
  Forall normalized recs.
Proof.
  unfold entry_records. destruct item as [key [d|l]]; simpl.
  - destruct (normal_form key d) as [r|] eqn:Hr; simpl; [|done].
    intros [= <-]. constructor; [|constructor].
    by apply (normal_form_normalized key d).
  - destruct (find_primitive _ _ key) as [p|]; [|done].
    destruct (number_of_inputs_matches p (length l)) as [[]|]; simpl; try done.
    apply comprehension_Forall. intros d r. apply normal_form_normalized.
Qed.

(** The loop over the names of a key. *)
Lemma register_names_run (F : nat → option loc) (L : loc) (g : nat)
    (names : list string) :
  F g = Some L →
  ∀ (t : gmap string loc) (m : gmap string nat) st,
    (∀ p, t !! p = (m !! p) ≫= F) →
    (∀ p g', m !! p = Some g' → is_Some (F g')) →
    match register_names names g m with
    | Ok m' =>
        ∃ t', for_fold names
                (λ (flattened_options : gmap string loc) each_primitive,
                   if bool_decide (is_Some (flattened_options !! each_primitive))
                   then raise (MultipleOptions each_primitive)
                   else ret (<[each_primitive := L]> flattened_options)) t st
              = (Ok t', st) ∧
              (∀ p, t' !! p = (m' !! p) ≫= F) ∧
              (∀ p g', m' !! p = Some g' → is_Some (F g'))
    | Raise e =>
        for_fold names
          (λ (flattened_options : gmap string loc) each_primitive,
             if bool_decide (is_Some (flattened_options !! each_primitive))
             then raise (MultipleOptions each_primitive)
             else ret (<[each_primitive := L]> flattened_options)) t st
        = (Raise e, st)
    end.
Proof.
  intros HF. induction names as [|n names IH]; intros t m st Hrel Hwf; simpl.
  - by exists t.
  - assert (is_Some (t !! n) ↔ is_Some (m !! n)) as Hiff.
    { rewrite Hrel. destruct (m !! n) as [g'|] eqn:Hm; simpl.
      - split; [eauto|]. intros _. by apply (Hwf n).
      - split; by intros [? ?]. }
    destruct (decide (is_Some (m !! n))) as [Hs|Hs].
    + rewrite (bool_decide_eq_true_2 _ Hs).
      rewrite (bool_decide_eq_true_2 (is_Some (t !! n))) by (by apply Hiff).
      done.
    + rewrite (bool_decide_eq_false_2 _ Hs).
      rewrite (bool_decide_eq_false_2 (is_Some (t !! n))) by (by rewrite Hiff).
      specialize (IH (<[n := L]> t) (<[n := g]> m) st).
      destruct (register_names names g (<[n := g]> m)) as [m'|e].
      * destruct IH as (t' & Hrun & Hrel' & Hwf').
        -- intros p. destruct (decide (p = n)) as [->|Hne].
           ++ by rewrite !lookup_insert_eq.
           ++ by rewrite !lookup_insert_ne.
        -- intros p g'. destruct (decide (p = n)) as [->|Hne].
           ++ rewrite lookup_insert_eq. intros [= <-]. by rewrite HF.
           ++ rewrite lookup_insert_ne by done. apply Hwf.
        -- exists t'. split; [|done].
           by rewrite (bind_run_ok _ _ st (<[n := L]> t) st).
      * rewrite (bind_run_ok _ _ st (<[n := L]> t) st) by done. apply IH.
        -- intros p. destruct (decide (p = n)) as [->|Hne].
           ++ by rewrite !lookup_insert_eq.
           ++ by rewrite !lookup_insert_ne.
        -- intros p g'. destruct (decide (p = n)) as [->|Hne].
           ++ rewrite lookup_insert_eq. intros [= <-]. by rewrite HF.
           ++ rewrite lookup_insert_ne by done. apply Hwf.
Qed.

Lemma table_ok_alloc st st' t Gs T :
  evolves ∅ st st' → table_ok lv st t Gs T → table_ok lv st' t Gs T.
Proof.
  intros Hev (H1 & H2 & H3 & H4). split; [done|]. split; [done|].
  split; [|done]. eapply Forall2_impl; [exact H3|].
  intros G recs. by apply group_ok_alloc.
Qed.

Lemma table_ok_add_group st t Gs T L rds recs t' m' (n : nat) :
  table_ok lv st t Gs T →
  group_ok lv st (L, rds) recs → separated (rds.*2) →
  (∀ x, x ∈ ⋃ (rds.*2) → n ≤ x) →
  (∀ G x, G ∈ Gs → x ∈ ⋃ (G.2.*2) → x < n) →
  (∀ p, t' !! p = (m' !! p) ≫= (λ g, fst <$> (Gs ++ [(L, rds)]) !! g)) →
  (∀ p g, m' !! p = Some g → is_Some (fst <$> (Gs ++ [(L, rds)]) !! g)) →
  table_ok lv st t' (Gs ++ [(L, rds)]) (Table m' (groups T ++ [recs])).
Proof.
  intros (H1 & H2 & H3 & H4a & H4b) HG Hsep Hnew Hold Hrel Hwf.
  pose proof (Forall2_length _ _ _ H3) as Hlen.
  split; [done|]. split; [|split; [|split]]; simpl.
  - intros p g Hp. destruct (Hwf p g Hp) as [x Hx].
    rewrite length_app. simpl. rewrite <-Hlen.
    destruct ((Gs ++ [(L, rds)]) !! g) as [G|] eqn:HGg; [|done].
    apply lookup_lt_Some in HGg. rewrite length_app in HGg. simpl in HGg. lia.
  - apply Forall2_app; [done|]. by constructor.
  - apply Forall_app. split; [done|]. by constructor.
  - intros g g' G G' Hne HGg HGg'.
    assert (∀ i Gi, Gs !! i = Some Gi → ⋃ (Gi.2.*2) ## ⋃ (rds.*2)) as Hfresh.
    { intros i Gi HGi x Hx Hx'. specialize (Hnew x Hx').
      assert (x < n); [|lia].
      apply (Hold Gi x); [|done]. by eapply list_elem_of_lookup_2. }
    destruct (decide (g < length Gs)) as [Hg1|Hg1];
      destruct (decide (g' < length Gs)) as [Hg2|Hg2].
    + rewrite lookup_app_l in HGg, HGg' by done. by apply (H4b g g').
    + rewrite lookup_app_l in HGg by done.
      rewrite lookup_app_r in HGg' by lia.
      destruct (g' - length Gs) as [|k]; [|by destruct k].
      injection HGg' as <-. simpl. by apply (Hfresh g).
    + rewrite lookup_app_l in HGg' by done.
      rewrite lookup_app_r in HGg by lia.
      destruct (g - length Gs) as [|k]; [|by destruct k].
      injection HGg as <-. simpl. symmetry. by apply (Hfresh g').
    + rewrite lookup_app_r in HGg, HGg' by lia.
      destruct (g - length Gs) as [|k] eqn:E1; [|by destruct k].
      destruct (g' - length Gs) as [|k] eqn:E2; [|by destruct k].
      lia.
Qed.

(** One entry of [primitive_options]: [init_entry] returns the table
    [table_of_entry] describes, or raises the same exception; it only
    allocates. *)
Lemma init_entry_run (es : gmap string (list string)) st t Gs T item :
  table_ok lv st t Gs T → lv < length (heap st) →
  match table_of_entry get_aggregation_primitives get_transform_primitives
          T item with
  | Ok T' =>
      ∃ st' t' Gs',
        init_entry get_aggregation_primitives get_transform_primitives
          es t item st = (Ok t', st') ∧
        evolves ∅ st st' ∧ table_ok lv st' t' Gs' T'
  | Raise e =>
      ∃ st',
        init_entry get_aggregation_primitives get_transform_primitives
          es t item st = (Raise e, st') ∧
        evolves ∅ st st'
  end.
Proof.
  intros Hok Hlv. unfold init_entry, table_of_entry.
  destruct (entry_records_emits es item st) as [o Hrun0].
  set (st0 := State (heap st) (out st ++ o)) in *.
  assert (evolves ∅ st st0) as Hev0 by apply evolves_emit.
  destruct (entry_records _ _ item) as [recs|e] eqn:Hrecs; simpl.
  2:{ exists st0. split; [|done]. by rewrite (bind_run_raise _ _ st e st0 Hrun0). }
  rewrite (bind_run_ok _ _ st recs st0 Hrun0).
  pose proof (entry_records_normalized item recs Hrecs) as Hnorm.
  destruct (for_list_alloc_record lv recs st0 Hnorm Hlv)
    as (rds & st1 & Hrun1 & Hev1 & Hall1 & Hsep & Hrange).
  rewrite (bind_run_ok _ _ st0 (rds.*1) st1 Hrun1).
  set (L := length (heap st1)).
  set (st2 := State (heap st1 ++ [ObjList (rds.*1)]) (out st1)).
  rewrite (bind_run_ok _ _ st1 L st2) by done.
  assert (evolves ∅ st1 st2) as Hev2 by apply evolves_alloc.
  assert (evolves ∅ st st2) as Hev.
  { apply (evolves_trans _ st st0); [done|].
    by apply (evolves_trans _ st0 st1). }
  pose proof (table_ok_alloc st st2 t Gs T Hev Hok) as Hok2.
  pose proof Hok as (H1 & H2 & H3 & _).
  pose proof (Forall2_length _ _ _ H3) as Hlen.
  assert ((λ g, fst <$> (Gs ++ [(L, rds)]) !! g) (length (groups T)) = Some L)
    as HF.
  { simpl. rewrite <-Hlen. by rewrite list_lookup_middle. }
  pose proof (register_names_run _ L (length (groups T)) (key_names item.1)
                HF t (group_of T) st2) as Hreg.
  destruct (register_names (key_names item.1) (length (groups T)) (group_of T))
    as [m'|e]; simpl.
  - destruct Hreg as (t' & Hrun3 & Hrel & Hwf).
    + intros p. rewrite H1. destruct (group_of T !! p) as [g|] eqn:Hg; [|done].
      simpl. rewrite lookup_app_l; [done|]. rewrite Hlen. by apply (H2 p).
    + intros p g Hg. apply fmap_is_Some, lookup_lt_is_Some.
      rewrite length_app. pose proof (H2 p g Hg). lia.
    + exists st2, t', (Gs ++ [(L, rds)]). split; [done|]. split; [done|].
      apply (table_ok_add_group st2 t Gs T L rds recs t' m'
               (length (heap st0))); try done.
      * split; [by apply list_lookup_middle|].
        eapply Forall2_impl; [exact Hall1|].
        intros rd rec. by apply record_ok_alloc.
      * intros x Hx. specialize (Hrange x Hx). lia.
      * intros G x HG Hx. apply list_elem_of_lookup in HG as [i Hi].
        destruct (Forall2_lookup_l _ _ _ _ _ H3 Hi) as (recs' & _ & HGok).
        by apply (group_ok_bound lv st G recs').
  - exists st2. split; [|done]. apply Hreg.
    + intros p. rewrite H1. destruct (group_of T !! p) as [g|] eqn:Hg; [|done].
      simpl. rewrite lookup_app_l; [done|]. rewrite Hlen. by apply (H2 p).
    + intros p g Hg. apply fmap_is_Some, lookup_lt_is_Some.
      rewrite length_app. pose proof (H2 p g Hg). lia.
Qed.

(** [_init_primitive_options] builds the table [table_of_options]
    describes, or raises the same exception. *)
Lemma init_primitive_options_loop (es : gmap string (list string))
    (entries : list (primitive_key * raw_options)) :
  ∀ st t Gs T,
    table_ok lv st t Gs T → lv < length (heap st) →
    match table_of_options get_aggregation_primitives get_transform_primitives
            entries T with
    | Ok T' =>
        ∃ st' t' Gs',
          for_fold entries
            (init_entry get_aggregation_primitives get_transform_primitives es)
            t st = (Ok t', st') ∧
          evolves ∅ st st' ∧ table_ok lv st' t' Gs' T'
    | Raise e =>
        ∃ st',
          for_fold entries
            (init_entry get_aggregation_primitives get_transform_primitives es)
            t st = (Raise e, st') ∧
          evolves ∅ st st'
    end.
Proof.
  induction entries as [|item entries IH]; intros st t Gs T Hok Hlv; simpl.
  - exists st, t, Gs. split; [done|]. split; [apply evolves_refl|done].
  - pose proof (init_entry_run es st t Gs T item Hok Hlv) as Hentry.
    destruct (table_of_entry _ _ T item) as [T1|e]; simpl.
    + destruct Hentry as (st1 & t1 & Gs1 & Hrun1 & Hev1 & Hok1).
      rewrite (bind_run_ok _ _ st t1 st1 Hrun1).
      assert (lv < length (heap st1)) as Hlv1
        by (destruct Hev1 as [? _]; lia).
      specialize (IH st1 t1 Gs1 T1 Hok1 Hlv1).
      destruct (table_of_options _ _ entries T1) as [T'|e].
      * destruct IH as (st' & t' & Gs' & Hrun' & Hev' & Hok').
        exists st', t', Gs'. split; [done|].
        split; [by apply (evolves_trans _ st st1)|done].
      * destruct IH as (st' & Hrun' & Hev').
        exists st'. split; [done|]. by apply (evolves_trans _ st st1).
    + destruct Hentry as (st1 & Hrun1 & Hev1). exists st1.
      split; [|done]. by rewrite (bind_run_raise _ _ st e st1 Hrun1).
Qed.

End InitEntry.

(** ** [generate_all_primitive_options] *)

Lemma table_ok_empty (lv : loc) st : table_ok lv st ∅ [] (Table ∅ []).
Proof.
  split; [|split; [|split; [|split]]]; simpl.
  - intros p. by rewrite !lookup_empty.
  - intros p g. by rewrite lookup_empty.
  - constructor.
  - constructor.
  - intros g g' G G' _ HG. by rewrite lookup_nil in HG.
Qed.

Lemma is_set_read st x s : is_set st x s → read_set st x = Some s.
Proof. intros H. unfold read_set. by rewrite H. Qed.

(** The function computes [reconciled]: when the caller's
    [ignore_entities] is a set holding [S] and [ignore_variables] a dict of
    sets holding [V], the call returns exactly when [reconciled] does, the
    table it returns holds the table [reconciled] gives and the set it
    returns the set, and it raises what [reconciled] raises. *)
Lemma generate_all_primitive_options_table_ok
    (get_aggregation_primitives get_transform_primitives : gmap string primitive)
    (all_primitives : list primitive_ref)
    (primitive_options : list (primitive_key * raw_options))
    (ignore_entities ignore_variables : loc) (es : list entity) (st : state)
    (S : gset string) (V : gmap string (gset string)) :
  is_set st ignore_entities S → is_vardict st ignore_variables V →
  match reconciled get_aggregation_primitives get_transform_primitives
          all_primitives primitive_options S V with
  | Ok TR =>
      ∃ t res st' Gs,
        generate_all_primitive_options get_aggregation_primitives
          get_transform_primitives all_primitives primitive_options
          ignore_entities ignore_variables es st = (Ok (t, res), st') ∧
        table_ok ignore_variables st' t Gs TR.1 ∧
        is_set st' res TR.2 ∧
        is_set st' ignore_entities S ∧
        is_vardict st' ignore_variables V
  | Raise e =>
      ∃ st',
        generate_all_primitive_options get_aggregation_primitives
          get_transform_primitives all_primitives primitive_options
          ignore_entities ignore_variables es st = (Raise e, st') ∧
        is_set st' ignore_entities S ∧
        is_vardict st' ignore_variables V
  end.
Proof.
  intros Hle HV. unfold reconciled, generate_all_primitive_options,
    _init_primitive_options.
  assert (ignore_variables < length (heap st)) as Hlv.
  { destruct HV as (d & Hd & _). by eapply lookup_lt_Some. }
  pose proof (init_primitive_options_loop get_aggregation_primitives
                get_transform_primitives ignore_variables (entityset_dict es)
                primitive_options st ∅ [] (Table ∅ [])
                (table_ok_empty ignore_variables st) Hlv) as Hinit.
  destruct (table_of_options _ _ primitive_options (Table ∅ [])) as [T0|e];
    simpl.
  - destruct Hinit as (st1 & t1 & Gs1 & Hrun1 & Hev1 & Hok1).
    rewrite (bind_run_ok _ _ st t1 st1 Hrun1).
    assert (is_set st1 ignore_entities S) as Hle1
      by (by apply (is_set_evolves ∅ st)).
    assert (is_vardict st1 ignore_variables V) as HV1.
    { apply (is_vardict_evolves ∅ st); [done| |done]. apply not_elem_of_empty. }
    destruct (reconcile_loop ignore_variables ignore_entities S V all_primitives
                st1 t1 Gs1 T0 ignore_entities S Hle1 HV1 Hle1 Hok1)
      as (st' & t' & Gs' & res' & Hrun' & Hle' & HV' & Hres' & Hok').
    by exists t', res', st', Gs'.
  - destruct Hinit as (st1 & Hrun1 & Hev1). exists st1.
    split; [by rewrite (bind_run_raise _ _ st e st1 Hrun1)|].
    split.
    + by apply (is_set_evolves ∅ st).
    + apply (is_vardict_evolves ∅ st); [done| |done]. apply not_elem_of_empty.
Qed.

(** The same, read back from the store; in either case the caller's two
    objects hold [S] and [V] afterwards as before. *)
Lemma generate_all_primitive_options_reconciled
    (get_aggregation_primitives get_transform_primitives : gmap string primitive)
    (all_primitives : list primitive_ref)
    (primitive_options : list (primitive_key * raw_options))
    (ignore_entities ignore_variables : loc) (es : list entity) (st : state)
    (S : gset string) (V : gmap string (gset string)) :
  is_set st ignore_entities S → is_vardict st ignore_variables V →
  match reconciled get_aggregation_primitives get_transform_primitives
          all_primitives primitive_options S V with
  | Ok TR =>
      ∃ t res st',
        generate_all_primitive_options get_aggregation_primitives
          get_transform_primitives all_primitives primitive_options
          ignore_entities ignore_variables es st = (Ok (t, res), st') ∧
        read_table st' t = table_records TR.1 ∧
        read_set st' res = Some TR.2 ∧
        read_set st' ignore_entities = Some S ∧
        read_vardict st' ignore_variables = Some V
  | Raise e =>
      ∃ st',
        generate_all_primitive_options get_aggregation_primitives
          get_transform_primitives all_primitives primitive_options
          ignore_entities ignore_variables es st = (Raise e, st') ∧
        read_set st' ignore_entities = Some S ∧
        read_vardict st' ignore_variables = Some V
  end.
Proof.
  intros Hle HV.
  pose proof (generate_all_primitive_options_table_ok
                get_aggregation_primitives get_transform_primitives
                all_primitives primitive_options ignore_entities
                ignore_variables es st S V Hle HV) as H.
  destruct (reconciled _ _ all_primitives primitive_options S V) as [TR|e].
  - destruct H as (t & res & st' & Gs & Hrun & Hok & Hres & Hle' & HV').
    exists t, res, st'. split; [done|].
    split; [by apply (table_ok_read ignore_variables st' t Gs)|].
    split; [by apply is_set_read|].
    split; [by apply is_set_read|by apply is_vardict_read].
  - destruct H as (st' & Hrun & Hle' & HV'). exists st'. split; [done|].
    split; [by apply is_set_read|by apply is_vardict_read].
Qed.

Lemma table_ok_normalized (lv : loc) st t Gs T p recs :
  table_ok lv st t Gs T → table_records T !! p = Some recs →
  Forall normalized recs.
Proof.
  intros (_ & _ & H3 & _). unfold table_records. rewrite lookup_omap.
  destruct (group_of T !! p) as [g|]; [|done]. simpl. intros Hg.
  destruct (Forall2_lookup_r _ _ _ _ _ H3 Hg) as (G & _ & _ & Hall).
  apply Forall_forall. intros rec Hrec.
  apply list_elem_of_lookup in Hrec as [i Hi].
  by destruct (Forall2_lookup_r _ _ _ _ _ Hall Hi) as (rd & _ & _ & Hnorm & _).
Qed.

(** Every record of the table the function returns is normalised: the
    match filters and the entity pre-filter find the keys they read. *)
Lemma generate_all_primitive_options_normalized
    (get_aggregation_primitives get_transform_primitives : gmap string primitive)
    (all_primitives : list primitive_ref)
    (primitive_options : list (primitive_key * raw_options))
    (ignore_entities ignore_variables : loc) (es : list entity)
    (S : gset string) (V : gmap string (gset string))
    (st st' : state) (t : gmap string loc) (res : loc) :
  is_set st ignore_entities S → is_vardict st ignore_variables V →
  generate_all_primitive_options get_aggregation_primitives
    get_transform_primitives all_primitives primitive_options
    ignore_entities ignore_variables es st = (Ok (t, res), st') →
  ∀ p recs, read_table st' t !! p = Some recs → Forall normalized recs.
Proof.
  intros Hle HV Hrun p recs Hp.
  pose proof (generate_all_primitive_options_table_ok
                get_aggregation_primitives get_transform_primitives
                all_primitives primitive_options ignore_entities
                ignore_variables es st S V Hle HV) as H.
  destruct (reconciled _ _ all_primitives primitive_options S V) as [TR|e].
  - destruct H as (t1 & res1 & st1 & Gs & Hrun1 & Hok & _).
    rewrite Hrun in Hrun1. injection Hrun1 as <- <- <-.
    rewrite (table_ok_read ignore_variables st' t Gs TR.1 Hok) in Hp.
    by apply (table_ok_normalized ignore_variables st' t Gs TR.1 p).
  - destruct H as (st1 & Hrun1 & _). congruence.
Qed.

(** ** Reconciliation on record values *)

Lemma included_of_record_insert (rec : option_record) (k : string) (v : optval) :
  k ≠ "include_entities" → k ≠ "include_variables" →
  included_of_record (<[k := v]> rec) = included_of_record rec.
Proof.
  intros H1 H2. unfold included_of_record. by rewrite !lookup_insert_ne.
Qed.

Lemma ignore_entities_of_insert (rec : option_record) (k : string) (v : optval) :
  k ≠ "ignore_entities" →
  ignore_entities_of (<[k := v]> rec) = ignore_entities_of rec.
Proof. intros H. unfold ignore_entities_of. by rewrite lookup_insert_ne. Qed.

Lemma reconciled_from_refl (S inc : gset string) (rec : option_record) :
  reconciled_from S inc rec rec.
Proof. split; [done|]. split; [done|]. apply union_subseteq_l. Qed.

Lemma reconciled_from_add_ignore_entities (S inc : gset string)
    (rec' rec : option_record) :
  reconciled_from S inc rec' rec →
  reconciled_from S inc (add_ignore_entities S inc rec') rec.
Proof.
  intros (Hinc & Hsub & Hsup). unfold add_ignore_entities.
  destruct (rec' !! "ignore_entities") as [[s|m]|] eqn:Hie; try done.
  assert (ignore_entities_of rec' = s) as Hs
    by (unfold ignore_entities_of; by rewrite Hie).
  split; [|split].
  - by rewrite included_of_record_insert.
  - unfold ignore_entities_of at 2. rewrite lookup_insert_eq.
    rewrite Hs in Hsub. by apply union_subseteq_l'.
  - unfold ignore_entities_of at 1. rewrite lookup_insert_eq.
    rewrite Hs in Hsup. apply union_least; [done|]. apply union_subseteq_r.
Qed.

Lemma reconciled_from_add_ignore_variables (S inc : gset string)
    (entity : string) (g : gset string) (rec' rec : option_record) :
  reconciled_from S inc rec' rec →
  reconciled_from S inc (add_ignore_variables inc entity g rec') rec.
Proof.
  intros (Hinc & Hsub & Hsup). unfold add_ignore_variables.
  destruct (rec' !! "ignore_variables") as [[s|m]|]; try done.
  assert (∀ v, reconciled_from S inc (<["ignore_variables" := v]> rec') rec)
    as Hins.
  { intros v. split; [|split].
    - by rewrite included_of_record_insert.
    - by rewrite ignore_entities_of_insert.
    - by rewrite ignore_entities_of_insert. }
  destruct (m !! entity); [apply Hins|]. case_bool_decide; [done|apply Hins].
Qed.

Lemma included_of_records_reconciled_from (S inc : gset string)
    (recs' recs : list option_record) :
  Forall2 (reconciled_from S inc) recs' recs →
  included_of_records recs' = included_of_records recs.
Proof.
  unfold included_of_records.
  induction 1 as [|rec' rec recs' recs (Hinc & _) _ IH]; csimpl; [done|].
  by rewrite Hinc, IH.
Qed.

Lemma reconcile_records_reconciled_from (S : gset string)
    (V : gmap string (gset string)) (recs' recs : list option_record) :
  Forall2 (reconciled_from S (included_of_records recs)) recs' recs →
  Forall2 (reconciled_from S (included_of_records recs))
          (reconcile_records S V recs') recs.
Proof.
  intros Hall. unfold reconcile_records.
  rewrite (included_of_records_reconciled_from S _ recs' recs Hall).
  set (inc := included_of_records recs) in *.
  assert (Forall2 (reconciled_from S inc) (add_ignore_entities S inc <$> recs')
                  recs) as Hall1.
  { apply Forall2_fmap_l. eapply Forall2_impl; [exact Hall|].
    intros rec' rec. apply reconciled_from_add_ignore_entities. }
  generalize dependent (add_ignore_entities S inc <$> recs'). clear Hall.
  induction (map_to_list V) as [|[e g] its IH]; intros rs Hrs; simpl; [done|].
  apply IH. apply Forall2_fmap_l. eapply Forall2_impl; [exact Hrs|].
  intros rec' rec. apply reconciled_from_add_ignore_variables.
Qed.

Lemma included_of_records_reconcile_records (S : gset string)
    (V : gmap string (gset string)) (recs : list option_record) :
  included_of_records (reconcile_records S V recs) = included_of_records recs.
Proof.
  apply (included_of_records_reconciled_from S (included_of_records recs)).
  apply reconcile_records_reconciled_from.
  apply Forall2_same_length_lookup_2; [done|].
  intros i x y Hx Hy. rewrite Hx in Hy. injection Hy as <-.
  apply reconciled_from_refl.
Qed.

Lemma included_of_default_record (S : gset string) (V : gmap string (gset string)) :
  included_of_records [default_record S V] = ∅.
Proof.
  unfold included_of_records, included_of_record, default_record. simpl.
  rewrite !lookup_insert_ne by done. rewrite !lookup_empty.
  by rewrite !(left_id_L ∅ (∪)).
Qed.

(** ** The loop on table values *)

Lemma explicit_included_Some (T : table) (p : string) (g : nat)
    (recs : list option_record) :
  group_of T !! p = Some g → groups T !! g = Some recs →
  explicit_included T p = included_of_records recs.
Proof.
  intros Hp Hg. unfold explicit_included, table_records.
  rewrite lookup_omap, Hp. simpl. by rewrite Hg.
Qed.

Lemma explicit_included_None (T : table) (p : string) :
  group_of T !! p = None → explicit_included T p = ∅.
Proof.
  intros Hp. unfold explicit_included, table_records.
  by rewrite lookup_omap, Hp.
Qed.

Lemma loop_inv_init (S : gset string) (T0 : table) : loop_inv S T0 [] (T0, S).
Proof.
  split; [done|]. split; [done|]. split; [simpl; by intros p g -> [=]|].
  split; [|split]; simpl.
  - intros g recs0 Hg. exists recs0. split; [done|].
    apply Forall2_same_length_lookup_2; [done|].
    intros i x y Hx Hy. rewrite Hx in Hy. injection Hy as <-.
    apply reconciled_from_refl.
  - intros g recs Hlen Hg. apply lookup_lt_Some in Hg. lia.
  - by rewrite difference_empty_L.
Qed.

Lemma loop_inv_step (S : gset string) (V : gmap string (gset string))
    (T0 : table) (processed : list string) (acc : table * gset string)
    (p : string) :
  table_wf T0 → loop_inv S T0 processed acc →
  loop_inv S T0 (processed ++ [p]) (reconcile_step S V acc p).
Proof.
  intros Hwf (Hlen & Hold & Hnew & Hrecs & Hdef & HR).
  destruct acc as [T R]. simpl in *.
  assert (⋃ (explicit_included T0 <$> (processed ++ [p]))
          = ⋃ (explicit_included T0 <$> processed) ∪ explicit_included T0 p)
    as HU.
  { rewrite fmap_app, union_list_app_L. simpl. by rewrite (right_id_L ∅ (∪)). }
  unfold reconcile_step. simpl.
  destruct (group_of T !! p) as [g|] eqn:Hp.
  - destruct (group_of T0 !! p) as [g0|] eqn:Hp0.
    + (* a primitive of the user's options *)
      pose proof (Hold p g0 Hp0) as Hg. rewrite Hp in Hg. injection Hg as ->.
      pose proof (Hwf p g0 Hp0) as Hlt.
      apply lookup_lt_is_Some_2 in Hlt as [recs0 Hrecs0].
      destruct (Hrecs g0 recs0 Hrecs0) as (recs & Hg & Hall).
      rewrite Hg. simpl.
      rewrite (explicit_included_Some T0 p g0 recs0 Hp0 Hrecs0) in HU.
      rewrite (included_of_records_reconciled_from S _ recs recs0 Hall).
      split; [simpl; by rewrite length_insert|]. split; [done|]. split; [done|].
      split; [|split]; simpl.
      * intros g' recs0' Hg'. destruct (decide (g' = g0)) as [->|Hne].
        -- rewrite Hrecs0 in Hg'. injection Hg' as <-.
           exists (reconcile_records S V recs). split.
           ++ apply list_lookup_insert_eq. by eapply lookup_lt_Some.
           ++ by apply reconcile_records_reconciled_from.
        -- rewrite list_lookup_insert_ne by done. by apply Hrecs.
      * intros g' recs' Hlen' Hg'. apply lookup_lt_Some in Hrecs0.
        rewrite list_lookup_insert_ne in Hg' by lia. by apply (Hdef g').
      * by rewrite HU, HR, difference_difference_l_L.
    + (* a primitive without options, seen before *)
      pose proof (Hnew p g Hp Hp0) as Hge.
      rewrite (explicit_included_None T0 p Hp0), (right_id_L ∅ (∪)) in HU.
      assert (included_of_records (default [] (groups T !! g)) = ∅) as Hinc.
      { destruct (groups T !! g) as [recs|] eqn:Hg; simpl; [|done].
        by apply (Hdef g). }
      rewrite Hinc, difference_empty_L.
      split; [simpl; by rewrite length_insert|]. split; [done|]. split; [done|].
      split; [|split]; simpl.
      * intros g' recs0' Hg'. pose proof (lookup_lt_Some _ _ _ Hg') as Hlt.
        rewrite list_lookup_insert_ne by lia. by apply Hrecs.
      * intros g' recs' Hlen' Hg'. destruct (decide (g' = g)) as [->|Hne].
        -- destruct (groups T !! g) as [recs|] eqn:Hg.
           ++ rewrite list_lookup_insert_eq in Hg'
                by (by eapply lookup_lt_Some).
              injection Hg' as <-.
              by rewrite included_of_records_reconcile_records.
           ++ rewrite list_insert_ge in Hg'
                by (by apply lookup_ge_None). congruence.
        -- rewrite list_lookup_insert_ne in Hg' by done. by apply (Hdef g').
      * by rewrite HU.
  - (* a primitive without options, seen for the first time *)
    assert (group_of T0 !! p = None) as Hp0.
    { destruct (group_of T0 !! p) as [g0|] eqn:Hp0; [|done].
      by rewrite (Hold p g0 Hp0) in Hp. }
    rewrite (explicit_included_None T0 p Hp0), (right_id_L ∅ (∪)) in HU.
    split; [simpl; rewrite length_app; simpl; lia|]. split; [|split; [|split; [|split]]];
      simpl.
    + intros p' g' Hp'. destruct (decide (p' = p)) as [->|Hne]; [congruence|].
      rewrite lookup_insert_ne by done. by apply Hold.
    + intros p' g'. destruct (decide (p' = p)) as [->|Hne].
      * rewrite lookup_insert_eq. intros [= <-] _. done.
      * rewrite lookup_insert_ne by done. apply Hnew.
    + intros g' recs0' Hg'. pose proof (lookup_lt_Some _ _ _ Hg') as Hlt.
      rewrite lookup_app_l by lia. by apply Hrecs.
    + intros g' recs' Hlen' Hg'.
      destruct (decide (g' < length (groups T))) as [Hlt|Hge].
      * rewrite lookup_app_l in Hg' by done. by apply (Hdef g').
      * rewrite lookup_app_r in Hg' by lia.
        destruct (g' - length (groups T)) as [|k]; [|by destruct k].
        injection Hg' as <-. apply included_of_default_record.
    + by rewrite HU.
Qed.

Lemma loop_inv_foldl (S : gset string) (V : gmap string (gset string))
    (T0 : table) (names : list string) :
  table_wf T0 →
  ∀ processed acc,
    loop_inv S T0 processed acc →
    loop_inv S T0 (processed ++ names) (foldl (reconcile_step S V) acc names).
Proof.
  intros Hwf. induction names as [|p names IH]; intros processed acc Hinv; simpl.
  - by rewrite app_nil_r.
  - replace (processed ++ p :: names) with ((processed ++ [p]) ++ names)
      by (by rewrite <-app_assoc).
    apply IH. by apply loop_inv_step.
Qed.

Lemma register_names_bound (names : list string) (g : nat) :
  ∀ m m', register_names names g m = Ok m' →
          (∀ p g', m !! p = Some g' → g' ≤ g) →
          ∀ p g', m' !! p = Some g' → g' ≤ g.
Proof.
  induction names as [|n names IH]; intros m m'; simpl.
  - by intros [= <-].
  - case_bool_decide; [done|]. intros Hreg Hm. apply (IH _ _ Hreg).
    intros p g'. destruct (decide (p = n)) as [->|Hne].
    + rewrite lookup_insert_eq. by intros [= <-].
    + rewrite lookup_insert_ne by done. apply Hm.
Qed.

(** ** The record of a primitive without options *)

Lemma register_names_other (names : list string) (g : nat) (p : string) :
  ∀ m m', register_names names g m = Ok m' → p ∉ names → m' !! p = m !! p.
Proof.
  induction names as [|n names IH]; intros m m'; simpl.
  - by intros [= <-].
  - case_bool_decide; [done|]. intros Hreg Hp.
    rewrite (IH _ _ Hreg) by (intros ?; apply Hp; by right).
    apply lookup_insert_ne. intros ->. apply Hp. by left.
Qed.

Lemma table_of_options_other
    (get_aggregation_primitives get_transform_primitives : gmap string primitive)
    (entries : list (primitive_key * raw_options)) (p : string) :
  ∀ T T',
    table_of_options get_aggregation_primitives get_transform_primitives
      entries T = Ok T' →
    p ∉ entries.*1 ≫= key_names →
    group_of T' !! p = group_of T !! p.
Proof.
  induction entries as [|item entries IH]; intros T T'; simpl.
  - by intros [= <-].
  - unfold table_of_entry at 1.
    destruct (entry_records _ _ item) as [recs|]; simpl; [|done].
    destruct (register_names _ _ _) as [m|] eqn:Hreg; simpl; [|done].
    intros HT' Hp. rewrite (IH _ _ HT').
    + simpl. apply (register_names_other _ _ _ _ _ Hreg).
      intros Hin. apply Hp, elem_of_app. by left.
    + intros Hin. apply Hp, elem_of_app. by right.
Qed.

Lemma reconcile_step_other (S : gset string) (V : gmap string (gset string))
    (acc : table * gset string) (q p : string) :
  q ≠ p →
  group_of (reconcile_step S V acc q).1 !! p = group_of acc.1 !! p.
Proof.
  intros Hne. unfold reconcile_step.
  destruct (group_of acc.1 !! q); simpl; [done|].
  by apply lookup_insert_ne.
Qed.

Lemma reconcile_steps_other (S : gset string) (V : gmap string (gset string))
    (names : list string) (p : string) :
  p ∉ names →
  ∀ acc, group_of (foldl (reconcile_step S V) acc names).1 !! p
         = group_of acc.1 !! p.
Proof.
  induction names as [|q names IH]; intros Hp acc; simpl; [done|].
  rewrite IH by (intros ?; apply Hp; by right).
  apply reconcile_step_other. intros ->. apply Hp. by left.
Qed.

Section DefaultRecord.

Variables (lv le : loc) (S : gset string) (V : gmap string (gset string)).

(** The record made for a primitive stays as it is while the loop goes
    through other primitives: they have other groups, and the footprints of
    two groups share no object. *)
Lemma reconcile_loop_frame (ps : list primitive_ref) (p : string) (gp : nat)
    (L r : loc) (o : obj) :
  p ∉ primitive_name <$> ps →
  ∀ st t Gs T res R,
    is_set st le S → is_vardict st lv V → is_set st res R →
    table_ok lv st t Gs T →
    group_of T !! p = Some gp →
    (∀ q, group_of T !! q = Some gp → q = p) →
    Gs !! gp = Some (L, [(r, {[ r ]})]) →
    heap st !! r = Some o →
    ∃ st' t' res',
      for_fold ps (reconcile_primitive le lv) (t, res) st
      = (Ok (t', res'), st') ∧
      t' !! p = Some L ∧ heap st' !! L = Some (ObjList [r]) ∧
      heap st' !! r = Some o.
Proof.
  induction ps as [|q ps IH]; intros Hp st t Gs T res R Hle HV Hres Hok Hgp
    Hinj HG Hr; simpl.
  - exists st, t, res. split; [done|].
    destruct Hok as (H1 & _ & H3 & _). split; [|split; [|done]].
    + by rewrite H1, Hgp; simpl; rewrite HG.
    + destruct (Forall2_lookup_l _ _ _ _ _ H3 HG) as (recs & _ & HL & _).
      done.
  - assert (primitive_name q ≠ p) as Hqp
      by (intros Heq; apply Hp; rewrite fmap_cons, Heq; left).
    assert (p ∉ primitive_name <$> ps) as Hp'
      by (intros ?; apply Hp; rewrite fmap_cons; by right).
    destruct (reconcile_primitive_run lv le S V st t Gs T res R q)
      as (st1 & t1 & Gs1 & res1 & (Hrun & Hle1 & HV1 & Hres1 & Hok1)
          & Hpre & Hframe & _); try done.
    rewrite (bind_run_ok _ _ st _ st1 Hrun).
    pose proof Hok as (_ & H2 & H3 & _ & H4b).
    assert (heap st1 !! r = Some o) as Hr1.
    { apply Hframe; [done| |].
      - destruct (Forall2_lookup_l _ _ _ _ _ H3 HG) as (recs & _ & HGok).
        intros ->. apply (group_ok_lv _ _ _ _ HGok). simpl.
        rewrite union_empty_r_L. by apply elem_of_singleton.
      - intros g G Hg HGg Hin.
        assert (gp ≠ g) as Hne by (intros <-; by apply Hqp, Hinj).
        apply (H4b gp g _ _ Hne HG HGg r); [|done]. simpl.
        rewrite union_empty_r_L. by apply elem_of_singleton. }
    assert (group_of (reconcile_step S V (T, R) (primitive_name q)).1 !! p
            = Some gp) as Hgp1 by (by rewrite reconcile_step_other).
    assert (∀ q', group_of (reconcile_step S V (T, R) (primitive_name q)).1 !! q'
                  = Some gp → q' = p) as Hinj1.
    { intros q'. unfold reconcile_step. simpl.
      destruct (group_of T !! primitive_name q) as [g|] eqn:Hg; simpl;
        [apply Hinj|].
      destruct (decide (q' = primitive_name q)) as [->|Hne].
      - rewrite lookup_insert_eq. intros [= Hlen].
        pose proof (H2 p gp Hgp). lia.
      - rewrite lookup_insert_ne by done. apply Hinj. }
    revert Hres1 Hok1 Hgp1 Hinj1.
    destruct (reconcile_step S V (T, R) (primitive_name q)) as [T1 R1].
    simpl. intros Hres1 Hok1 Hgp1 Hinj1.
    apply (IH Hp' st1 t1 Gs1 T1 res1 R1); try done.
    by apply (prefix_lookup_Some Gs).
Qed.

(** A primitive without a group gets one when the loop meets it, with one
    record whose entries are the caller's two objects; the record is still
    that after the loop if the primitive is not met again. *)
Lemma reconcile_loop_default (ps1 ps2 : list primitive_ref)
    (x : primitive_ref) :
  primitive_name x ∉ primitive_name <$> ps1 →
  primitive_name x ∉ primitive_name <$> ps2 →
  ∀ st t Gs T,
    is_set st le S → is_vardict st lv V → table_ok lv st t Gs T →
    group_of T !! primitive_name x = None →
    ∃ st' t' res' L r,
      for_fold (ps1 ++ x :: ps2) (reconcile_primitive le lv) (t, le) st
      = (Ok (t', res'), st') ∧
      t' !! primitive_name x = Some L ∧
      heap st' !! L = Some (ObjList [r]) ∧
      heap st' !! r = Some (ObjDict (<["ignore_variables" := lv]>
                                      (<["ignore_entities" := le]> ∅))).
Proof.
  intros Hp1 Hp2 st t Gs T Hle HV Hok Hnone.
  destruct (reconcile_loop lv le S V ps1 st t Gs T le S Hle HV Hle Hok)
    as (st1 & t1 & Gs1 & res1 & Hrun1 & Hle1 & HV1 & Hres1 & Hok1).
  pose proof (reconcile_steps_other S V (primitive_name <$> ps1)
                (primitive_name x) Hp1 (T, S)) as Hnone1.
  simpl in Hnone1. rewrite Hnone in Hnone1.
  revert Hres1 Hok1 Hnone1.
  destruct (foldl (reconcile_step S V) (T, S) (primitive_name <$> ps1))
    as [T1 R1]. simpl. intros Hres1 Hok1 Hnone1.
  assert (t1 !! primitive_name x = None) as Ht1.
  { destruct Hok1 as (H1 & _). by rewrite H1, Hnone1. }
  destruct (reconcile_primitive_run lv le S V st1 t1 Gs1 T1 res1 R1 x)
    as (st2 & t2 & Gs2 & res2 & (Hrun2 & Hle2 & HV2 & Hres2 & Hok2)
        & _ & _ & Hnew); try done.
  destruct (Hnew Ht1) as (r & L & -> & Hr).
  pose proof Hok1 as (_ & H2 & H3 & _).
  pose proof (Forall2_length _ _ _ H3) as Hlen.
  revert Hres2 Hok2. unfold reconcile_step. simpl. rewrite Hnone1. simpl.
  intros Hres2 Hok2.
  destruct (reconcile_loop_frame ps2 (primitive_name x) (length (groups T1))
              L r (ObjDict (<["ignore_variables" := lv]>
                              (<["ignore_entities" := le]> ∅)))
              Hp2 st2 t2 _ _ res2 R1 Hle2 HV2 Hres2 Hok2)
    as (st3 & t3 & res3 & Hrun3 & Ht3 & HL3 & Hr3).
  - simpl. apply lookup_insert_eq.
  - simpl. intros q. destruct (decide (q = primitive_name x)) as [->|Hne];
      [done|].
    rewrite lookup_insert_ne by done. intros Hq.
    pose proof (H2 q _ Hq). lia.
  - rewrite <-Hlen. by apply list_lookup_middle.
  - exact Hr.
  - exists st3, t3, res3, L, r. split; [|done].
    rewrite for_fold_app. rewrite (bind_run_ok _ _ st _ st1 Hrun1).
    simpl. by rewrite (bind_run_ok _ _ st1 _ st2 Hrun2).
Qed.

End DefaultRecord.

(** The same for [generate_all_primitive_options]: a primitive that the
    options do not name and that [all_primitives] lists once. *)
Lemma generate_all_primitive_options_alias
    (get_aggregation_primitives get_transform_primitives : gmap string primitive)
    (all_primitives : list primitive_ref)
    (primitive_options : list (primitive_key * raw_options))
    (ignore_entities ignore_variables : loc) (es : list entity)
    (S : gset string) (V : gmap string (gset string))
    (st st' : state) (t : gmap string loc) (res : loc)
    (p : string) (ps1 ps2 : list string) :
  is_set st ignore_entities S → is_vardict st ignore_variables V →
  generate_all_primitive_options get_aggregation_primitives
    get_transform_primitives all_primitives primitive_options
    ignore_entities ignore_variables es st = (Ok (t, res), st') →
  p ∉ primitive_options.*1 ≫= key_names →
  primitive_name <$> all_primitives = ps1 ++ p :: ps2 →
  p ∉ ps1 → p ∉ ps2 →
  ∃ L r,
    t !! p = Some L ∧ heap st' !! L = Some (ObjList [r]) ∧
    heap st' !! r
    = Some (ObjDict (<["ignore_variables" := ignore_variables]>
                       (<["ignore_entities" := ignore_entities]> ∅))).
Proof.
  intros Hle HV Hrun Hp Hnames Hp1 Hp2.
  apply fmap_app_inv in Hnames as (l1 & l2' & -> & Hcons & ->).
  symmetry in Hcons.
  apply fmap_cons_inv in Hcons as (x & l2 & -> & -> & ->).
  unfold generate_all_primitive_options, _init_primitive_options in Hrun.
  assert (ignore_variables < length (heap st)) as Hlv.
  { destruct HV as (d & Hd & _). by eapply lookup_lt_Some. }
  pose proof (init_primitive_options_loop get_aggregation_primitives
                get_transform_primitives ignore_variables (entityset_dict es)
                primitive_options st ∅ [] (Table ∅ [])
                (table_ok_empty ignore_variables st) Hlv) as Hinit.
  destruct (table_of_options _ _ primitive_options (Table ∅ []))
    as [T0|e] eqn:HT0.
  - destruct Hinit as (st1 & t1 & Gs1 & Hrun1 & Hev1 & Hok1).
    rewrite (bind_run_ok _ _ st t1 st1 Hrun1) in Hrun.
    assert (is_set st1 ignore_entities S) as Hle1
      by (by apply (is_set_evolves ∅ st)).
    assert (is_vardict st1 ignore_variables V) as HV1.
    { apply (is_vardict_evolves ∅ st); [done| |done]. apply not_elem_of_empty. }
    pose proof (table_of_options_other _ _ _ _ _ _ HT0 Hp) as Hnone.
    simpl in Hnone. rewrite lookup_empty in Hnone.
    destruct (reconcile_loop_default ignore_variables ignore_entities S V
                l1 l2 x Hp1 Hp2 st1 t1 Gs1 T0 Hle1 HV1 Hok1 Hnone)
      as (st2 & t2 & res2 & L & r & Hrun2 & Hres).
    rewrite Hrun2 in Hrun. injection Hrun as <- <- <-.
    by exists L, r.
  - destruct Hinit as (st1 & Hrun1 & _).
    by rewrite (bind_run_raise _ _ st e st1 Hrun1) in Hrun.
Qed.

Section TableWf.

Variable get_aggregation_primitives get_transform_primitives
  : gmap string primitive.

Lemma table_of_entry_wf (T T' : table) (item : primitive_key * raw_options) :
  table_wf T →
  table_of_entry get_aggregation_primitives get_transform_primitives T item
  = Ok T' →
  table_wf T'.
Proof.
  intros Hwf. unfold table_of_entry.
  destruct (entry_records _ _ item) as [recs|]; simpl; [|done].
  destruct (register_names _ _ _) as [m|] eqn:Hreg; simpl; [|done].
  intros [= <-] p g Hp. simpl in *. rewrite length_app. simpl.
  assert (g ≤ length (groups T)); [|lia].
  apply (register_names_bound _ _ _ _ Hreg) with (p := p); [|done].
  intros p' g' Hp'. pose proof (Hwf p' g' Hp'). lia.
Qed.

Lemma table_of_options_wf (entries : list (primitive_key * raw_options)) :
  ∀ T T', table_wf T →
          table_of_options get_aggregation_primitives get_transform_primitives
            entries T = Ok T' →
          table_wf T'.
Proof.
  induction entries as [|item entries IH]; intros T T' Hwf; simpl.
  - by intros [= <-].
  - destruct (table_of_entry _ _ T item) as [T1|] eqn:H1; simpl; [|done].
    apply IH. by apply (table_of_entry_wf T T1 item).
Qed.

Lemma reconciled_loop_inv (all_primitives : list primitive_ref)
    (primitive_options : list (primitive_key * raw_options))
    (S : gset string) (V : gmap string (gset string)) (TR : table * gset string) :
  reconciled get_aggregation_primitives get_transform_primitives
    all_primitives primitive_options S V = Ok TR →
  ∃ T0,
    table_of_options get_aggregation_primitives get_transform_primitives
      primitive_options (Table ∅ []) = Ok T0 ∧
    table_wf T0 ∧
    loop_inv S T0 (primitive_name <$> all_primitives) TR.
Proof.
  unfold reconciled.
  destruct (table_of_options _ _ primitive_options (Table ∅ [])) as [T0|] eqn:H0;
    simpl; [|done].
  intros [= <-]. exists T0. split; [done|].
  assert (table_wf T0) as Hwf.
  { apply (table_of_options_wf primitive_options (Table ∅ []) T0); [|done].
    intros p g. simpl. by rewrite lookup_empty. }
  split; [done|].
  apply (loop_inv_foldl S V T0 _ Hwf [] (T0, S)), loop_inv_init.
Qed.

(** C2, amended: when the call returns, the residual set is the global
    [ignore_entities] less the included entities of every primitive of
    [all_primitives] that has options of its own, so an entity such a
    primitive includes is not in it; and each record of a primitive with
    options of its own is reconciled from the user's: an entity the
    primitive includes is in the record's [ignore_entities] afterwards
    exactly when the user's own record listed it. *)
Theorem generate_all_primitive_options_ignore_entities
    (all_primitives : list primitive_ref)
    (primitive_options : list (primitive_key * raw_options))
    (ignore_entities ignore_variables : loc) (es : list entity)
    (S : gset string) (V : gmap string (gset string))
    (st st' : state) (t : gmap string loc) (res : loc) :
  is_set st ignore_entities S → is_vardict st ignore_variables V →
  generate_all_primitive_options get_aggregation_primitives
    get_transform_primitives all_primitives primitive_options
    ignore_entities ignore_variables es st = (Ok (t, res), st') →
  ∃ T0 R,
    table_of_options get_aggregation_primitives get_transform_primitives
      primitive_options (Table ∅ []) = Ok T0 ∧
    read_set st' res = Some R ∧
    R = S ∖ ⋃ (explicit_included T0 <$> (primitive_name <$> all_primitives)) ∧
    (∀ p X, p ∈ primitive_name <$> all_primitives →
            X ∈ explicit_included T0 p → X ∉ R) ∧
    ∀ p recs0,
      table_records T0 !! p = Some recs0 →
      ∃ recs,
        read_table st' t !! p = Some recs ∧
        Forall2 (reconciled_from S (included_of_records recs0)) recs recs0 ∧
        ∀ X, X ∈ included_of_records recs0 →
             Forall2 (λ rec rec0, X ∈ ignore_entities_of rec
                                  ↔ X ∈ ignore_entities_of rec0) recs recs0.
Proof.
  intros Hle HV Hrun.
  pose proof (generate_all_primitive_options_reconciled
                get_aggregation_primitives get_transform_primitives
                all_primitives primitive_options ignore_entities
                ignore_variables es st S V Hle HV) as Href.
  destruct (reconciled _ _ all_primitives primitive_options S V)
    as [TR|e] eqn:Hrec.
  2:{ destruct Href as (st1 & Hrun1 & _). congruence. }
  destruct Href as (t1 & res1 & st1 & Hrun1 & Htab & Hres & _).
  rewrite Hrun in Hrun1. injection Hrun1 as <- <- <-.
  destruct (reconciled_loop_inv _ _ S V TR Hrec)
    as (T0 & HT0 & Hwf & Hlen & Hold & Hnew & Hrecs & Hdef & HR).
  exists T0, TR.2. split; [done|]. split; [done|]. split; [done|]. split.
  - intros p X Hp HX. rewrite HR. intros [_ Hnot]%elem_of_difference.
    apply Hnot. apply elem_of_union_list. exists (explicit_included T0 p).
    split; [|done]. apply list_elem_of_fmap. by exists p.
  - intros p recs0 Hp. unfold table_records in Hp.
    rewrite lookup_omap in Hp.
    destruct (group_of T0 !! p) as [g|] eqn:Hg; [|done]. simpl in Hp.
    destruct (Hrecs g recs0 Hp) as (recs & Hgr & Hall).
    exists recs. split; [|split; [done|]].
    + rewrite Htab. unfold table_records. rewrite lookup_omap.
      rewrite (Hold p g Hg). simpl. done.
    + intros X HX. eapply Forall2_impl; [exact Hall|].
      intros rec rec0 (_ & Hsub & Hsup). split.
      * intros Hin. apply Hsup in Hin.
        apply elem_of_union in Hin as [Hin|Hin]; [done|].
        apply elem_of_difference in Hin as [_ Hnot]. by destruct Hnot.
      * apply Hsub.
Qed.

(** C4, amended: the contents of the caller's [ignore_entities] and
    [ignore_variables] are the same after the call as before, whether it
    returns or raises; two calls whose arguments have the same contents
    return tables and residual sets with the same contents, or raise the
    same exception; and in the table returned, the list of a primitive that
    the options do not name and that [all_primitives] lists once holds one
    record, whose two entries are the caller's two objects themselves, not
    copies. *)
Theorem generate_all_primitive_options_pure
    (all_primitives : list primitive_ref)
    (primitive_options : list (primitive_key * raw_options))
    (ignore_entities ignore_variables : loc) (es : list entity)
    (S : gset string) (V : gmap string (gset string)) (st : state) :
  is_set st ignore_entities S → is_vardict st ignore_variables V →
  let run := generate_all_primitive_options get_aggregation_primitives
               get_transform_primitives all_primitives primitive_options
               ignore_entities ignore_variables es st in
  (read_set run.2 ignore_entities = Some S ∧
   read_vardict run.2 ignore_variables = Some V) ∧
  (∀ ignore_entities' ignore_variables' es' st',
     is_set st' ignore_entities' S → is_vardict st' ignore_variables' V →
     let run' := generate_all_primitive_options get_aggregation_primitives
                   get_transform_primitives all_primitives primitive_options
                   ignore_entities' ignore_variables' es' st' in
     match run.1, run'.1 with
     | Ok (t, res), Ok (t', res') =>
         read_table run.2 t = read_table run'.2 t' ∧
         read_set run.2 res = read_set run'.2 res'
     | Raise e, Raise e' => e = e'
     | _, _ => False
     end) ∧
  (∀ (t : gmap string loc) (res : loc) (p : string) (ps1 ps2 : list string),
     run.1 = Ok (t, res) →
     p ∉ primitive_options.*1 ≫= key_names →
     primitive_name <$> all_primitives = ps1 ++ p :: ps2 →
     p ∉ ps1 → p ∉ ps2 →
     ∃ L r,
       t !! p = Some L ∧
       heap run.2 !! L = Some (ObjList [r]) ∧
       heap run.2 !! r
       = Some (ObjDict (<["ignore_variables" := ignore_variables]>
                          (<["ignore_entities" := ignore_entities]> ∅)))).
Proof.
  intros Hle HV run.
  pose proof (generate_all_primitive_options_reconciled
                get_aggregation_primitives get_transform_primitives
                all_primitives primitive_options ignore_entities
                ignore_variables es st S V Hle HV) as Href.
  fold run in Href. split; [|split].
  - destruct (reconciled _ _ all_primitives primitive_options S V) as [TR|e].
    + destruct Href as (t & res & st1 & -> & _ & _ & ? & ?). by split.
    + destruct Href as (st1 & -> & ? & ?). by split.
  - intros le' lv' es' st' Hle' HV' run'.
    pose proof (generate_all_primitive_options_reconciled
                  get_aggregation_primitives get_transform_primitives
                  all_primitives primitive_options le' lv' es' st' S V
                  Hle' HV') as Href'.
    fold run' in Href'.
    destruct (reconciled _ _ all_primitives primitive_options S V) as [TR|e].
    + destruct Href as (t & res & st1 & -> & Ht & Hr & _).
      destruct Href' as (t' & res' & st1' & -> & Ht' & Hr' & _). simpl.
      split; congruence.
    + destruct Href as (st1 & -> & _). by destruct Href' as (st1' & -> & _).
  - intros t res p ps1 ps2 Hrun Hp Hnames Hp1 Hp2.
    apply (generate_all_primitive_options_alias get_aggregation_primitives
             get_transform_primitives all_primitives primitive_options
             ignore_entities ignore_variables es S V st run.2 t res p ps1 ps2);
      try done.
    clear Href. fold run. clearbody run. destruct run as [r1 st1].
    simpl in Hrun. by subst r1.
Qed.

End TableWf.

(** C2 as stated fails: the primitive "sum" includes entity "X" and its
    own record also lists "X" in [ignore_entities]; with "X" in the global
    [ignore_entities], "X" is a member of the record's [ignore_entities]
    after reconciliation. *)
Lemma generate_all_primitive_options_ignore_entities_counterexample :
  let registry : gmap string primitive :=
    {[ "sum" := Primitive "sum" [VariableType "Numeric"] ]} in
  let st := State [ObjSet {[ "X" ]}; ObjDict ∅] [] in
  let run :=
    generate_all_primitive_options registry ∅ [ByName "sum"]
      [(PKName "sum",
        OptionDict [("include_entities", RawList ["X"]);
                    ("ignore_entities", RawList ["X"])])]
      0 1 [Entity "X" ["a"]] st in
  let rec : option_record :=
    {[ "ignore_entities" := OSet {[ "X" ]};
       "ignore_variables" := OMap ∅;
       "include_entities" := OSet {[ "X" ]} ]} in
  read_set st 0 = Some {[ "X" ]} ∧
  match run.1 with
  | Ok (t, res) => read_table run.2 t !! "sum"
  | Raise _ => None
  end = Some [rec] ∧
  bool_decide ("X" ∈ included_of_record rec) = true ∧
  bool_decide ("X" ∈ ignore_entities_of rec) = true.
Proof.
  intros registry st run rec. split; [reflexivity|].
  split; [vm_compute; reflexivity|]. split; vm_compute; reflexivity.
Qed.

Lemma generate_all_primitive_options_ignore_entities_witness :
  let registry : gmap string primitive :=
    {[ "sum" := Primitive "sum" [VariableType "Numeric"] ]} in
  let st := State [ObjSet {[ "X"; "Y" ]}; ObjDict ∅] [] in
  let all_primitives := [ByName "sum"; ByName "count"] in
  let primitive_options :=
    [(PKName "sum", OptionDict [("include_entities", RawList ["X"])])] in
  is_set st 0 {[ "X"; "Y" ]} ∧ is_vardict st 1 ∅ ∧
  ∃ t res st',
    generate_all_primitive_options registry ∅ all_primitives primitive_options
      0 1 [Entity "X" ["a"]] st = (Ok (t, res), st') ∧
    ∃ T0 R,
      table_of_options registry ∅ primitive_options (Table ∅ []) = Ok T0 ∧
      read_set st' res = Some R ∧
      R = {[ "X"; "Y" ]}
          ∖ ⋃ (explicit_included T0 <$> (primitive_name <$> all_primitives)) ∧
      (∀ p X, p ∈ primitive_name <$> all_primitives →
              X ∈ explicit_included T0 p → X ∉ R) ∧
      ∀ p recs0,
        table_records T0 !! p = Some recs0 →
        ∃ recs,
          read_table st' t !! p = Some recs ∧
          Forall2 (reconciled_from {[ "X"; "Y" ]} (included_of_records recs0))
                  recs recs0 ∧
          ∀ X, X ∈ included_of_records recs0 →
               Forall2 (λ rec rec0, X ∈ ignore_entities_of rec
                                    ↔ X ∈ ignore_entities_of rec0) recs recs0.
Proof.
  intros registry st all_primitives primitive_options.
  assert (is_set st 0 {[ "X"; "Y" ]}) as Hle by reflexivity.
  assert (is_vardict st 1 ∅) as HV.
  { exists ∅. split; [reflexivity|]. intros k. rewrite !lookup_empty. constructor. }
  split; [exact Hle|]. split; [exact HV|].
  destruct (generate_all_primitive_options registry ∅ all_primitives
              primitive_options 0 1 [Entity "X" ["a"]] st)
    as [[[t res]|e] st'] eqn:Hrun.
  - exists t, res, st'. split; [reflexivity|].
    exact (generate_all_primitive_options_ignore_entities registry ∅
             all_primitives primitive_options 0 1 [Entity "X" ["a"]]
             {[ "X"; "Y" ]} ∅ st st' t res Hle HV Hrun).
  - exfalso. vm_compute in Hrun. discriminate Hrun.
Defined.

(** C4 as stated fails: the record made for "count", a primitive without
    options, is not a copy: its two entries are the caller's objects, at
    locations 0 and 2.  When "count" occurs twice in [all_primitives], the
    second pass assigns to the entries of the caller's dict: its entry "e"
    then refers to a new set, with the same contents. *)
Lemma generate_all_primitive_options_pure_counterexample :
  let st := State [ObjSet {[ "X" ]}; ObjSet {[ "v" ]}; ObjDict {[ "e" := 1 ]}] [] in
  let run := generate_all_primitive_options ∅ ∅ [ByName "count"] [] 0 2 [] st in
  let twice :=
    generate_all_primitive_options ∅ ∅ [ByName "count"; ByName "count"] []
      0 2 [] st in
  run.1 = Ok ({[ "count" := 4 ]}, 0) ∧
  heap run.2 !! 4 = Some (ObjList [3]) ∧
  heap run.2 !! 3
  = Some (ObjDict {[ "ignore_entities" := 0; "ignore_variables" := 2 ]}) ∧
  heap st !! 2 = Some (ObjDict {[ "e" := 1 ]}) ∧
  heap twice.2 !! 2 = Some (ObjDict {[ "e" := 7 ]}).
Proof.
  intros st run twice. repeat split; vm_compute; reflexivity.
Qed.

(** The caller's objects hold {"X"} and {"e": {"v"}}: they still do after
    a run that meets "count" twice; and after a run that meets it once, the
    record of "count" refers to them, at locations 0 and 2. *)
Lemma generate_all_primitive_options_pure_witness :
  let registry : gmap string primitive :=
    {[ "sum" := Primitive "sum" [VariableType "Numeric"] ]} in
  let st := State [ObjSet {[ "X" ]}; ObjSet {[ "v" ]}; ObjDict {[ "e" := 1 ]}] [] in
  let primitive_options :=
    [(PKName "sum", OptionDict [("include_entities", RawList ["X"])])] in
  let run := generate_all_primitive_options registry ∅
               [ByName "sum"; ByName "count"; ByName "count"]
               primitive_options 0 2 [] st in
  let once := generate_all_primitive_options registry ∅
                [ByName "sum"; ByName "count"] primitive_options 0 2 [] st in
  is_set st 0 {[ "X" ]} ∧ is_vardict st 2 {[ "e" := {[ "v" ]} ]} ∧
  read_set run.2 0 = Some {[ "X" ]} ∧
  read_vardict run.2 2 = Some {[ "e" := {[ "v" ]} ]} ∧
  ∃ t res L r,
    once.1 = Ok (t, res) ∧ t !! "count" = Some L ∧
    heap once.2 !! L = Some (ObjList [r]) ∧
    heap once.2 !! r
    = Some (ObjDict (<["ignore_variables" := 2]> (<["ignore_entities" := 0]> ∅))).
Proof.
  intros registry st primitive_options run once.
  assert (is_set st 0 {[ "X" ]}) as Hle by reflexivity.
  assert (is_vardict st 2 {[ "e" := {[ "v" ]} ]}) as HV.
  { exists {[ "e" := 1 ]}. split; [reflexivity|]. intros k.
    destruct (decide (k = "e")) as [->|Hne].
    - rewrite !lookup_singleton_eq. by constructor.
    - rewrite !lookup_singleton_ne by done. constructor. }
  split; [exact Hle|]. split; [exact HV|].
  pose proof (generate_all_primitive_options_pure registry ∅
              [ByName "sum"; ByName "count"; ByName "count"]
              primitive_options 0 2 [] {[ "X" ]} {[ "e" := {[ "v" ]} ]}
              st Hle HV) as Hrun.
  pose proof (generate_all_primitive_options_pure registry ∅
              [ByName "sum"; ByName "count"] primitive_options 0 2 []
              {[ "X" ]} {[ "e" := {[ "v" ]} ]} st Hle HV) as Honce.
  cbv zeta in Hrun, Honce. fold run in Hrun. fold once in Honce.
  destruct Hrun as [[Hset Hdict] _]. destruct Honce as (_ & _ & Halias).
  split; [exact Hset|]. split; [exact Hdict|].
  assert ("count" ∉ primitive_options.*1 ≫= key_names) as Hp by by_compute.
  assert (primitive_name <$> [ByName "sum"; ByName "count"]
          = ["sum"] ++ "count" :: []) as Hnames by reflexivity.
  assert ("count" ∉ ["sum"]) as Hp1 by by_compute.
  assert ("count" ∉ @nil string) as Hp2 by apply not_elem_of_nil.
  assert (match once.1 with Ok _ => true | Raise _ => false end = true) as Hok
    by (vm_compute; reflexivity).
  clearbody once.
  destruct once as [[[t res]|e] st']; [|discriminate Hok].
  exists t, res.
  specialize (Halias t res "count" ["sum"] []).
  specialize (Halias eq_refl).
  specialize (Halias Hp).
  specialize (Halias Hnames).
  specialize (Halias Hp1 Hp2).
  destruct Halias as (L & r & Ht & HL & Hr).
  exists L, r. split; [reflexivity|]. split; [exact Ht|].
  split; [exact HL|exact Hr].
Defined.

(** * Further properties *)

(** A closed run does not raise: settled by evaluating it. *)
Ltac by_run_ok :=
  match goal with
  | |- ?run = (Raise _, _) → False =>
      let H := fresh in
      let Hrun := fresh in
      assert (match run.1 with Ok _ => true | Raise _ => false end = true)
        as H by (vm_compute; reflexivity);
      intros Hrun; rewrite Hrun in H; discriminate H
  | |- ?r = Raise _ → False =>
      let H := fresh in
      let Hr := fresh in
      assert (match r with Ok _ => true | Raise _ => false end = true)
        as H by (vm_compute; reflexivity);
      intros Hr; rewrite Hr in H; discriminate H
  end.

(** ** The filters on single features *)

(** X1: a feature that is not an identity feature passes the direct
    variable filter of every option dict, whatever keys the dict has. *)
Theorem variable_filter_other (O : option_record) (e n : string) :
  _variable_filter_generator O (OtherFeature e n) = Ok true.
Proof.
  unfold _variable_filter_generator. by destruct (has_key O "include_variables").
Qed.

Lemma normalized_groupby_shape (O : option_record) (k : string) (v : optval) :
  normalized O → k ∈ variable_option_keys → O !! k = Some v → ∃ m, v = OMap m.
Proof.
  intros HO Hk Hv. pose proof (normalized_shape O k v HO Hv) as Hs.
  destruct v as [s|m]; [|eauto]. simpl in Hs.
  apply bool_decide_eq_true in Hs.
  unfold variable_option_keys, entity_option_keys in *.
  rewrite !elem_of_cons, elem_of_nil in Hk, Hs.
  destruct Hk as [->|[->|[->|[->|[]]]]];
    destruct Hs as [?|[?|[?|[?|[]]]]]; discriminate.
Qed.

Lemma passes_include_groupby_identity (O : option_record)
    (m : gmap string (gset string)) (e v : string) :
  O !! "include_groupby_variables" = Some (OMap m) →
  passes_include_groupby_filter O (IdentityFeature e v)
  = Ok (entity_listed (Some (OMap m)) e && column_listed (Some (OMap m)) e v).
Proof.
  intros Hinc. unfold passes_include_groupby_filter, getitem. rewrite Hinc.
  simpl. destruct (m !! e) as [s|] eqn:He.
  - rewrite bool_decide_eq_true_2 by eauto. by simpl.
  - by rewrite bool_decide_eq_false_2 by (by intros [? ?]).
Qed.

Lemma passes_ignore_groupby_identity (O : option_record)
    (m : gmap string (gset string)) (e v : string) :
  O !! "ignore_groupby_variables" = Some (OMap m) →
  passes_ignore_groupby_filter O (IdentityFeature e v)
  = Ok (negb (entity_listed (Some (OMap m)) e)
        || negb (column_listed (Some (OMap m)) e v)).
Proof.
  intros Hign. unfold passes_ignore_groupby_filter, getitem. rewrite Hign.
  simpl. destruct (m !! e) as [s|] eqn:He.
  - rewrite !bool_decide_eq_true_2 by eauto. by simpl.
  - by rewrite bool_decide_eq_false_2 by (by intros [? ?]).
Qed.

Lemma groupby_filter_identity (O : option_record) (e v : string) :
  normalized O →
  _groupby_filter_generator O (IdentityFeature e v)
  = Ok (groupby_filter_passes O e v).
Proof.
  intros HO. unfold _groupby_filter_generator, groupby_filter_passes, has_key.
  assert (∀ k, k ∈ variable_option_keys → ∀ x, O !! k = Some x → ∃ m, x = OMap m)
    as Hshape by (intros k Hk x Hx; by eapply normalized_groupby_shape).
  assert ("include_groupby_variables" ∈ variable_option_keys) as Hki
    by by_compute.
  assert ("ignore_groupby_variables" ∈ variable_option_keys) as Hkg
    by by_compute.
  destruct (O !! "include_groupby_variables") as [inc|] eqn:Hinc;
    destruct (O !! "ignore_groupby_variables") as [ign|] eqn:Hign.
  - destruct (Hshape _ Hki inc Hinc) as [mi ->].
    destruct (Hshape _ Hkg ign Hign) as [mg ->].
    rewrite !bool_decide_eq_true_2 by eauto.
    cbn [andb].
    rewrite (passes_include_groupby_identity O mi e v Hinc).
    rewrite (passes_ignore_groupby_identity O mg e v Hign).
    unfold getitem. rewrite Hinc.
    cbn [result_bind py_in feature_entity_id entity_listed column_listed].
    destruct (mi !! e) as [s|] eqn:He.
    + rewrite !bool_decide_eq_true_2 by eauto.
      by destruct (bool_decide (v ∈ s)).
    + by rewrite !bool_decide_eq_false_2 by (by intros [? ?]).
  - destruct (Hshape _ Hki inc Hinc) as [mi ->].
    rewrite bool_decide_eq_true_2 by eauto.
    rewrite bool_decide_eq_false_2 by (by intros [? ?]).
    cbn [andb].
    rewrite (passes_include_groupby_identity O mi e v Hinc).
    unfold getitem. rewrite Hinc.
    cbn [result_bind py_in feature_entity_id entity_listed column_listed].
    destruct (mi !! e) as [s|] eqn:He.
    + rewrite !bool_decide_eq_true_2 by eauto.
      by destruct (bool_decide (v ∈ s)).
    + by rewrite !bool_decide_eq_false_2 by (by intros [? ?]).
  - destruct (Hshape _ Hkg ign Hign) as [mg ->].
    rewrite bool_decide_eq_false_2 by (by intros [? ?]).
    rewrite bool_decide_eq_true_2 by eauto.
    cbn [andb].
    by rewrite (passes_ignore_groupby_identity O mg e v Hign).
  - by rewrite !bool_decide_eq_false_2 by (by intros [? ?]).
Qed.

(** X2: on a normalised record the groupby filter returns, for an identity
    feature, the verdict of the case the record is in: with both
    [include_groupby_variables] and [ignore_groupby_variables], (entity
    listed and column included) or (entity not listed and not ignored);
    with only the include key, (entity listed and column included) or
    entity not listed; with only the ignore key, not ignored; with neither,
    it passes. *)
Theorem groupby_filter_spec (O : option_record) (e v : string) :
  normalized O →
  _groupby_filter_generator O (IdentityFeature e v)
  = Ok (groupby_filter_passes O e v).
Proof. apply groupby_filter_identity. Qed.

Lemma groupby_filter_spec_witness :
  let O : option_record :=
    {[ "include_groupby_variables" := OMap {[ "customers" := {[ "zip" ]} ]};
       "ignore_variables" := OMap ∅; "ignore_entities" := OSet ∅ ]} in
  normalized O ∧
  _groupby_filter_generator O (IdentityFeature "customers" "zip")
  = Ok (groupby_filter_passes O "customers" "zip").
Proof.
  intros O.
  assert (normalized O) as HO.
  { repeat split; [by eexists; vm_compute ..|].
    apply map_Forall_to_list. vm_compute. by repeat constructor. }
  split; [exact HO|]. exact (groupby_filter_spec O _ _ HO).
Defined.

Lemma groupby_filter_returns_other (O : option_record) (e n : string) :
  ∃ b, _groupby_filter_generator O (OtherFeature e n) = Ok b.
Proof.
  unfold _groupby_filter_generator, has_key, getitem.
  destruct (O !! "include_groupby_variables") as [inc|] eqn:Hinc;
    destruct (O !! "ignore_groupby_variables") as [ign|] eqn:Hign;
    rewrite ?bool_decide_eq_true_2 by eauto;
    rewrite ?bool_decide_eq_false_2 by (by intros [? ?]); simpl; eauto.
  destruct (py_in e inc); simpl; eauto.
Qed.

Lemma variable_filter_returns (O : option_record) (f : feature) :
  normalized O → ∃ b, _variable_filter_generator O f = Ok b.
Proof.
  intros HO. destruct f as [e v|e n].
  - unfold _variable_filter_generator, has_key.
    destruct (O !! "include_variables") as [inc|] eqn:Hinc.
    + rewrite bool_decide_eq_true_2 by eauto. cbv beta.
      rewrite (passes_ignore_filter_spec O e v HO).
      destruct (normalized_include_variables O inc HO Hinc) as [m ->].
      unfold passes_include_filter, getitem. rewrite Hinc.
      cbn [result_bind py_in subscript feature_entity_id].
      destruct (m !! e) as [s|] eqn:He.
      * rewrite !bool_decide_eq_true_2 by eauto. simpl.
        destruct (bool_decide (v ∈ s)); simpl; eauto.
      * rewrite !bool_decide_eq_false_2 by (by intros [? ?]). simpl. eauto.
    + rewrite bool_decide_eq_false_2 by (by intros [? ?]). cbv beta.
      rewrite (passes_ignore_filter_spec O e v HO). eauto.
  - exists true. unfold _variable_filter_generator.
    by destruct (has_key O "include_variables").
Qed.

Lemma generator_returns (groupby : bool) (O : option_record) (f : feature) :
  normalized O → ∃ b, generator groupby O f = Ok b.
Proof.
  intros HO. destruct groupby; simpl.
  - destruct f as [e v|e n].
    + rewrite (groupby_filter_identity O e v HO). eauto.
    + apply groupby_filter_returns_other.
  - by apply variable_filter_returns.
Qed.

(** ** Whole matches *)

(** X3: with one record, a match is valid exactly when every feature of it
    passes that record's filter; a feature whose check raises makes the
    match not valid (the call raises). *)
Theorem is_valid_match_single (groupby : bool) (O : option_record)
    (m : match_) :
  is_valid_match groupby [O] m = Ok true
  ↔ Forall (λ f, generator groupby O f = Ok true) m.
Proof.
  unfold is_valid_match. rewrite bool_decide_eq_false_2 by (simpl; lia).
  simpl. apply all_comprehension_true.
Qed.

Lemma Forall_zip_filters {A B} (g : A → B → result bool) (os : list A) :
  ∀ m : list B, length m = length os →
  Forall (λ p : (B → result bool) * B, p.1 p.2 = Ok true) (zip (map g os) m)
  ↔ Forall2 (λ O f, g O f = Ok true) os m.
Proof.
  induction os as [|O os IH]; intros [|f m] Hlen; simpl in *; try lia.
  - split; constructor.
  - rewrite Forall_cons, Forall2_cons, IH by lia. done.
Qed.

(** X4: with several records and a match of as many features, the match is
    valid exactly when the feature at each position passes the filter of
    the record at that position. *)
Theorem is_valid_match_positions (groupby : bool) (options : list option_record)
    (m : match_) :
  1 < length options → length m = length options →
  is_valid_match groupby options m = Ok true
  ↔ Forall2 (λ O f, generator groupby O f = Ok true) options m.
Proof.
  intros Hlen Hm. rewrite is_valid_match_several by done.
  rewrite all_comprehension_true. by apply Forall_zip_filters.
Qed.

Lemma is_valid_match_positions_witness :
  let O1 : option_record :=
    {[ "ignore_variables" := OMap {[ "transactions" := {[ "amount" ]} ]};
       "ignore_entities" := OSet ∅ ]} in
  let O2 : option_record :=
    {[ "ignore_variables" := OMap ∅; "ignore_entities" := OSet ∅ ]} in
  let id_ := IdentityFeature "transactions" "id" in
  let amount := IdentityFeature "transactions" "amount" in
  1 < length [O1; O2] ∧ length [id_; amount] = length [O1; O2] ∧
  (is_valid_match false [O1; O2] [id_; amount] = Ok true
   ↔ Forall2 (λ O f, generator false O f = Ok true) [O1; O2] [id_; amount]).
Proof.
  intros O1 O2 id_ amount.
  assert (1 < length [O1; O2]) as H1 by (simpl; lia).
  assert (length [id_; amount] = length [O1; O2]) as H2 by reflexivity.
  split; [exact H1|]. split; [exact H2|].
  exact (is_valid_match_positions false [O1; O2] [id_; amount] H1 H2).
Defined.

(** ** The set of valid matches *)

Lemma tuple_eq_refl `{FeatureBase} (m : match_) : tuple_eq m m = Ok true.
Proof.
  induction m as [|f m IH]; simpl; [done|].
  by rewrite bool_decide_eq_true_2.
Qed.

Lemma set_search_found `{FeatureBase} (startkeys : list match_) (key : match_) :
  set_search startkeys key = Ok true →
  ∃ k, k ∈ startkeys ∧ tuple_eq k key = Ok true.
Proof.
  induction startkeys as [|k ks IH]; simpl; [done|].
  destruct (tuple_eq k key) as [[]|] eqn:Hk; simpl; [| |done].
  - intros _. exists k. split; [left|done].
  - intros (k' & Hin & Hk')%IH. exists k'. split; [by right|done].
Qed.

Lemma set_search_not_found `{FeatureBase} (startkeys : list match_)
    (key : match_) :
  set_search startkeys key = Ok false →
  ∀ k, k ∈ startkeys → tuple_eq k key = Ok false.
Proof.
  induction startkeys as [|k ks IH]; simpl; intros Hs k' Hin.
  - by apply elem_of_nil in Hin.
  - destruct (tuple_eq k key) as [[]|] eqn:Hk; simpl in Hs; [done| |done].
    apply elem_of_cons in Hin as [->|Hin]; [done|by apply IH].
Qed.

Lemma probed_keys `{Interpreter} (h : Z) (s : py_set) (k : match_) :
  k ∈ probe h (filter (λ e, e.1 = h) s).*2 ↔ (h, k) ∈ s.
Proof.
  rewrite (probe_order h), list_elem_of_fmap. split.
  - intros ([h' k'] & Hk & [Hh Hin]%list_elem_of_filter). simpl in *.
    by subst h' k'.
  - intros Hin. exists (h, k). split; [done|].
    by apply list_elem_of_filter.
Qed.

(** [add] leaves the set as it is when an entry of the same hash equals the
    new tuple, and appends the tuple when every such entry differs from
    it. *)
Lemma set_add_inv `{FeatureBase} `{Interpreter} (s s' : py_set) (m : match_) :
  set_add s m = Ok s' →
  ∃ h, hash_match m = Ok h ∧
       ((s' = s ∧ ∃ k, (h, k) ∈ s ∧ tuple_eq k m = Ok true)
        ∨ (s' = s ++ [(h, m)] ∧ ∀ k, (h, k) ∈ s → tuple_eq k m = Ok false)).
Proof.
  unfold set_add. destruct (hash_match m) as [h|]; simpl; [|done].
  destruct (set_search _ m) as [[]|] eqn:Hs; simpl; [| |done];
    intros [= <-]; exists h; (split; [done|]).
  - left. split; [done|].
    apply set_search_found in Hs as (k & Hin & Hk).
    exists k. split; [by apply probed_keys|done].
  - right. split; [done|]. intros k Hin.
    apply (set_search_not_found _ _ Hs). by apply probed_keys.
Qed.

(** The entries of a set are stored under the hashes of their keys. *)
Definition hashed `{FeatureBase} `{Interpreter} (s : py_set) : Prop :=
  ∀ h k, (h, k) ∈ s → hash_match k = Ok h.

Lemma filter_loop_sound `{FeatureBase} `{Interpreter} (groupby : bool)
    (options : list option_record) (matches : list match_) :
  ∀ acc s : py_set,
    filter_loop groupby options matches acc = Ok s →
    ∀ h m, (h, m) ∈ s →
           (h, m) ∈ acc
           ∨ (m ∈ matches ∧ is_valid_match groupby options m = Ok true
              ∧ hash_match m = Ok h).
Proof.
  induction matches as [|a rest IH]; intros acc s Hs h m Hin; simpl in Hs.
  - injection Hs as <-. by left.
  - destruct (is_valid_match groupby options a) as [b|] eqn:Ha; simpl in Hs;
      [|done].
    destruct b; simpl in Hs.
    + destruct (set_add acc a) as [acc'|] eqn:Hadd; simpl in Hs; [|done].
      destruct (IH _ _ Hs h m Hin) as [Hacc|(Hm & Hv & Hh)].
      * apply set_add_inv in Hadd as (h' & Hh' & [[-> _]|[-> _]]);
          [by left|].
        apply elem_of_app in Hacc as [?|[= -> ->]%list_elem_of_singleton];
          [by left|].
        right. split; [left|done].
      * right. split; [by right|done].
    + destruct (IH _ _ Hs h m Hin) as [?|(Hm & Hv & Hh)]; [by left|].
      right. split; [by right|done].
Qed.

Lemma filter_loop_grows `{FeatureBase} `{Interpreter} (groupby : bool)
    (options : list option_record) (matches : list match_) :
  ∀ acc s : py_set,
    filter_loop groupby options matches acc = Ok s → acc ⊆ s.
Proof.
  induction matches as [|a rest IH]; intros acc s Hs; simpl in Hs.
  - by injection Hs as <-.
  - destruct (is_valid_match groupby options a) as [[]|]; simpl in Hs;
      [|by apply IH|done].
    destruct (set_add acc a) as [acc'|] eqn:Hadd; simpl in Hs; [|done].
    apply IH in Hs.
    apply set_add_inv in Hadd as (h' & Hh' & [[-> _]|[-> _]]); [done|].
    intros e He. apply Hs, elem_of_app. by left.
Qed.

Lemma filter_loop_complete `{FeatureBase} `{Interpreter} (groupby : bool)
    (options : list option_record) (matches : list match_) :
  ∀ acc s : py_set,
    filter_loop groupby options matches acc = Ok s →
    ∀ m, m ∈ matches → is_valid_match groupby options m = Ok true →
         ∃ h m', (h, m') ∈ s ∧ hash_match m = Ok h ∧ tuple_eq m' m = Ok true.
Proof.
  induction matches as [|a rest IH]; intros acc s Hs m Hin Hv; simpl in Hs.
  - by apply elem_of_nil in Hin.
  - destruct (is_valid_match groupby options a) as [b|] eqn:Ha; simpl in Hs;
      [|done].
    apply elem_of_cons in Hin as [->|Hin].
    + rewrite Hv in Ha. injection Ha as <-. simpl in Hs.
      destruct (set_add acc a) as [acc'|] eqn:Hadd; simpl in Hs; [|done].
      pose proof (filter_loop_grows _ _ _ _ _ Hs) as Hsub.
      apply set_add_inv in Hadd as (h & Hh & [[-> (k & Hk & Heq)]|[-> _]]).
      * exists h, k. split; [by apply Hsub|done].
      * exists h, a. split; [|split; [done|apply tuple_eq_refl]].
        apply Hsub, elem_of_app. right. by apply list_elem_of_singleton.
    + destruct (if b then set_add acc a else Ok acc) as [acc'|]; simpl in Hs;
        [|done].
      by apply (IH _ _ Hs).
Qed.

Lemma filter_loop_NoDup `{FeatureBase} `{Interpreter} (groupby : bool)
    (options : list option_record) (matches : list match_) :
  ∀ acc s : py_set,
    filter_loop groupby options matches acc = Ok s →
    hashed acc → NoDup acc.*2 → NoDup s.*2.
Proof.
  induction matches as [|a rest IH]; intros acc s Hs Hacc Hnd; simpl in Hs.
  - by injection Hs as <-.
  - destruct (is_valid_match groupby options a) as [[]|]; simpl in Hs;
      [|by apply (IH acc)|done].
    destruct (set_add acc a) as [acc'|] eqn:Hadd; simpl in Hs; [|done].
    apply set_add_inv in Hadd as (h & Hh & [[-> _]|[-> Hnew]]);
      [by apply (IH acc)|].
    apply (IH _ _ Hs).
    + intros h' k [Hin|[= -> ->]%list_elem_of_singleton]%elem_of_app;
        [by apply Hacc|done].
    + rewrite fmap_app. apply NoDup_app. split; [done|]. split.
      * intros k ([h' k'] & Hk & Hin)%list_elem_of_fmap
          Hka%list_elem_of_singleton. simpl in *. subst k k'.
        pose proof (Hacc _ _ Hin) as Hh'. rewrite Hh in Hh'.
        injection Hh' as <-. pose proof (Hnew _ Hin) as Hne.
        by rewrite tuple_eq_refl in Hne.
      * apply NoDup_singleton.
Qed.

Lemma filter_loop_checks `{FeatureBase} `{Interpreter} (groupby : bool)
    (options : list option_record) (matches : list match_) :
  ∀ acc s : py_set,
    filter_loop groupby options matches acc = Ok s →
    Forall (λ m, ∃ b, is_valid_match groupby options m = Ok b) matches.
Proof.
  induction matches as [|a rest IH]; intros acc s Hs; simpl in Hs.
  - constructor.
  - destruct (is_valid_match groupby options a) as [b|] eqn:Ha; simpl in Hs;
      [|done].
    destruct (if b then set_add acc a else Ok acc) as [acc'|]; simpl in Hs;
      [|done].
    constructor; [by exists b|by apply (IH acc' s)].
Qed.

(** When neither [__hash__] nor [__eq__] raises, [add] returns. *)
Lemma tuple_eq_returns `{FeatureBase} (v w : match_) :
  (∀ f g, ∃ b, feature_eq f g = Ok b) → ∃ b, tuple_eq v w = Ok b.
Proof.
  intros Heq. revert w.
  induction v as [|f v IH]; intros [|g w]; simpl; eauto.
  case_bool_decide; simpl; [apply IH|].
  destruct (Heq f g) as [[] ->]; simpl; eauto.
Qed.

Lemma set_search_returns `{FeatureBase} (startkeys : list match_)
    (key : match_) :
  (∀ f g, ∃ b, feature_eq f g = Ok b) → ∃ b, set_search startkeys key = Ok b.
Proof.
  intros Heq. induction startkeys as [|k ks IH]; simpl; [eauto|].
  destruct (tuple_eq_returns k key Heq) as [[] ->]; simpl; eauto.
Qed.

Lemma set_add_returns `{FeatureBase} `{Interpreter} (s : py_set) (m : match_) :
  (∀ f, ∃ h, feature_hash f = Ok h) → (∀ f g, ∃ b, feature_eq f g = Ok b) →
  ∃ s', set_add s m = Ok s'.
Proof.
  intros Hhash Heq. unfold set_add, hash_match.
  destruct (proj2 (comprehension_returns feature_hash m)) as [hs ->].
  { apply Forall_forall. intros f _. apply Hhash. }
  simpl.
  destruct (set_search_returns
              (probe (tuple_hash hs) (filter (λ e, e.1 = tuple_hash hs) s).*2)
              m Heq) as [b ->].
  simpl. eauto.
Qed.

Lemma filter_loop_returns `{FeatureBase} `{Interpreter} (groupby : bool)
    (options : list option_record) (matches : list match_) :
  (∀ f, ∃ h, feature_hash f = Ok h) → (∀ f g, ∃ b, feature_eq f g = Ok b) →
  Forall (λ m, ∃ b, is_valid_match groupby options m = Ok b) matches →
  ∀ acc : py_set, ∃ s, filter_loop groupby options matches acc = Ok s.
Proof.
  intros Hhash Heq. induction 1 as [|a rest [b Ha] _ IH]; intros acc; simpl.
  - eauto.
  - rewrite Ha. simpl. destruct b; [|apply IH].
    destruct (set_add_returns acc a Hhash Heq) as [acc' ->]. apply IH.
Qed.

(** The set returned holds valid candidates only, each under its hash and
    none twice, and every valid candidate equals, by [==] on tuples, one
    that the set holds. *)
Lemma filter_matches_valid `{FeatureBase} `{Interpreter}
    (matches : list match_) (options : list option_record) (groupby : bool)
    (s : py_set) :
  filter_matches_by_options matches options groupby = Ok s →
  (∀ h m, (h, m) ∈ s →
          m ∈ matches ∧ is_valid_match groupby options m = Ok true
          ∧ hash_match m = Ok h) ∧
  (∀ m, m ∈ matches → is_valid_match groupby options m = Ok true →
        ∃ h m', (h, m') ∈ s ∧ hash_match m = Ok h ∧ tuple_eq m' m = Ok true) ∧
  NoDup s.*2.
Proof.
  unfold filter_matches_by_options. intros Hs. split; [|split].
  - intros h m Hin.
    destruct (filter_loop_sound _ _ _ _ _ Hs h m Hin) as [Hacc|?]; [|done].
    by apply elem_of_nil in Hacc.
  - by apply (filter_loop_complete _ _ _ _ _ Hs).
  - apply (filter_loop_NoDup _ _ _ _ _ Hs); [|constructor].
    intros h k Hin. by apply elem_of_nil in Hin.
Qed.

(** X5: the set [filter_matches_by_options] returns holds candidate matches
    that are valid, and no other tuple; each is stored under its hash, and
    none twice.  Every valid candidate is in the set or equals, by [==] on
    tuples, a valid candidate of the same hash that is: [add] stores a
    tuple only when no stored tuple of that hash equals it. *)
Theorem filter_matches_by_options_spec `{FeatureBase} `{Interpreter}
    (matches : list match_) (options : list option_record) (groupby : bool)
    (s : py_set) :
  filter_matches_by_options matches options groupby = Ok s →
  (∀ h m, (h, m) ∈ s →
          m ∈ matches ∧ is_valid_match groupby options m = Ok true
          ∧ hash_match m = Ok h) ∧
  (∀ m, m ∈ matches → is_valid_match groupby options m = Ok true →
        ∃ h m', (h, m') ∈ s ∧ hash_match m = Ok h ∧ tuple_eq m' m = Ok true) ∧
  NoDup s.*2.
Proof. apply filter_matches_valid. Qed.

(** Of four candidates, the second is not valid, the third is the first
    again, and the fourth is a feature that [==] makes equal to the first:
    the set holds the first only. *)
Lemma filter_matches_by_options_spec_witness :
  let features : FeatureBase := sample_features in
  let interpreter : Interpreter := sample_interpreter in
  let O : option_record :=
    {[ "ignore_variables" := OMap {[ "transactions" := {[ "amount" ]} ]};
       "ignore_entities" := OSet ∅ ]} in
  let id_ := [IdentityFeature "transactions" "id"] in
  let amount := [IdentityFeature "transactions" "amount"] in
  let other := [OtherFeature "transactions" "id"] in
  let matches := [id_; amount; id_; other] in
  let s : py_set := [(0%Z, id_)] in
  filter_matches_by_options matches [O] false = Ok s ∧
  (∀ h m, (h, m) ∈ s →
          m ∈ matches ∧ is_valid_match false [O] m = Ok true
          ∧ hash_match m = Ok h) ∧
  (∀ m, m ∈ matches → is_valid_match false [O] m = Ok true →
        ∃ h m', (h, m') ∈ s ∧ hash_match m = Ok h ∧ tuple_eq m' m = Ok true) ∧
  NoDup s.*2.
Proof.
  intros features interpreter O id_ amount other matches s.
  assert (filter_matches_by_options matches [O] false = Ok s) as H
    by (vm_compute; reflexivity).
  split; [exact H|].
  exact (filter_matches_by_options_spec matches [O] false s H).
Defined.

(** X6: when [filter_matches_by_options] returns a set, the check of every
    candidate match has returned: one raising check makes the whole call
    raise.  Conversely, when the check of every candidate returns, the call
    returns a set provided [__hash__] and [__eq__] of features do not
    raise: nothing else in it can. *)
Theorem filter_matches_by_options_returns `{FeatureBase} `{Interpreter}
    (matches : list match_) (options : list option_record) (groupby : bool) :
  ((∃ s, filter_matches_by_options matches options groupby = Ok s) →
   Forall (λ m, ∃ b, is_valid_match groupby options m = Ok b) matches) ∧
  ((∀ f, ∃ h, feature_hash f = Ok h) → (∀ f g, ∃ b, feature_eq f g = Ok b) →
   Forall (λ m, ∃ b, is_valid_match groupby options m = Ok b) matches →
   ∃ s, filter_matches_by_options matches options groupby = Ok s).
Proof.
  split.
  - intros [s Hs]. by apply (filter_loop_checks _ _ _ _ _ Hs).
  - intros Hhash Heq Hall. by apply filter_loop_returns.
Qed.

Lemma is_valid_match_normalized (groupby : bool) (options : list option_record)
    (m : match_) :
  options ≠ [] → Forall normalized options →
  ∃ b, is_valid_match groupby options m = Ok b.
Proof.
  intros Hne Hnorm. unfold is_valid_match. case_bool_decide as Hlen.
  - destruct (proj2 (comprehension_returns
        (λ p : (feature → result bool) * feature, p.1 p.2)
        (zip (map (generator groupby) options) m))) as [bs Hbs].
    + clear Hlen Hne. revert m.
      induction Hnorm as [|O os HO _ IH]; intros [|f m]; simpl;
        try constructor; [|apply IH].
      by apply generator_returns.
    + rewrite Hbs. simpl. eauto.
  - destruct options as [|O os]; [done|]. simpl.
    apply Forall_inv in Hnorm.
    destruct (proj2 (comprehension_returns (generator groupby O) m))
      as [bs Hbs].
    + apply Forall_forall. intros f _. by apply generator_returns.
    + rewrite Hbs. simpl. eauto.
Qed.

(** X7: on a non-empty list of normalised records the check of a match
    never raises, in direct and in groupby mode; so
    [filter_matches_by_options] returns a set, whatever the candidate
    matches, when [__hash__] and [__eq__] of features do not raise. *)
Theorem filter_matches_by_options_normalized `{FeatureBase} `{Interpreter}
    (matches : list match_) (options : list option_record) (groupby : bool) :
  options ≠ [] → Forall normalized options →
  (∀ m, ∃ b, is_valid_match groupby options m = Ok b) ∧
  ((∀ f, ∃ h, feature_hash f = Ok h) → (∀ f g, ∃ b, feature_eq f g = Ok b) →
   ∃ s, filter_matches_by_options matches options groupby = Ok s).
Proof.
  intros Hne Hnorm. split.
  - intros m. by apply is_valid_match_normalized.
  - intros Hhash Heq. apply filter_loop_returns; [done|done|].
    apply Forall_forall. intros m _. by apply is_valid_match_normalized.
Qed.

Lemma filter_matches_by_options_normalized_witness :
  let features : FeatureBase := sample_features in
  let interpreter : Interpreter := sample_interpreter in
  let O : option_record :=
    {[ "ignore_variables" := OMap {[ "transactions" := {[ "amount" ]} ]};
       "ignore_entities" := OSet ∅ ]} in
  let m := [IdentityFeature "transactions" "amount"; OtherFeature "customers" "SUM"] in
  [O] ≠ [] ∧ Forall normalized [O] ∧
  (∃ b, is_valid_match true [O] m = Ok b) ∧
  ∃ s, filter_matches_by_options [m] [O] true = Ok s.
Proof.
  intros features interpreter O m.
  assert ([O] ≠ []) as H1 by discriminate.
  assert (Forall normalized [O]) as H2.
  { repeat constructor; [by eexists; vm_compute ..|].
    apply map_Forall_to_list. vm_compute. by repeat constructor. }
  split; [exact H1|]. split; [exact H2|].
  destruct (filter_matches_by_options_normalized [m] [O] true H1 H2)
    as [Hcheck Hset].
  split; [apply Hcheck|]. apply Hset.
  - intros f. by eexists.
  - intros f g. by eexists.
Defined.

(** ** Groupby matches *)

Lemma valid_singleton_match (groupby : bool) (O : option_record)
    (rest : list option_record) (g : feature) :
  is_valid_match groupby (O :: rest) [g] = Ok true
  ↔ generator groupby O g = Ok true.
Proof.
  unfold is_valid_match. case_bool_decide as Hlen.
  - destruct rest as [|O' rest]; [simpl in Hlen; lia|]. simpl.
    destruct (generator groupby O g) as [[]|]; simpl; done.
  - simpl. destruct (generator groupby O g) as [[]|]; simpl; done.
Qed.

(** X8: a groupby candidate is checked against the first record only,
    however many records the primitive has: the returned set holds
    one-element tuples of candidates that pass the groupby filter of the
    first record, and no other tuple; and every candidate that passes it
    is in the set, as a one-element tuple, or equals by [==] on tuples one
    that is. *)
Theorem filter_groupby_matches_first_record `{FeatureBase} `{Interpreter}
    (groupby_matches : list feature)
    (O : option_record) (rest : list option_record) (s : py_set) :
  filter_groupby_matches_by_options groupby_matches (O :: rest) = Ok s →
  (∀ h m, (h, m) ∈ s →
          ∃ g, m = [g] ∧ g ∈ groupby_matches
               ∧ _groupby_filter_generator O g = Ok true) ∧
  (∀ g, g ∈ groupby_matches → _groupby_filter_generator O g = Ok true →
        ∃ h m', (h, m') ∈ s ∧ hash_match [g] = Ok h
                ∧ tuple_eq m' [g] = Ok true).
Proof.
  intros Hs. unfold filter_groupby_matches_by_options in Hs.
  apply filter_matches_valid in Hs as (Hsound & Hcomplete & _). split.
  - intros h m Hin.
    destruct (Hsound h m Hin) as ((g & -> & Hg)%list_elem_of_fmap & Hv & _).
    exists g. by apply valid_singleton_match in Hv.
  - intros g Hg Hv. apply (Hcomplete [g]).
    + apply list_elem_of_fmap. by exists g.
    + by apply valid_singleton_match.
Qed.

Lemma filter_groupby_matches_first_record_witness :
  let features : FeatureBase := sample_features in
  let interpreter : Interpreter := sample_interpreter in
  let O1 : option_record :=
    {[ "ignore_groupby_variables" := OMap {[ "customers" := {[ "zip" ]} ]};
       "ignore_variables" := OMap ∅; "ignore_entities" := OSet ∅ ]} in
  let O2 : option_record :=
    {[ "ignore_groupby_variables" := OMap {[ "customers" := {[ "id" ]} ]};
       "ignore_variables" := OMap ∅; "ignore_entities" := OSet ∅ ]} in
  let id_ := IdentityFeature "customers" "id" in
  let zip_ := IdentityFeature "customers" "zip" in
  let s : py_set := [(0%Z, [id_])] in
  filter_groupby_matches_by_options [id_; zip_] [O1; O2] = Ok s ∧
  (∀ h m, (h, m) ∈ s →
          ∃ g, m = [g] ∧ g ∈ [id_; zip_]
               ∧ _groupby_filter_generator O1 g = Ok true) ∧
  (∀ g, g ∈ [id_; zip_] → _groupby_filter_generator O1 g = Ok true →
        ∃ h m', (h, m') ∈ s ∧ hash_match [g] = Ok h
                ∧ tuple_eq m' [g] = Ok true).
Proof.
  intros features interpreter O1 O2 id_ zip_ s.
  assert (filter_groupby_matches_by_options [id_; zip_] [O1; O2] = Ok s) as H
    by (vm_compute; reflexivity).
  split; [exact H|].
  exact (filter_groupby_matches_first_record [id_; zip_] O1 [O2] s H).
Defined.

(** ** The entity pre-filter *)

Lemma should_ignore_entity_spec (entity : string) (groupby : bool)
    (O : option_record) :
  is_Some (O !! "ignore_entities") →
  should_ignore_entity entity groupby O = Ok (record_excludes entity groupby O).
Proof.
  intros [ign Hign].
  unfold should_ignore_entity, record_excludes, getitem, present_and_contains.
  rewrite !Hign.
  destruct (present_and_excludes O "include_entities" entity
            || groupby && present_and_excludes O "include_groupby_entities" entity);
    simpl; [done|].
  by destruct (py_in entity ign); destruct groupby;
    destruct (O !! "ignore_groupby_entities") as [x|]; simpl;
    try destruct (py_in entity x).
Qed.



Lemma should_ignore_entity_groupby (entity : string) (O : option_record)
    (b : bool) :
  should_ignore_entity entity false O = Ok b →
  ∃ b', should_ignore_entity entity true O = Ok b' ∧ (b = true → b' = true).
Proof.
  unfold should_ignore_entity, getitem.
  destruct (present_and_excludes O "include_entities" entity); simpl.
  - intros [= <-]. eauto.
  - destruct (present_and_excludes O "include_groupby_entities" entity); simpl;
      [eauto|].
    destruct (O !! "ignore_entities") as [ign|]; simpl; [|done].
    destruct (py_in entity ign); simpl; intros [= <-]; [eauto|].
    destruct (present_and_contains O "ignore_groupby_entities" entity); eauto.
Qed.

(** X10: groupby mode is at least as strict as direct mode: an entity the
    pre-filter ignores for direct inputs is ignored as a groupby entity as
    well, and the groupby call raises nothing the direct call does not. *)
Theorem ignore_entity_groupby_stricter (options : list option_record)
    (entity : string) :
  ignore_entity_for_primitive options entity false = Ok true →
  ignore_entity_for_primitive options entity true = Ok true.
Proof.
  unfold ignore_entity_for_primitive.
  destruct (comprehension (should_ignore_entity entity false) options)
    as [bs|] eqn:Hbs; simpl; [|done].
  intros [= Hany].
  assert (∃ bs', comprehension (should_ignore_entity entity true) options = Ok bs'
                 ∧ (py_any bs = true → py_any bs' = true)) as (bs' & -> & Himp).
  { clear Hany. revert bs Hbs.
    induction options as [|O os IH]; intros bs; simpl.
    - intros [= <-]. eauto.
    - destruct (should_ignore_entity entity false O) as [b|] eqn:Hb; simpl;
        [|done].
      destruct (comprehension _ os) as [bs0|]; simpl; [|done].
      intros [= <-].
      destruct (should_ignore_entity_groupby entity O b Hb) as (b' & -> & Hbb).
      destruct (IH bs0 eq_refl) as (bs' & -> & Himp). simpl.
      eexists. split; [done|]. unfold py_any in *. simpl.
      destruct b; simpl; [by rewrite Hbb|].
      intros H. rewrite (Himp H). by destruct b'. }
  simpl. by rewrite Himp.
Qed.

Lemma ignore_entity_groupby_stricter_witness :
  let O : option_record :=
    {[ "include_entities" := OSet {[ "customers" ]};
       "ignore_entities" := OSet ∅; "ignore_variables" := OMap ∅ ]} in
  ignore_entity_for_primitive [O] "transactions" false = Ok true ∧
  ignore_entity_for_primitive [O] "transactions" true = Ok true.
Proof.
  intros O.
  assert (ignore_entity_for_primitive [O] "transactions" false = Ok true) as H
    by (by vm_compute).
  split; [exact H|].
  exact (ignore_entity_groupby_stricter [O] "transactions" H).
Defined.

(** ** Normalisation of one option dict *)

(** X11: [_init_option_dict] reads the entityset for its warnings only:
    what it returns or raises is the same for every entityset and every
    store, and all it does to the state is to append output. *)
Theorem init_option_dict_entityset (key : primitive_key) (d : raw_option_dict)
    (es es' : gmap string (list string)) (st st' : state) :
  (_init_option_dict key d es st).1 = (_init_option_dict key d es' st').1 ∧
  ∃ o, (_init_option_dict key d es st).2 = State (heap st) (out st ++ o).
Proof.
  split.
  - by rewrite !(emits_result _ _ _ (init_option_dict_emits key d _)).
  - destruct (init_option_dict_emits key d es st) as [o Ho].
    exists o. by rewrite Ho.
Qed.

(** X12: [_init_option_dict] returns a record exactly when every key of the
    raw dict is one of the eight option keys and holds a value of the shape
    of that key: a list for an entity key, a dict whose values are all lists
    for a variable key. *)
Theorem init_option_dict_accepts (key : primitive_key) (d : raw_option_dict)
    (es : gmap string (list string)) (st : state) :
  (∃ r, (_init_option_dict key d es st).1 = Ok r)
  ↔ Forall (λ item, shape_ok item.1 item.2 = Some true) d.
Proof.
  rewrite (emits_result _ _ st (init_option_dict_emits key d es)).
  rewrite <- (first_rejection_None key). unfold normal_form.
  destruct (first_rejection key d) as [e|].
  - split; [by intros [? ?]|done].
  - split; [done|eauto].
Qed.

Lemma shape_ok_convert (k : string) (v : raw_value) :
  shape_ok k v = Some true → is_Some (convert v).
Proof.
  intros Hs. destruct v as [l|vd|]; simpl.
  - eauto.
  - destruct (shape_ok_dict k vd Hs) as [m ->]. eauto.
  - unfold shape_ok in Hs. repeat case_bool_decide; simplify_eq.
Qed.

Lemma foldl_store_option_dom (d : raw_option_dict) :
  ∀ acc : option_record,
    Forall (λ item, shape_ok item.1 item.2 = Some true) d →
    dom (foldl store_option acc d) = dom acc ∪ list_to_set d.*1.
Proof.
  induction d as [|[k v] d IH]; intros acc Hd; simpl.
  - by rewrite union_empty_r_L.
  - apply Forall_cons in Hd as [Hkv Hd]. rewrite (IH _ Hd).
    unfold store_option. simpl.
    destruct (shape_ok_convert k v Hkv) as [x ->].
    rewrite dom_insert_L. set_solver.
Qed.

Lemma default_lookup (r : option_record) (k0 : string) (v0 : optval)
    (k : string) :
  (if bool_decide (is_Some (r !! k0)) then r else <[k0 := v0]> r) !! k
  = match r !! k with
    | Some x => Some x
    | None => if bool_decide (k = k0) then Some v0 else None
    end.
Proof.
  case_bool_decide as H0.
  - destruct (r !! k) eqn:Hk; [done|].
    case_bool_decide as Hkk; [|done]. subst k. rewrite Hk in H0.
    by destruct H0.
  - destruct (decide (k = k0)) as [->|Hne].
    + rewrite lookup_insert_eq. destruct (r !! k0) eqn:Hk.
      * destruct H0. eauto.
      * by rewrite bool_decide_eq_true_2.
    + rewrite lookup_insert_ne by done. destruct (r !! k); [done|].
      by rewrite bool_decide_eq_false_2.
Qed.

Lemma with_defaults_lookup (r : option_record) (k : string) :
  with_defaults r !! k
  = match r !! k with
    | Some x => Some x
    | None => if bool_decide (k = "ignore_entities") then Some (OSet ∅)
              else if bool_decide (k = "ignore_variables") then Some (OMap ∅)
              else None
    end.
Proof.
  unfold with_defaults, has_key. rewrite !default_lookup.
  destruct (r !! k); [done|]. by repeat case_bool_decide; simplify_eq.
Qed.

Lemma with_defaults_dom (r : option_record) :
  dom (with_defaults r) = dom r ∪ {[ "ignore_entities"; "ignore_variables" ]}.
Proof.
  apply set_eq. intros k.
  rewrite elem_of_union, !elem_of_dom, with_defaults_lookup.
  rewrite elem_of_union, !elem_of_singleton.
  destruct (r !! k) as [x|]; [split; eauto|].
  repeat case_bool_decide; subst; split; eauto;
    intros [[? ?]|[?|?]]; done.
Qed.

Lemma normal_form_Ok (key : primitive_key) (d : raw_option_dict)
    (r : option_record) :
  normal_form key d = Ok r →
  Forall (λ item, shape_ok item.1 item.2 = Some true) d ∧
  r = with_defaults (foldl store_option ∅ d).
Proof.
  unfold normal_form. destruct (first_rejection key d) as [e|] eqn:Hrej; [done|].
  intros [= <-]. split; [by apply (first_rejection_None key)|done].
Qed.

(** X13: the record [_init_option_dict] returns has the keys the user gave
    and, besides, [ignore_entities] and [ignore_variables]: an include key
    or a groupby key is present only when the user gave it, and the two
    defaults are empty. *)
Theorem init_option_dict_keys (key : primitive_key) (d : raw_option_dict)
    (es : gmap string (list string)) (st : state) (r : option_record) :
  (_init_option_dict key d es st).1 = Ok r →
  dom r = list_to_set d.*1 ∪ {[ "ignore_entities"; "ignore_variables" ]} ∧
  ("ignore_entities" ∉ d.*1 → r !! "ignore_entities" = Some (OSet ∅)) ∧
  ("ignore_variables" ∉ d.*1 → r !! "ignore_variables" = Some (OMap ∅)).
Proof.
  rewrite (emits_result _ _ st (init_option_dict_emits key d es)).
  intros [Hd ->]%normal_form_Ok.
  pose proof (foldl_store_option_dom d ∅ Hd) as Hdom.
  rewrite dom_empty_L, union_empty_l_L in Hdom.
  split; [by rewrite with_defaults_dom, Hdom|].
  split; intros Hk; rewrite with_defaults_lookup;
    (rewrite (proj1 (not_elem_of_dom (D:=gset string) _ _));
     [done|rewrite Hdom; by rewrite elem_of_list_to_set]).
Qed.

Lemma init_option_dict_keys_witness :
  let d := [("include_entities", RawList ["customers"])] in
  ∃ r, (_init_option_dict (PKName "sum") d ∅ (State [] [])).1 = Ok r ∧
       dom r = list_to_set d.*1 ∪ {[ "ignore_entities"; "ignore_variables" ]}.
Proof.
  intros d.
  destruct ((_init_option_dict (PKName "sum") d ∅ (State [] [])).1)
    as [r|e] eqn:H; [|exfalso; revert H; by_run_ok].
  exists r. split; [reflexivity|].
  exact (proj1 (init_option_dict_keys _ _ _ _ _ H)).
Defined.

Lemma foldl_store_option_lookup_ne (d : raw_option_dict) (k : string) :
  ∀ acc : option_record,
    k ∉ d.*1 → foldl store_option acc d !! k = acc !! k.
Proof.
  induction d as [|[k0 v0] d IH]; intros acc Hk; simpl; [done|].
  rewrite fmap_cons, not_elem_of_cons in Hk. destruct Hk as [Hne Hk].
  rewrite (IH _ Hk). unfold store_option. simpl.
  destruct (convert v0); [|done]. by rewrite lookup_insert_ne.
Qed.

Lemma foldl_store_option_lookup (d : raw_option_dict) (k : string)
    (v : raw_value) (x : optval) :
  ∀ acc : option_record,
    NoDup d.*1 → (k, v) ∈ d → convert v = Some x →
    foldl store_option acc d !! k = Some x.
Proof.
  induction d as [|[k0 v0] d IH]; intros acc Hnd Hin Hx; simpl.
  - by apply elem_of_nil in Hin.
  - rewrite fmap_cons in Hnd. apply NoDup_cons in Hnd as [Hk0 Hnd].
    apply elem_of_cons in Hin as [[= <- <-]|Hin].
    + rewrite foldl_store_option_lookup_ne by done.
      unfold store_option. simpl. rewrite Hx. by rewrite lookup_insert_eq.
    + by apply IH.
Qed.

Lemma set_values_dom (vd : list (string * raw_value)) :
  ∀ (acc m : gmap string (gset string)),
    set_values vd acc = Ok m → dom m = dom acc ∪ list_to_set vd.*1.
Proof.
  induction vd as [|[e v] vd IH]; intros acc m; simpl.
  - intros [= <-]. by rewrite union_empty_r_L.
  - destruct (raw_set v) as [s|]; simpl; [|done].
    intros Hm. rewrite (IH _ _ Hm), dom_insert_L. set_solver.
Qed.

Lemma set_values_lookup_ne (vd : list (string * raw_value)) (e : string) :
  ∀ (acc m : gmap string (gset string)),
    set_values vd acc = Ok m → e ∉ vd.*1 → m !! e = acc !! e.
Proof.
  induction vd as [|[e0 v0] vd IH]; intros acc m; simpl.
  - by intros [= <-].
  - destruct (raw_set v0) as [s|]; simpl; [|done].
    intros Hm Hk. rewrite not_elem_of_cons in Hk. destruct Hk as [Hne Hk].
    rewrite (IH _ _ Hm Hk). by rewrite lookup_insert_ne.
Qed.

Lemma set_values_lookup (vd : list (string * raw_value)) (e : string)
    (vars : list string) :
  ∀ (acc m : gmap string (gset string)),
    set_values vd acc = Ok m → NoDup vd.*1 → (e, RawList vars) ∈ vd →
    m !! e = Some (list_to_set vars).
Proof.
  induction vd as [|[e0 v0] vd IH]; intros acc m; simpl.
  - intros _ _ Hin. by apply elem_of_nil in Hin.
  - destruct (raw_set v0) as [s|] eqn:Hs; simpl; [|done].
    intros Hm Hnd Hin. apply NoDup_cons in Hnd as [He0 Hnd].
    apply elem_of_cons in Hin as [[= <- <-]|Hin].
    + rewrite (set_values_lookup_ne _ _ _ _ Hm He0).
      rewrite lookup_insert_eq. simpl in Hs. by injection Hs as <-.
    + by apply (IH _ _ Hm).
Qed.

(** X14: in the record [_init_option_dict] returns, a list of entity ids
    has become the set of its elements, and a dict of variable lists has
    become a dict with the same keys whose values are the sets of the
    lists' elements. *)
Theorem init_option_dict_values (key : primitive_key) (d : raw_option_dict)
    (es : gmap string (list string)) (st : state) (r : option_record) :
  (_init_option_dict key d es st).1 = Ok r → NoDup d.*1 →
  (∀ k l, (k, RawList l) ∈ d → r !! k = Some (OSet (list_to_set l))) ∧
  (∀ k vd, (k, RawDict vd) ∈ d → NoDup vd.*1 →
     ∃ m, r !! k = Some (OMap m) ∧ dom m = list_to_set vd.*1 ∧
          ∀ e vars, (e, RawList vars) ∈ vd → m !! e = Some (list_to_set vars)).
Proof.
  rewrite (emits_result _ _ st (init_option_dict_emits key d es)).
  intros [Hd ->]%normal_form_Ok Hnd. split.
  - intros k l Hin. rewrite with_defaults_lookup.
    by rewrite (foldl_store_option_lookup d k (RawList l) _ ∅ Hnd Hin eq_refl).
  - intros k vd Hin Hvd.
    pose proof (proj1 (Forall_forall _ _) Hd _ Hin) as Hs. simpl in Hs.
    destruct (shape_ok_dict k vd Hs) as [m Hm]. exists m.
    split; [|split].
    + rewrite with_defaults_lookup.
      rewrite (foldl_store_option_lookup d k (RawDict vd) (OMap m) ∅ Hnd Hin);
        [done|]. simpl. by rewrite Hm.
    + rewrite (set_values_dom _ _ _ Hm). by rewrite dom_empty_L, union_empty_l_L.
    + intros e vars He. by apply (set_values_lookup vd e vars ∅ m).
Qed.

Lemma init_option_dict_values_witness :
  let d := [("ignore_entities", RawList ["customers"; "customers"]);
            ("include_variables",
             RawDict [("transactions", RawList ["amount"; "id"; "amount"])])] in
  NoDup d.*1 ∧
  ∃ r, (_init_option_dict (PKName "sum") d ∅ (State [] [])).1 = Ok r ∧
       r !! "ignore_entities"
       = Some (OSet (list_to_set ["customers"; "customers"])).
Proof.
  intros d.
  assert (NoDup d.*1) as Hnd by by_compute.
  split; [exact Hnd|].
  destruct ((_init_option_dict (PKName "sum") d ∅ (State [] [])).1)
    as [r|e] eqn:H; [|exfalso; revert H; by_run_ok].
  exists r. split; [reflexivity|].
  apply (proj1 (init_option_dict_values _ _ _ _ _ H Hnd)).
  constructor.
Defined.

(** ** Building the table of options *)

Lemma bind_inv_ok {A B} (m : M A) (k : A → M B) st b st' :
  bind m k st = (Ok b, st') →
  ∃ a st1, m st = (Ok a, st1) ∧ k a st1 = (Ok b, st').
Proof.
  unfold bind. destruct (m st) as [[a|e] st1]; [eauto|done].
Qed.

Lemma for_fold_returns {A S} (body : S → A → M S) :
  (∀ s x st, ∃ s' st', body s x st = (Ok s', st')) →
  ∀ l s st, ∃ s' st', for_fold l body s st = (Ok s', st').
Proof.
  intros Hbody. induction l as [|x l IH]; intros s st; simpl; [by eexists _, _|].
  destruct (Hbody s x st) as (s1 & st1 & H1).
  rewrite (bind_run_ok _ _ st s1 st1 H1). apply IH.
Qed.

Lemma for_list_returns {A B} (f : A → M B) :
  (∀ x st, ∃ y st', f x st = (Ok y, st')) →
  ∀ l st, ∃ ys st', for_list f l st = (Ok ys, st').
Proof.
  intros Hf. induction l as [|x l IH]; intros st; simpl; [by eexists _, _|].
  destruct (Hf x st) as (y & st1 & H1).
  rewrite (bind_run_ok _ _ st y st1 H1).
  destruct (IH st1) as (ys & st2 & H2).
  rewrite (bind_run_ok _ _ st1 ys st2 H2). by eexists _, _.
Qed.

Lemma alloc_gmap_returns {A} (f : A → M loc) (m : gmap string A) :
  (∀ a st, ∃ x st', f a st = (Ok x, st')) →
  ∀ st, ∃ d st', alloc_gmap f m st = (Ok d, st').
Proof.
  intros Hf st. apply for_fold_returns. intros d kv st0.
  destruct (Hf kv.2 st0) as (x & st1 & H1).
  rewrite (bind_run_ok _ _ st0 x st1 H1). by eexists _, _.
Qed.

Lemma alloc_record_returns (rec : option_record) (st : state) :
  ∃ r st', alloc_record rec st = (Ok r, st').
Proof.
  unfold alloc_record.
  destruct (alloc_gmap_returns alloc_optval rec) with (st := st)
    as (d & st1 & H1).
  { intros [s|m] st0; simpl; [by eexists _, _|].
    destruct (alloc_gmap_returns (λ s, alloc (ObjSet s)) m) with (st := st0)
      as (d & st1 & H1); [intros; by eexists _, _|].
    rewrite (bind_run_ok _ _ st0 d st1 H1). by eexists _, _. }
  rewrite (bind_run_ok _ _ st d st1 H1). by eexists _, _.
Qed.

(** The loop over the names of one key, with the list object [L] of the
    key. *)
Lemma register_loop_ok (L : loc) (names : list string) :
  ∀ (t t' : gmap string loc) st st',
    for_fold names
      (λ (flattened_options : gmap string loc) each_primitive,
         if bool_decide (is_Some (flattened_options !! each_primitive))
         then raise (MultipleOptions each_primitive)
         else ret (<[each_primitive := L]> flattened_options)) t st
    = (Ok t', st') →
    NoDup names ∧ (∀ n, n ∈ names → t !! n = None) ∧
    ∀ n, t' !! n = if bool_decide (n ∈ names) then Some L else t !! n.
Proof.
  induction names as [|n0 names IH]; intros t t' st st'; simpl.
  - intros [= <- <-]. split; [constructor|]. split.
    + intros n Hn. by apply elem_of_nil in Hn.
    + done.
  - unfold bind at 1. case_bool_decide as H0; [done|]. simpl.
    intros (Hnd & Hfresh & Hlook)%IH.
    assert (t !! n0 = None) as Hn0
      by (destruct (t !! n0) eqn:E; [destruct H0; eauto|done]).
    assert (n0 ∉ names) as Hnotin.
    { intros Hin. specialize (Hfresh n0 Hin). by rewrite lookup_insert_eq in Hfresh. }
    split; [by constructor|]. split.
    + intros n [->|Hn]%elem_of_cons; [done|].
      specialize (Hfresh n Hn).
      rewrite lookup_insert_ne in Hfresh; [done|]. by intros ->.
    + intros n. rewrite Hlook. destruct (decide (n = n0)) as [->|Hne].
      * rewrite (bool_decide_eq_false_2 (n0 ∈ names)) by done.
        rewrite bool_decide_eq_true_2 by (by left).
        by rewrite lookup_insert_eq.
      * rewrite lookup_insert_ne by done.
        case_bool_decide as Hin.
        -- by rewrite bool_decide_eq_true_2 by (by right).
        -- rewrite bool_decide_eq_false_2; [done|].
           by intros [?|?]%elem_of_cons.
Qed.

Lemma register_loop_raise (L : loc) (names : list string) :
  ∀ (t : gmap string loc) st,
    (∃ n, n ∈ names ∧ is_Some (t !! n)) ∨ ¬ NoDup names →
    ∃ n, n ∈ names ∧
      for_fold names
        (λ (flattened_options : gmap string loc) each_primitive,
           if bool_decide (is_Some (flattened_options !! each_primitive))
           then raise (MultipleOptions each_primitive)
           else ret (<[each_primitive := L]> flattened_options)) t st
      = (Raise (MultipleOptions n), st).
Proof.
  induction names as [|n0 names IH]; intros t st Hdup; simpl.
  - destruct Hdup as [(n & Hn & _)|Hnd].
    + by apply elem_of_nil in Hn.
    + destruct Hnd. constructor.
  - unfold bind at 1. case_bool_decide as H0.
    + exists n0. split; [by left|done].
    + simpl. destruct (IH (<[n0 := L]> t) st) as (n & Hn & Hrun).
      * destruct (decide (n0 ∈ names)) as [Hin|Hnotin].
        { left. exists n0. split; [done|]. rewrite lookup_insert_eq. eauto. }
        destruct Hdup as [(n & [->|Hn]%elem_of_cons & Hsome)|Hnd].
        -- by destruct H0.
        -- left. exists n. split; [done|].
           rewrite lookup_insert_ne; [done|]. by intros ->.
        -- right. intros Hnd'. apply Hnd. by constructor.
      * exists n. split; [by right|done].
Qed.

Section TableBuilder.

Variable get_aggregation_primitives get_transform_primitives
  : gmap string primitive.

Lemma init_entry_inv (es : gmap string (list string)) (t t' : gmap string loc)
    (item : primitive_key * raw_options) st st' :
  init_entry get_aggregation_primitives get_transform_primitives es t item st
  = (Ok t', st') →
  NoDup (key_names item.1) ∧ (∀ n, n ∈ key_names item.1 → t !! n = None) ∧
  ∃ L, ∀ n, t' !! n = if bool_decide (n ∈ key_names item.1) then Some L
                      else t !! n.
Proof.
  unfold init_entry.
  intros (options & st1 & _ & H)%bind_inv_ok.
  apply bind_inv_ok in H as (records & st2 & _ & H).
  apply bind_inv_ok in H as (L & st3 & _ & H).
  apply register_loop_ok in H as (Hnd & Hfresh & Hlook). eauto.
Qed.

Lemma init_entry_duplicate (es : gmap string (list string))
    (t : gmap string loc) (item : primitive_key * raw_options)
    (recs : list option_record) st :
  entry_records get_aggregation_primitives get_transform_primitives item
  = Ok recs →
  (∃ n, n ∈ key_names item.1 ∧ is_Some (t !! n)) ∨ ¬ NoDup (key_names item.1) →
  ∃ n st', n ∈ key_names item.1 ∧
    init_entry get_aggregation_primitives get_transform_primitives es t item st
    = (Raise (MultipleOptions n), st').
Proof.
  intros Hrecs Hdup. unfold init_entry.
  destruct (entry_records_emits get_aggregation_primitives
              get_transform_primitives es item st) as [o Hrun].
  rewrite Hrecs in Hrun.
  rewrite (bind_run_ok _ _ st recs _ Hrun).
  destruct (for_list_returns alloc_record alloc_record_returns recs
              (State (heap st) (out st ++ o))) as (records & st2 & H2).
  rewrite (bind_run_ok _ _ _ records st2 H2).
  unfold bind at 1. simpl.
  destruct (register_loop_raise (length (heap st2)) (key_names item.1) t
              (State (heap st2 ++ [ObjList records]) (out st2)) Hdup)
    as (n & Hn & Hraise).
  exists n. eexists. split; [done|]. exact Hraise.
Qed.

(** X15: a primitive named by two keys, or twice by one tuple key, is
    refused: when the entries before have been accepted and the entry's own
    option dicts are accepted, [_init_primitive_options] raises the
    "multiple options" error for a name of that entry. *)
Theorem init_primitive_options_duplicate
    (entries1 entries2 : list (primitive_key * raw_options))
    (key : primitive_key) (opts : raw_options) (recs : list option_record)
    (es : gmap string (list string)) (st st1 : state) (t1 : gmap string loc) :
  _init_primitive_options get_aggregation_primitives get_transform_primitives
    entries1 es st = (Ok t1, st1) →
  entry_records get_aggregation_primitives get_transform_primitives (key, opts)
  = Ok recs →
  (∃ n, n ∈ key_names key ∧ is_Some (t1 !! n)) ∨ ¬ NoDup (key_names key) →
  ∃ n st2, n ∈ key_names key ∧
    _init_primitive_options get_aggregation_primitives get_transform_primitives
      (entries1 ++ (key, opts) :: entries2) es st
    = (Raise (MultipleOptions n), st2).
Proof.
  intros Hrun1 Hrecs Hdup. unfold _init_primitive_options in *.
  destruct (init_entry_duplicate es t1 (key, opts) recs st1 Hrecs Hdup)
    as (n & st2 & Hn & Hraise).
  exists n, st2. split; [done|].
  rewrite for_fold_app. rewrite (bind_run_ok _ _ st t1 st1 Hrun1).
  simpl. by rewrite (bind_run_raise _ _ st1 _ st2 Hraise).
Qed.

(** X16: options given as a list for a key that names no registered
    primitive, as every tuple key does, end in an attribute error as soon as
    the entries before have been accepted. *)
Theorem init_primitive_options_unregistered
    (entries1 entries2 : list (primitive_key * raw_options))
    (key : primitive_key) (l : list raw_option_dict)
    (es : gmap string (list string)) (st : state) :
  find_primitive get_aggregation_primitives get_transform_primitives key = None →
  _init_primitive_options get_aggregation_primitives get_transform_primitives
    (entries1 ++ (key, OptionList l) :: entries2) es st
  = match _init_primitive_options get_aggregation_primitives
            get_transform_primitives entries1 es st with
    | (Ok _, st1) => (Raise AttributeError, st1)
    | (Raise e, st1) => (Raise e, st1)
    end.
Proof.
  intros Hfind. unfold _init_primitive_options.
  rewrite for_fold_app. unfold bind at 1.
  destruct (for_fold entries1 _ ∅ st) as [[t|e] st1]; [|done].
  simpl. unfold init_entry at 1. simpl. by rewrite Hfind.
Qed.

Lemma init_loop_names (es : gmap string (list string))
    (entries : list (primitive_key * raw_options)) :
  ∀ (t t' : gmap string loc) st st',
    for_fold entries
      (init_entry get_aggregation_primitives get_transform_primitives es) t st
    = (Ok t', st') →
    NoDup (entries.*1 ≫= key_names) ∧
    (∀ n, n ∈ entries.*1 ≫= key_names → t !! n = None) ∧
    (∀ n, n ∉ entries.*1 ≫= key_names → t' !! n = t !! n) ∧
    (∀ n, n ∈ entries.*1 ≫= key_names → is_Some (t' !! n)) ∧
    (∀ key opts n1 n2, (key, opts) ∈ entries →
       n1 ∈ key_names key → n2 ∈ key_names key → t' !! n1 = t' !! n2).
Proof.
  induction entries as [|item entries IH]; intros t t' st st'; simpl.
  - intros [= <- <-]. split; [constructor|].
    split; [intros n Hn; by apply elem_of_nil in Hn|].
    split; [done|].
    split; [intros n Hn; by apply elem_of_nil in Hn|].
    intros key opts n1 n2 Hin. by apply elem_of_nil in Hin.
  - intros (t1 & st1 & Hentry & Hrest)%bind_inv_ok.
    apply init_entry_inv in Hentry as (Hnd0 & Hfresh0 & L & Hlook0).
    apply IH in Hrest as (Hnd & Hfresh & Hsame & Hsome & Hshare).
    assert (∀ n, n ∈ key_names item.1 → n ∉ entries.*1 ≫= key_names) as Hdisj.
    { intros n Hn Hn'. specialize (Hfresh n Hn'). rewrite Hlook0 in Hfresh.
      by rewrite bool_decide_eq_true_2 in Hfresh. }
    assert (∀ n, n ∈ key_names item.1 → t' !! n = Some L) as HL.
    { intros n Hn. rewrite Hsame by (by apply Hdisj).
      rewrite Hlook0. by rewrite bool_decide_eq_true_2. }
    split; [|split; [|split; [|split]]].
    + apply NoDup_app. split; [done|]. split; [|done]. exact Hdisj.
    + intros n [Hn|Hn]%elem_of_app; [by apply Hfresh0|].
      specialize (Hfresh n Hn). rewrite Hlook0 in Hfresh.
      by case_bool_decide.
    + intros n Hn. rewrite not_elem_of_app in Hn. destruct Hn as [Hn0 Hn].
      rewrite (Hsame n Hn), Hlook0. by rewrite bool_decide_eq_false_2.
    + intros n [Hn|Hn]%elem_of_app; [|by apply Hsome].
      rewrite (HL n Hn). eauto.
    + intros key opts n1 n2 [<-|Hin]%elem_of_cons Hn1 Hn2.
      * simpl in *. by rewrite (HL n1 Hn1), (HL n2 Hn2).
      * by apply (Hshare key opts).
Qed.

(** X17: when [_init_primitive_options] returns a table, no primitive is
    named twice by the keys of the options, the table has an entry for
    exactly the primitives named, and the primitives named by one tuple key
    refer to one and the same list object. *)
Theorem init_primitive_options_names
    (entries : list (primitive_key * raw_options))
    (es : gmap string (list string)) (st st' : state) (t : gmap string loc) :
  _init_primitive_options get_aggregation_primitives get_transform_primitives
    entries es st = (Ok t, st') →
  NoDup (entries.*1 ≫= key_names) ∧
  dom t = list_to_set (entries.*1 ≫= key_names) ∧
  ∀ key opts n1 n2, (key, opts) ∈ entries →
    n1 ∈ key_names key → n2 ∈ key_names key → t !! n1 = t !! n2.
Proof.
  intros (Hnd & _ & Hsame & Hsome & Hshare)%init_loop_names.
  split; [done|]. split; [|done].
  apply set_eq. intros n. rewrite elem_of_dom, elem_of_list_to_set.
  split; [|by apply Hsome].
  intros Hn. destruct (decide (n ∈ entries.*1 ≫= key_names)) as [|Hnotin];
    [done|].
  rewrite (Hsame n Hnotin), lookup_empty in Hn. by destruct Hn.
Qed.

End TableBuilder.

Lemma init_primitive_options_duplicate_witness :
  let entries1 := [(PKName "sum", OptionDict [])] in
  let key := PKTuple ["mean"; "sum"] in
  let st1 := State [ObjSet ∅; ObjDict ∅;
                    ObjDict {[ "ignore_entities" := 0; "ignore_variables" := 1 ]};
                    ObjList [2]] [] in
  let t1 : gmap string loc := {[ "sum" := 3 ]} in
  _init_primitive_options ∅ ∅ entries1 ∅ (State [] []) = (Ok t1, st1) ∧
  ∃ n st2, n ∈ key_names key ∧
    _init_primitive_options ∅ ∅ (entries1 ++ (key, OptionDict []) :: []) ∅
      (State [] [])
    = (Raise (MultipleOptions n), st2).
Proof.
  intros entries1 key st1 t1.
  assert (_init_primitive_options ∅ ∅ entries1 ∅ (State [] []) = (Ok t1, st1))
    as H1 by (vm_compute; reflexivity).
  split; [exact H1|].
  apply (init_primitive_options_duplicate ∅ ∅ entries1 [] key (OptionDict [])
           [with_defaults ∅] ∅ (State [] []) st1 t1 H1).
  - reflexivity.
  - left. exists "sum". split; [by_compute|]. by eexists; vm_compute.
Defined.

Lemma init_primitive_options_unregistered_witness :
  find_primitive ∅ ∅ (PKTuple ["sum"; "mean"]) = None ∧
  _init_primitive_options ∅ ∅
    ([] ++ (PKTuple ["sum"; "mean"], OptionList [[]]) :: []) ∅ (State [] [])
  = (Raise AttributeError, State [] []).
Proof.
  assert (find_primitive ∅ ∅ (PKTuple ["sum"; "mean"]) = None) as H
    by reflexivity.
  split; [exact H|].
  exact (init_primitive_options_unregistered ∅ ∅ [] [] _ [[]] ∅ (State [] []) H).
Defined.

Lemma init_primitive_options_names_witness :
  let entries := [(PKTuple ["sum"; "mean"], OptionDict [])] in
  let st' := State [ObjSet ∅; ObjDict ∅;
                    ObjDict {[ "ignore_entities" := 0; "ignore_variables" := 1 ]};
                    ObjList [2]] [] in
  let t : gmap string loc := {[ "sum" := 3; "mean" := 3 ]} in
  _init_primitive_options ∅ ∅ entries ∅ (State [] []) = (Ok t, st') ∧
  NoDup (entries.*1 ≫= key_names) ∧
  dom t = list_to_set (entries.*1 ≫= key_names).
Proof.
  intros entries st' t.
  assert (_init_primitive_options ∅ ∅ entries ∅ (State [] []) = (Ok t, st'))
    as H by (vm_compute; reflexivity).
  split; [exact H|].
  destruct (init_primitive_options_names ∅ ∅ entries ∅ (State [] []) st' t H)
    as (Hnd & Hdom & _).
  split; [exact Hnd|exact Hdom].
Defined.

(** ** Reconciliation in closed form *)

Lemma merge_rule_None_r (inc : gset string) (e : string)
    (own : option (gset string)) :
  merge_rule inc e own None = own.
Proof. by destruct own. Qed.

Lemma add_ignore_variables_lookup (inc : gset string) (e0 : string)
    (g0 : gset string) (rec : option_record) (m : gmap string (gset string)) :
  rec !! "ignore_variables" = Some (OMap m) →
  ∃ m1, add_ignore_variables inc e0 g0 rec !! "ignore_variables"
        = Some (OMap m1) ∧
        m1 !! e0 = merge_rule inc e0 (m !! e0) (Some g0) ∧
        (∀ e, e ≠ e0 → m1 !! e = m !! e) ∧
        ∀ k, k ≠ "ignore_variables" →
             add_ignore_variables inc e0 g0 rec !! k = rec !! k.
Proof.
  intros Hm. unfold add_ignore_variables. rewrite Hm.
  destruct (m !! e0) as [s|] eqn:He0; simpl.
  - exists (<[e0 := s ∪ g0]> m). rewrite !lookup_insert_eq.
    split; [done|]. split; [done|]. split.
    + intros e Hne. by rewrite lookup_insert_ne.
    + intros k Hk. by rewrite lookup_insert_ne.
  - case_bool_decide.
    + exists m. by rewrite He0.
    + exists (<[e0 := g0]> m). rewrite !lookup_insert_eq.
      split; [done|]. split; [done|]. split.
      * intros e Hne. by rewrite lookup_insert_ne.
      * intros k Hk. by rewrite lookup_insert_ne.
Qed.

Lemma fold_add_ignore_variables (inc : gset string)
    (l : list (string * gset string)) :
  NoDup l.*1 →
  ∀ (rec : option_record) (m : gmap string (gset string)),
    rec !! "ignore_variables" = Some (OMap m) →
    ∃ m', foldl (λ r it, add_ignore_variables inc it.1 it.2 r) rec l
            !! "ignore_variables" = Some (OMap m') ∧
          (∀ e, m' !! e
                = merge_rule inc e (m !! e)
                    ((list_to_map l : gmap string (gset string)) !! e)) ∧
          ∀ k, k ≠ "ignore_variables" →
               foldl (λ r it, add_ignore_variables inc it.1 it.2 r) rec l !! k
               = rec !! k.
Proof.
  induction l as [|[e0 g0] l IH]; intros Hnd rec m Hm; simpl.
  - exists m. split; [done|]. split; [|done].
    intros e. by rewrite lookup_empty, merge_rule_None_r.
  - apply NoDup_cons in Hnd as [He0 Hnd].
    destruct (add_ignore_variables_lookup inc e0 g0 rec m Hm)
      as (m1 & Hm1 & H0 & Hne & Hk).
    destruct (IH Hnd _ m1 Hm1) as (m' & Hm' & Hrule & Hk').
    exists m'. split; [done|]. split.
    + intros e. rewrite Hrule. destruct (decide (e = e0)) as [->|Hn].
      * rewrite lookup_insert_eq.
        rewrite (not_elem_of_list_to_map_1 _ _ He0), merge_rule_None_r.
        exact H0.
      * rewrite lookup_insert_ne by done. by rewrite Hne.
    + intros k Hkk. by rewrite Hk', Hk.
Qed.

Lemma foldl_fmap_records {A} (f : A → option_record → option_record)
    (l : list A) :
  ∀ recs : list option_record,
    foldl (λ recs it, f it <$> recs) recs l
    = (λ rec, foldl (λ r it, f it r) rec l) <$> recs.
Proof.
  induction l as [|it l IH]; intros recs; simpl.
  - by rewrite list_fmap_id.
  - rewrite IH. by rewrite <- list_fmap_compose.
Qed.

Lemma reconcile_record_reconciles (S : gset string)
    (V : gmap string (gset string)) (inc : gset string) (rec : option_record) :
  normalized rec →
  reconciles S V inc
    (foldl (λ r it, add_ignore_variables inc it.1 it.2 r)
       (add_ignore_entities S inc rec) (map_to_list V))
    rec.
Proof.
  intros Hn. destruct (normalized_ignore_entities rec Hn) as [s Hs].
  destruct (normalized_ignore_variables rec Hn) as [m Hm].
  assert (add_ignore_entities S inc rec
          = <["ignore_entities" := OSet (s ∪ (S ∖ inc))]> rec) as Hrec1
    by (unfold add_ignore_entities; by rewrite Hs).
  rewrite Hrec1.
  assert ((<["ignore_entities" := OSet (s ∪ (S ∖ inc))]> rec)
            !! "ignore_variables" = Some (OMap m)) as Hm1
    by (by rewrite lookup_insert_ne).
  destruct (fold_add_ignore_variables inc (map_to_list V)
              (NoDup_fst_map_to_list V) _ m Hm1) as (m' & Hm' & Hrule & Hk).
  split; [|split].
  - rewrite Hk by done. rewrite lookup_insert_eq.
    unfold ignore_entities_of. by rewrite Hs.
  - exists m'. split; [done|]. intros e.
    rewrite Hrule, list_to_map_to_list. unfold ignore_variables_of.
    by rewrite Hm.
  - intros k H1 H2. rewrite Hk by done. by rewrite lookup_insert_ne.
Qed.

Lemma reconcile_records_reconciles (S : gset string)
    (V : gmap string (gset string)) (recs : list option_record) :
  Forall normalized recs →
  Forall2 (reconciles S V (included_of_records recs))
          (reconcile_records S V recs) recs.
Proof.
  intros Hn. unfold reconcile_records.
  rewrite foldl_fmap_records, <- list_fmap_compose.
  apply Forall2_fmap_l, Forall_Forall2_diag.
  eapply Forall_impl; [exact Hn|]. intros rec Hrec. simpl.
  by apply reconcile_record_reconciles.
Qed.

Lemma reconciles_normalized (S : gset string) (V : gmap string (gset string))
    (inc : gset string) (rec' rec : option_record) :
  normalized rec → reconciles S V inc rec' rec → normalized rec'.
Proof.
  intros (_ & _ & Hall) (Hie & (m' & Hm' & _) & Hk).
  split; [eauto|]. split; [eauto|]. intros k v Hkv.
  destruct (decide (k = "ignore_entities")) as [->|H1].
  { rewrite Hie in Hkv. injection Hkv as <-. by vm_compute. }
  destruct (decide (k = "ignore_variables")) as [->|H2].
  { rewrite Hm' in Hkv. injection Hkv as <-. by vm_compute. }
  rewrite (Hk k H1 H2) in Hkv. by apply (Hall k v).
Qed.

Lemma reconciles_included (S : gset string) (V : gmap string (gset string))
    (inc : gset string) (recs' recs : list option_record) :
  Forall2 (reconciles S V inc) recs' recs →
  included_of_records recs' = included_of_records recs.
Proof.
  unfold included_of_records.
  induction 1 as [|rec' rec recs' recs (_ & _ & Hk) _ IH]; csimpl; [done|].
  rewrite IH. f_equal. unfold included_of_record. by rewrite !Hk.
Qed.

Lemma reconciles_again (S : gset string) (V : gmap string (gset string))
    (inc : gset string) (rec2 rec1 rec0 : option_record) :
  reconciles S V inc rec1 rec0 → reconciles S V inc rec2 rec1 →
  reconciles S V inc rec2 rec0.
Proof.
  intros (H1ie & (m1 & Hm1 & Hr1) & Hk1) (H2ie & (m2 & Hm2 & Hr2) & Hk2).
  split; [|split].
  - rewrite H2ie. do 2 f_equal. unfold ignore_entities_of at 1.
    rewrite H1ie. set_solver.
  - exists m2. split; [done|]. intros e. rewrite Hr2.
    unfold ignore_variables_of at 1. rewrite Hm1, Hr1.
    destruct (ignore_variables_of rec0 !! e) as [s|], (V !! e) as [g|]; simpl;
      [f_equal; set_solver|done| |done].
    case_bool_decide as He; simpl.
    + by rewrite bool_decide_eq_true_2.
    + f_equal. set_solver.
  - intros k H1 H2. by rewrite Hk2, Hk1.
Qed.

Lemma reconciles_again_list (S : gset string) (V : gmap string (gset string))
    (inc : gset string) (recs2 recs1 recs0 : list option_record) :
  Forall2 (reconciles S V inc) recs1 recs0 →
  Forall2 (reconciles S V inc) recs2 recs1 →
  Forall2 (reconciles S V inc) recs2 recs0.
Proof.
  intros H1. revert recs2.
  induction H1 as [|rec1 rec0 recs1 recs0 Hr _ IH]; intros recs2 H2.
  - by apply Forall2_nil_inv_r in H2 as ->.
  - apply Forall2_cons_inv_r in H2 as (rec2 & recs2' & Hr2 & H2 & ->).
    constructor; [by eapply reconciles_again|by apply IH].
Qed.

Lemma reconcile_records_default (S : gset string)
    (V : gmap string (gset string)) :
  reconcile_records S V [default_record S V] = [default_record S V].
Proof.
  pose proof (reconcile_records_reconciles S V [default_record S V]) as H.
  rewrite included_of_default_record in H.
  specialize (H ltac:(repeat constructor; apply default_record_normalized)).
  apply Forall2_cons_inv_r in H as (rec' & recs' & Hr & Hnil & ->).
  apply Forall2_nil_inv_r in Hnil as ->. f_equal.
  destruct Hr as (Hie & (m' & Hm' & Hrule) & Hk).
  assert (ignore_entities_of (default_record S V) = S) as HS by done.
  assert (ignore_variables_of (default_record S V) = V) as HV by done.
  rewrite HS in Hie. rewrite HV in Hrule.
  assert (m' = V) as ->.
  { apply map_eq. intros e. rewrite Hrule.
    destruct (V !! e) as [g|]; simpl; [|done]. f_equal. set_solver. }
  apply map_eq. intros k.
  destruct (decide (k = "ignore_entities")) as [->|H1].
  { rewrite Hie. unfold default_record.
    rewrite lookup_insert_ne by done. rewrite lookup_insert_eq.
    do 2 f_equal. set_solver. }
  destruct (decide (k = "ignore_variables")) as [->|H2].
  { rewrite Hm'. unfold default_record. by rewrite lookup_insert_eq. }
  by apply Hk.
Qed.

Lemma reconciles_normalized_list (S : gset string)
    (V : gmap string (gset string)) (inc : gset string)
    (recs recs0 : list option_record) :
  Forall normalized recs0 → Forall2 (reconciles S V inc) recs recs0 →
  Forall normalized recs.
Proof.
  intros Hn H. induction H as [|rec rec0 recs recs0 Hr _ IH]; [constructor|].
  apply Forall_cons in Hn as [Hn0 Hn].
  constructor; [by eapply reconciles_normalized|by apply IH].
Qed.

Section ReconcileInv.

Variable S : gset string.
Variable V : gmap string (gset string).
Variable T0 : table.

Hypothesis T0_wf : table_wf T0.
Hypothesis T0_normalized :
  ∀ g recs0, groups T0 !! g = Some recs0 → Forall normalized recs0.

Lemma reconcile_inv_init : reconcile_inv S V T0 [] (T0, S).
Proof using T0_wf.
  split; [apply loop_inv_init|]. split; [done|]. split; [|split].
  - intros g recs0 Hg. exists recs0. split; [done|]. split; [|done].
    intros H. by apply Exists_nil in H.
  - intros g recs Hlen Hg. simpl in Hg. apply lookup_lt_Some in Hg. lia.
  - intros p. simpl. split; [by left|]. intros [?|H]; [done|].
    by apply elem_of_nil in H.
Qed.

Lemma reconcile_inv_step (processed : list string) (acc : table * gset string)
    (p : string) :
  reconcile_inv S V T0 processed acc →
  reconcile_inv S V T0 (processed ++ [p]) (reconcile_step S V acc p).
Proof using T0_wf T0_normalized.
  intros (Hloop & Hwf & Hexp & Hdef & Hnames).
  pose proof (loop_inv_step S V T0 processed acc p T0_wf Hloop) as Hloop'.
  split; [done|]. clear Hloop'.
  destruct Hloop as (Hlen & Hold & Hnew & _).
  unfold reconcile_step. destruct acc as [T R]; simpl in *.
  destruct (group_of T !! p) as [g'|] eqn:Hp; simpl.
  - split; [|split; [|split]].
    + intros q g Hq. simpl in *. rewrite length_insert. by apply (Hwf q).
    + intros g recs0 Hg. destruct (Hexp g recs0 Hg) as (recs & Hrecs & Ht & Hnt).
      destruct (decide (g = g')) as [->|Hne].
      * exists (reconcile_records S V recs). rewrite Hrecs. simpl.
        split; [apply list_lookup_insert_eq; by eapply lookup_lt_Some|].
        split.
        -- intros _. destruct (decide (touched T0 processed g')) as [Hto|Hnto].
           ++ specialize (Ht Hto).
              pose proof (reconcile_records_reconciles S V recs) as H.
              rewrite (reconciles_included _ _ _ _ _ Ht) in H.
              eapply reconciles_again_list; [exact Ht|]. apply H.
              eapply reconciles_normalized_list; [|exact Ht].
              by eapply T0_normalized.
           ++ rewrite (Hnt Hnto). apply reconcile_records_reconciles.
              by eapply T0_normalized.
        -- intros Hnto. destruct Hnto. apply Exists_app. right.
           apply Exists_cons_hd.
           destruct (group_of T0 !! p) as [g0|] eqn:E.
           ++ apply Hold in E. congruence.
           ++ pose proof (Hnew p g' Hp E). apply lookup_lt_Some in Hg. lia.
      * exists recs. split; [by rewrite list_lookup_insert_ne|]. split.
        -- intros [Hto|Hto]%Exists_app; [by apply Ht|].
           apply Exists_cons in Hto as [Hto|Hto]; [|by apply Exists_nil in Hto].
           apply Hold in Hto. congruence.
        -- intros Hnto. apply Hnt. intros Hto. apply Hnto.
           apply Exists_app. by left.
    + intros g recs Hg Hlook. destruct (decide (g = g')) as [->|Hne].
      * destruct (groups T !! g') as [r0|] eqn:E; simpl in Hlook.
        -- rewrite list_lookup_insert_eq in Hlook by (by eapply lookup_lt_Some).
           injection Hlook as <-. rewrite (Hdef g' r0 Hg E).
           apply reconcile_records_default.
        -- apply lookup_ge_None in E. apply lookup_lt_Some in Hlook.
           rewrite length_insert in Hlook. lia.
      * rewrite list_lookup_insert_ne in Hlook by done. by apply (Hdef g).
    + intros q. split.
      * intros Hq. apply Hnames in Hq as [?|?]; [by left|].
        right. apply elem_of_app. by left.
      * intros [Hq|[Hq|Hq]%elem_of_app]; [apply Hnames; by left
                                          |apply Hnames; by right|].
        apply list_elem_of_singleton in Hq as ->. eauto.
  - assert (group_of T0 !! p = None) as Hp0.
    { destruct (group_of T0 !! p) as [g0|] eqn:E; [|done].
      apply Hold in E. congruence. }
    split; [|split; [|split]].
    + intros q g Hq. simpl in *. rewrite length_app. simpl.
      destruct (decide (q = p)) as [->|Hne].
      * rewrite lookup_insert_eq in Hq. injection Hq as <-. lia.
      * rewrite lookup_insert_ne in Hq by done. specialize (Hwf q g Hq). lia.
    + intros g recs0 Hg. destruct (Hexp g recs0 Hg) as (recs & Hrecs & Ht & Hnt).
      exists recs. split; [rewrite lookup_app_l; [done|by eapply lookup_lt_Some]|].
      split.
      * intros [Hto|Hto]%Exists_app; [by apply Ht|].
        apply Exists_cons in Hto as [Hto|Hto]; [|by apply Exists_nil in Hto].
        congruence.
      * intros Hnto. apply Hnt. intros Hto. apply Hnto.
        apply Exists_app. by left.
    + intros g recs Hg Hlook.
      apply lookup_app_Some in Hlook as [Hl|[_ Hl]]; [by apply (Hdef g)|].
      destruct (g - length (groups T)); simpl in Hl; [by injection Hl as <-|done].
    + intros q. destruct (decide (q = p)) as [->|Hne].
      * rewrite lookup_insert_eq. split; [|eauto].
        intros _. right. apply elem_of_app. right. by constructor.
      * rewrite lookup_insert_ne by done. split.
        -- intros Hq. apply Hnames in Hq as [?|?]; [by left|].
           right. apply elem_of_app. by left.
        -- intros [Hq|[Hq|Hq]%elem_of_app]; [apply Hnames; by left
                                             |apply Hnames; by right|].
           by apply list_elem_of_singleton in Hq.
Qed.

Lemma reconcile_inv_foldl (names : list string) :
  ∀ processed acc,
    reconcile_inv S V T0 processed acc →
    reconcile_inv S V T0 (processed ++ names)
      (foldl (reconcile_step S V) acc names).
Proof using T0_wf T0_normalized.
  induction names as [|p names IH]; intros processed acc Hinv; simpl.
  - by rewrite app_nil_r.
  - replace (processed ++ p :: names) with ((processed ++ [p]) ++ names)
      by (by rewrite <- app_assoc).
    apply IH. by apply reconcile_inv_step.
Qed.

End ReconcileInv.

Lemma ignore_entity_returns (options : list option_record) (entity : string)
    (groupby : bool) :
  Forall normalized options →
  ∃ b, ignore_entity_for_primitive options entity groupby = Ok b.
Proof.
  intros Hn. unfold ignore_entity_for_primitive.
  rewrite (comprehension_all_ok _ (record_excludes entity groupby)).
  - simpl. eauto.
  - eapply Forall_impl; [exact Hn|]. intros O (Hie & _).
    by apply should_ignore_entity_spec.
Qed.

Section Reconciler.

Variable get_aggregation_primitives get_transform_primitives
  : gmap string primitive.

Lemma table_of_entry_normalized (T T' : table)
    (item : primitive_key * raw_options) :
  (∀ g recs, groups T !! g = Some recs → Forall normalized recs) →
  table_of_entry get_aggregation_primitives get_transform_primitives T item
  = Ok T' →
  ∀ g recs, groups T' !! g = Some recs → Forall normalized recs.
Proof.
  intros HT. unfold table_of_entry.
  destruct (entry_records _ _ item) as [recs0|] eqn:Hrecs; simpl; [|done].
  destruct (register_names _ _ _) as [m|]; simpl; [|done].
  intros [= <-] g recs. simpl.
  intros [Hl|[_ Hl]]%lookup_app_Some; [by eapply HT|].
  destruct (g - length (groups T)); simpl in Hl; [|done].
  injection Hl as <-. by eapply entry_records_normalized.
Qed.

Lemma table_of_options_normalized (entries : list (primitive_key * raw_options)) :
  ∀ T T',
    (∀ g recs, groups T !! g = Some recs → Forall normalized recs) →
    table_of_options get_aggregation_primitives get_transform_primitives
      entries T = Ok T' →
    ∀ g recs, groups T' !! g = Some recs → Forall normalized recs.
Proof.
  induction entries as [|item entries IH]; intros T T' HT; simpl.
  - by intros [= <-].
  - destruct (table_of_entry _ _ T item) as [T1|] eqn:H1; simpl; [|done].
    apply IH. by eapply table_of_entry_normalized.
Qed.

(** The table the builder leaves and the table the function returns, as
    table values related by the invariant of the loop. *)
Lemma generate_all_primitive_options_inv
    (all_primitives : list primitive_ref)
    (primitive_options : list (primitive_key * raw_options))
    (ignore_entities ignore_variables : loc) (es : list entity)
    (S : gset string) (V : gmap string (gset string))
    (st st0 st' : state) (t0 t : gmap string loc) (res : loc) :
  is_set st ignore_entities S → is_vardict st ignore_variables V →
  _init_primitive_options get_aggregation_primitives get_transform_primitives
    primitive_options (entityset_dict es) st = (Ok t0, st0) →
  generate_all_primitive_options get_aggregation_primitives
    get_transform_primitives all_primitives primitive_options
    ignore_entities ignore_variables es st = (Ok (t, res), st') →
  ∃ T0 TR,
    read_table st0 t0 = table_records T0 ∧
    read_table st' t = table_records TR.1 ∧
    table_wf T0 ∧
    (∀ p, is_Some (t0 !! p) ↔ is_Some (group_of T0 !! p)) ∧
    (∀ p, is_Some (t !! p) ↔ is_Some (group_of TR.1 !! p)) ∧
    (∀ p q g, group_of T0 !! p = Some g → group_of T0 !! q = Some g →
              t0 !! p = t0 !! q) ∧
    reconcile_inv S V T0 (primitive_name <$> all_primitives) TR.
Proof.
  intros Hle HV Hb Hrun.
  assert (ignore_variables < length (heap st)) as Hlv.
  { destruct HV as (d & Hd & _). by eapply lookup_lt_Some. }
  pose proof (init_primitive_options_loop get_aggregation_primitives
                get_transform_primitives ignore_variables (entityset_dict es)
                primitive_options st ∅ [] (Table ∅ [])
                (table_ok_empty ignore_variables st) Hlv) as Hinit.
  pose proof (generate_all_primitive_options_table_ok
                get_aggregation_primitives get_transform_primitives
                all_primitives primitive_options ignore_entities
                ignore_variables es st S V Hle HV) as Hgen.
  unfold reconciled in Hgen. unfold _init_primitive_options in Hb.
  destruct (table_of_options _ _ primitive_options (Table ∅ []))
    as [T0|e] eqn:HT0; simpl in Hgen.
  - destruct Hinit as (st1 & t1 & Gs1 & Hrun1 & _ & Hok1).
    rewrite Hb in Hrun1. injection Hrun1 as <- <-.
    destruct Hgen as (t' & res' & st'' & Gs & Hrun' & Hok & _).
    rewrite Hrun in Hrun'. injection Hrun' as <- <- <-.
    assert (table_wf T0) as Hwf.
    { eapply table_of_options_wf; [|exact HT0].
      intros p g. simpl. by rewrite lookup_empty. }
    assert (∀ g recs, groups T0 !! g = Some recs → Forall normalized recs)
      as Hnorm.
    { eapply table_of_options_normalized; [|exact HT0].
      intros g recs. simpl. by rewrite lookup_nil. }
    assert (∀ lv st t Gs T, table_ok lv st t Gs T →
              ∀ p, is_Some (t !! p) ↔ is_Some (group_of T !! p)) as Hkeys.
    { intros lv0 st1 t1 Gs0 T (H1 & H2 & H3 & _) p. rewrite H1.
      destruct (group_of T !! p) as [g|] eqn:Hg; simpl.
      - split; [eauto|]. intros _.
        apply H2 in Hg. rewrite <- (Forall2_length _ _ _ H3) in Hg.
        apply lookup_lt_is_Some_2 in Hg as [G HG]. rewrite HG. simpl. eauto.
      - split; by intros [? ?]. }
    exists T0, (foldl (reconcile_step S V) (T0, S) (primitive_name <$> all_primitives)).
    split; [by apply (table_ok_read ignore_variables st0 t0 Gs1)|].
    split; [by apply (table_ok_read ignore_variables st' t Gs)|].
    split; [done|].
    split; [by apply (Hkeys ignore_variables st0 t0 Gs1)|].
    split; [by apply (Hkeys ignore_variables st' t Gs)|].
    split.
    + intros p q g Hp Hq. destruct Hok1 as (H1 & _). by rewrite !H1, Hp, Hq.
    + apply (reconcile_inv_foldl S V T0 Hwf Hnorm _ [] (T0, S)).
      by apply reconcile_inv_init.
  - destruct Hinit as (st1 & Hrun1 & _). congruence.
Qed.

Lemma table_records_lookup (T : table) (p : string) (g : nat)
    (recs : list option_record) :
  group_of T !! p = Some g → groups T !! g = Some recs →
  table_records T !! p = Some recs.
Proof.
  intros Hp Hg. unfold table_records. rewrite lookup_omap, Hp. by simpl.
Qed.

Lemma table_records_inv (T : table) (p : string) (recs : list option_record) :
  table_records T !! p = Some recs →
  ∃ g, group_of T !! p = Some g ∧ groups T !! g = Some recs.
Proof.
  unfold table_records. rewrite lookup_omap.
  destruct (group_of T !! p) as [g|]; simpl; [eauto|done].
Qed.

(** X18: [generate_all_primitive_options] fails only where the table of the
    user's options cannot be built: with a set and a dict of sets as global
    ignores it raises exactly the exceptions [_init_primitive_options]
    raises. *)
Theorem generate_all_primitive_options_raises
    (all_primitives : list primitive_ref)
    (primitive_options : list (primitive_key * raw_options))
    (ignore_entities ignore_variables : loc) (es : list entity)
    (S : gset string) (V : gmap string (gset string)) (st : state) (e : exn) :
  is_set st ignore_entities S → is_vardict st ignore_variables V →
  (generate_all_primitive_options get_aggregation_primitives
     get_transform_primitives all_primitives primitive_options
     ignore_entities ignore_variables es st).1 = Raise e
  ↔ (_init_primitive_options get_aggregation_primitives
       get_transform_primitives primitive_options (entityset_dict es) st).1
    = Raise e.
Proof.
  intros Hle HV.
  assert (ignore_variables < length (heap st)) as Hlv.
  { destruct HV as (d & Hd & _). by eapply lookup_lt_Some. }
  pose proof (init_primitive_options_loop get_aggregation_primitives
                get_transform_primitives ignore_variables (entityset_dict es)
                primitive_options st ∅ [] (Table ∅ [])
                (table_ok_empty ignore_variables st) Hlv) as Hinit.
  pose proof (generate_all_primitive_options_table_ok
                get_aggregation_primitives get_transform_primitives
                all_primitives primitive_options ignore_entities
                ignore_variables es st S V Hle HV) as Hgen.
  unfold reconciled in Hgen. unfold _init_primitive_options.
  destruct (table_of_options _ _ primitive_options (Table ∅ []))
    as [T0|e0]; simpl in Hgen.
  - destruct Hinit as (st1 & t1 & Gs1 & -> & _).
    destruct Hgen as (t' & res' & st'' & Gs & -> & _). by simpl.
  - destruct Hinit as (st1 & -> & _). destruct Hgen as (st'' & -> & _).
    simpl. split; intros [= ->]; reflexivity.
Qed.

(** X19: a primitive of [all_primitives] that the options do not name gets
    one record, the default one: its [ignore_entities] and
    [ignore_variables] hold what the global ones hold. *)
Theorem generate_all_primitive_options_default
    (all_primitives : list primitive_ref)
    (primitive_options : list (primitive_key * raw_options))
    (ignore_entities ignore_variables : loc) (es : list entity)
    (S : gset string) (V : gmap string (gset string))
    (st st' : state) (t : gmap string loc) (res : loc) (p : string) :
  is_set st ignore_entities S → is_vardict st ignore_variables V →
  generate_all_primitive_options get_aggregation_primitives
    get_transform_primitives all_primitives primitive_options
    ignore_entities ignore_variables es st = (Ok (t, res), st') →
  p ∈ primitive_name <$> all_primitives →
  p ∉ primitive_options.*1 ≫= key_names →
  read_table st' t !! p = Some [default_record S V].
Proof.
  intros Hle HV Hrun Hp Hnot.
  pose proof Hrun as (t0 & st0 & Hb & _)%bind_inv_ok.
  destruct (generate_all_primitive_options_inv _ _ _ _ _ S V st st0 st' t0 t res
              Hle HV Hb Hrun)
    as (T0 & TR & _ & -> & Hwf0 & Hk0 & _ & _ & Hinv).
  destruct Hinv as ((_ & _ & Hnew & _) & Hwf & _ & Hdef & Hnames).
  apply init_loop_names in Hb as (_ & _ & Hsame & _).
  assert (group_of T0 !! p = None) as Hp0.
  { destruct (group_of T0 !! p) as [g|] eqn:E; [|done].
    assert (is_Some (t0 !! p)) as Hs by (apply Hk0; eauto).
    rewrite (Hsame p Hnot), lookup_empty in Hs. by destruct Hs. }
  assert (is_Some (group_of TR.1 !! p)) as [g Hg] by (apply Hnames; by right).
  pose proof (Hwf p g Hg) as Hlt.
  apply lookup_lt_is_Some_2 in Hlt as [recs Hrecs].
  rewrite (table_records_lookup _ p g recs Hg Hrecs). f_equal.
  apply (Hdef g recs); [|done]. by apply (Hnew p).
Qed.

(** X20: the table [generate_all_primitive_options] returns has an entry
    for the primitives the options name and for the primitives of
    [all_primitives], and for no other. *)
Theorem generate_all_primitive_options_keys
    (all_primitives : list primitive_ref)
    (primitive_options : list (primitive_key * raw_options))
    (ignore_entities ignore_variables : loc) (es : list entity)
    (S : gset string) (V : gmap string (gset string))
    (st st' : state) (t : gmap string loc) (res : loc) :
  is_set st ignore_entities S → is_vardict st ignore_variables V →
  generate_all_primitive_options get_aggregation_primitives
    get_transform_primitives all_primitives primitive_options
    ignore_entities ignore_variables es st = (Ok (t, res), st') →
  dom t = list_to_set (primitive_options.*1 ≫= key_names)
          ∪ list_to_set (primitive_name <$> all_primitives).
Proof.
  intros Hle HV Hrun.
  pose proof Hrun as (t0 & st0 & Hb & _)%bind_inv_ok.
  destruct (generate_all_primitive_options_inv _ _ _ _ _ S V st st0 st' t0 t res
              Hle HV Hb Hrun)
    as (T0 & TR & _ & _ & _ & Hk0 & Hk & _ & Hinv).
  destruct Hinv as (_ & _ & _ & _ & Hnames).
  apply init_loop_names in Hb as (_ & _ & Hsame & Hsome & _).
  apply set_eq. intros p.
  rewrite elem_of_dom, Hk, Hnames, <- Hk0, elem_of_union, !elem_of_list_to_set.
  split; (intros [Hp|Hp]; [left|by right]).
  - destruct (decide (p ∈ primitive_options.*1 ≫= key_names)) as [|Hnot];
      [done|].
    rewrite (Hsame p Hnot), lookup_empty in Hp. by destruct Hp.
  - by apply Hsome.
Qed.

(** The records of a primitive of [all_primitives] that has options, after
    and before the loop. *)
Lemma explicit_records_reconciled
    (all_primitives : list primitive_ref)
    (primitive_options : list (primitive_key * raw_options))
    (ignore_entities ignore_variables : loc) (es : list entity)
    (S : gset string) (V : gmap string (gset string))
    (st st0 st' : state) (t0 t : gmap string loc) (res : loc)
    (p : string) (recs0 : list option_record) :
  is_set st ignore_entities S → is_vardict st ignore_variables V →
  _init_primitive_options get_aggregation_primitives get_transform_primitives
    primitive_options (entityset_dict es) st = (Ok t0, st0) →
  generate_all_primitive_options get_aggregation_primitives
    get_transform_primitives all_primitives primitive_options
    ignore_entities ignore_variables es st = (Ok (t, res), st') →
  p ∈ primitive_name <$> all_primitives →
  read_table st0 t0 !! p = Some recs0 →
  ∃ recs, read_table st' t !! p = Some recs ∧
          Forall2 (reconciles S V (included_of_records recs0)) recs recs0.
Proof.
  intros Hle HV Hb Hrun Hp Hrecs0.
  destruct (generate_all_primitive_options_inv _ _ _ _ _ S V st st0 st' t0 t res
              Hle HV Hb Hrun)
    as (T0 & TR & HT0 & -> & _ & _ & _ & _ & Hinv).
  rewrite HT0 in Hrecs0. apply table_records_inv in Hrecs0 as (g & Hg & Hgr).
  destruct Hinv as ((_ & Hold & _) & _ & Hexp & _).
  destruct (Hexp g recs0 Hgr) as (recs & Hrecs & Ht & _).
  exists recs. split.
  - apply (table_records_lookup _ p g); [by apply Hold|done].
  - apply Ht. apply Exists_exists. by exists p.
Qed.

(** X21: the records of a primitive of [all_primitives] that has options
    are the user's records reconciled: [ignore_entities] has gained the
    global ones that the primitive does not include; [ignore_variables] is
    merged with the global ones entity by entity, an entity the record does
    not list being added unless the primitive includes it; every other key
    is as the user gave it. *)
Theorem generate_all_primitive_options_explicit
    (all_primitives : list primitive_ref)
    (primitive_options : list (primitive_key * raw_options))
    (ignore_entities ignore_variables : loc) (es : list entity)
    (S : gset string) (V : gmap string (gset string))
    (st st0 st' : state) (t0 t : gmap string loc) (res : loc)
    (p : string) (recs0 : list option_record) :
  is_set st ignore_entities S → is_vardict st ignore_variables V →
  _init_primitive_options get_aggregation_primitives get_transform_primitives
    primitive_options (entityset_dict es) st = (Ok t0, st0) →
  generate_all_primitive_options get_aggregation_primitives
    get_transform_primitives all_primitives primitive_options
    ignore_entities ignore_variables es st = (Ok (t, res), st') →
  p ∈ primitive_name <$> all_primitives →
  read_table st0 t0 !! p = Some recs0 →
  ∃ recs, read_table st' t !! p = Some recs ∧
          Forall2 (reconciles S V (included_of_records recs0)) recs recs0.
Proof. apply explicit_records_reconciled. Qed.

(** X22: the records of a primitive that has options and whose list of
    records no primitive of [all_primitives] refers to are left as the
    user gave them. *)
Theorem generate_all_primitive_options_unlisted
    (all_primitives : list primitive_ref)
    (primitive_options : list (primitive_key * raw_options))
    (ignore_entities ignore_variables : loc) (es : list entity)
    (S : gset string) (V : gmap string (gset string))
    (st st0 st' : state) (t0 t : gmap string loc) (res : loc)
    (p : string) (recs0 : list option_record) :
  is_set st ignore_entities S → is_vardict st ignore_variables V →
  _init_primitive_options get_aggregation_primitives get_transform_primitives
    primitive_options (entityset_dict es) st = (Ok t0, st0) →
  generate_all_primitive_options get_aggregation_primitives
    get_transform_primitives all_primitives primitive_options
    ignore_entities ignore_variables es st = (Ok (t, res), st') →
  read_table st0 t0 !! p = Some recs0 →
  (∀ q, q ∈ primitive_name <$> all_primitives → t0 !! q ≠ t0 !! p) →
  read_table st' t !! p = Some recs0.
Proof.
  intros Hle HV Hb Hrun Hrecs0 Hnone.
  destruct (generate_all_primitive_options_inv _ _ _ _ _ S V st st0 st' t0 t res
              Hle HV Hb Hrun)
    as (T0 & TR & HT0 & -> & _ & _ & _ & Hshare & Hinv).
  rewrite HT0 in Hrecs0. apply table_records_inv in Hrecs0 as (g & Hg & Hgr).
  destruct Hinv as ((_ & Hold & _) & _ & Hexp & _).
  destruct (Hexp g recs0 Hgr) as (recs & Hrecs & _ & Hnt).
  rewrite (Hnt) in Hrecs.
  - apply (table_records_lookup _ p g); [by apply Hold|done].
  - intros (q & Hq & Hqg)%Exists_exists.
    apply (Hnone q Hq). by apply (Hshare q p g).
Qed.

(** X23: every record of the table [generate_all_primitive_options]
    returns is normalised, so that the functions that read the table do not
    raise: the entity pre-filter on the records of a primitive returns, and
    so does the check of a match against them, in direct and in groupby
    mode, when the primitive has a record at all. *)
Theorem generate_all_primitive_options_filters
    (all_primitives : list primitive_ref)
    (primitive_options : list (primitive_key * raw_options))
    (ignore_entities ignore_variables : loc) (es : list entity)
    (S : gset string) (V : gmap string (gset string))
    (st st' : state) (t : gmap string loc) (res : loc)
    (p : string) (recs : list option_record) :
  is_set st ignore_entities S → is_vardict st ignore_variables V →
  generate_all_primitive_options get_aggregation_primitives
    get_transform_primitives all_primitives primitive_options
    ignore_entities ignore_variables es st = (Ok (t, res), st') →
  read_table st' t !! p = Some recs →
  Forall normalized recs ∧
  (∀ entity groupby, ∃ b, ignore_entity_for_primitive recs entity groupby = Ok b) ∧
  (recs ≠ [] →
   ∀ (m : match_) groupby, ∃ b, is_valid_match groupby recs m = Ok b).
Proof.
  intros Hle HV Hrun Hrecs.
  assert (Forall normalized recs) as Hn
    by (by eapply (generate_all_primitive_options_normalized
                     get_aggregation_primitives get_transform_primitives)).
  split; [done|]. split.
  - intros entity groupby. by apply ignore_entity_returns.
  - intros Hne m groupby. by apply is_valid_match_normalized.
Qed.

End Reconciler.

Lemma generate_all_primitive_options_raises_witness :
  let st := State [ObjSet {[ "X" ]}; ObjDict ∅] [] in
  let primitive_options :=
    [(PKName "sum", OptionDict [("bogus_option", RawList [])])] in
  let e := UnrecognizedOption "bogus_option" (PKName "sum") in
  is_set st 0 {[ "X" ]} ∧ is_vardict st 1 ∅ ∧
  ((generate_all_primitive_options ∅ ∅ [ByName "sum"] primitive_options
      0 1 [] st).1 = Raise e
   ↔ (_init_primitive_options ∅ ∅ primitive_options (entityset_dict []) st).1
     = Raise e).
Proof.
  intros st primitive_options e.
  assert (is_set st 0 {[ "X" ]}) as Hle by reflexivity.
  assert (is_vardict st 1 ∅) as HV.
  { exists ∅. split; [reflexivity|]. intros k. rewrite !lookup_empty. constructor. }
  split; [exact Hle|]. split; [exact HV|].
  exact (generate_all_primitive_options_raises ∅ ∅ [ByName "sum"]
           primitive_options 0 1 [] {[ "X" ]} ∅ st e Hle HV).
Defined.

Lemma generate_all_primitive_options_default_witness :
  let st := State [ObjSet {[ "X" ]}; ObjSet {[ "v" ]}; ObjDict {[ "e" := 1 ]}] [] in
  let all_primitives := [ByName "sum"; ByName "count"] in
  let primitive_options :=
    [(PKName "sum", OptionDict [("include_entities", RawList ["X"])])] in
  is_set st 0 {[ "X" ]} ∧ is_vardict st 2 {[ "e" := {[ "v" ]} ]} ∧
  ("count" ∈ primitive_name <$> all_primitives) ∧
  ("count" ∉ primitive_options.*1 ≫= key_names) ∧
  ∃ t res st',
    generate_all_primitive_options ∅ ∅ all_primitives primitive_options
      0 2 [] st = (Ok (t, res), st') ∧
    read_table st' t !! "count"
    = Some [default_record {[ "X" ]} {[ "e" := {[ "v" ]} ]}].
Proof.
  intros st all_primitives primitive_options.
  assert (is_set st 0 {[ "X" ]}) as Hle by reflexivity.
  assert (is_vardict st 2 {[ "e" := {[ "v" ]} ]}) as HV.
  { exists {[ "e" := 1 ]}. split; [reflexivity|]. intros k.
    destruct (decide (k = "e")) as [->|Hne].
    - rewrite !lookup_singleton_eq. by constructor.
    - rewrite !lookup_singleton_ne by done. constructor. }
  assert ("count" ∈ primitive_name <$> all_primitives) as Hp by by_compute.
  assert ("count" ∉ primitive_options.*1 ≫= key_names) as Hnot by by_compute.
  split; [exact Hle|]. split; [exact HV|]. split; [exact Hp|].
  split; [exact Hnot|].
  destruct (generate_all_primitive_options ∅ ∅ all_primitives
              primitive_options 0 2 [] st)
    as [[[t res]|e] st'] eqn:Hrun.
  - exists t, res, st'. split; [reflexivity|].
    exact (generate_all_primitive_options_default ∅ ∅ all_primitives
             primitive_options 0 2 [] {[ "X" ]} {[ "e" := {[ "v" ]} ]}
             st st' t res "count" Hle HV Hrun Hp Hnot).
  - exfalso. revert Hrun. by_run_ok.
Defined.

Lemma generate_all_primitive_options_keys_witness :
  let st := State [ObjSet {[ "X" ]}; ObjDict ∅] [] in
  let all_primitives := [ByName "sum"; ByName "count"] in
  let primitive_options :=
    [(PKTuple ["sum"; "mean"], OptionDict [("include_entities", RawList ["X"])])] in
  is_set st 0 {[ "X" ]} ∧ is_vardict st 1 ∅ ∧
  ∃ t res st',
    generate_all_primitive_options ∅ ∅ all_primitives primitive_options
      0 1 [] st = (Ok (t, res), st') ∧
    dom t = list_to_set (primitive_options.*1 ≫= key_names)
            ∪ list_to_set (primitive_name <$> all_primitives).
Proof.
  intros st all_primitives primitive_options.
  assert (is_set st 0 {[ "X" ]}) as Hle by reflexivity.
  assert (is_vardict st 1 ∅) as HV.
  { exists ∅. split; [reflexivity|]. intros k. rewrite !lookup_empty. constructor. }
  split; [exact Hle|]. split; [exact HV|].
  destruct (generate_all_primitive_options ∅ ∅ all_primitives
              primitive_options 0 1 [] st)
    as [[[t res]|e] st'] eqn:Hrun.
  - exists t, res, st'. split; [reflexivity|].
    exact (generate_all_primitive_options_keys ∅ ∅ all_primitives
             primitive_options 0 1 [] {[ "X" ]} ∅ st st' t res Hle HV Hrun).
  - exfalso. revert Hrun. by_run_ok.
Defined.

Lemma generate_all_primitive_options_explicit_witness :
  let st := State [ObjSet {[ "X"; "Y" ]}; ObjSet {[ "v" ]};
                   ObjDict {[ "e" := 1 ]}] [] in
  let all_primitives := [ByName "sum"] in
  let primitive_options :=
    [(PKTuple ["sum"; "mean"], OptionDict [("include_entities", RawList ["X"])])] in
  is_set st 0 {[ "X"; "Y" ]} ∧ is_vardict st 2 {[ "e" := {[ "v" ]} ]} ∧
  ("sum" ∈ primitive_name <$> all_primitives) ∧
  ∃ t0 st0 t res st' recs0,
    _init_primitive_options ∅ ∅ primitive_options (entityset_dict []) st
    = (Ok t0, st0) ∧
    generate_all_primitive_options ∅ ∅ all_primitives primitive_options
      0 2 [] st = (Ok (t, res), st') ∧
    read_table st0 t0 !! "sum" = Some recs0 ∧
    ∃ recs, read_table st' t !! "sum" = Some recs ∧
            Forall2 (reconciles {[ "X"; "Y" ]} {[ "e" := {[ "v" ]} ]}
                       (included_of_records recs0)) recs recs0.
Proof.
  intros st all_primitives primitive_options.
  assert (is_set st 0 {[ "X"; "Y" ]}) as Hle by reflexivity.
  assert (is_vardict st 2 {[ "e" := {[ "v" ]} ]}) as HV.
  { exists {[ "e" := 1 ]}. split; [reflexivity|]. intros k.
    destruct (decide (k = "e")) as [->|Hne].
    - rewrite !lookup_singleton_eq. by constructor.
    - rewrite !lookup_singleton_ne by done. constructor. }
  assert ("sum" ∈ primitive_name <$> all_primitives) as Hp by by_compute.
  split; [exact Hle|]. split; [exact HV|]. split; [exact Hp|].
  destruct (_init_primitive_options ∅ ∅ primitive_options (entityset_dict []) st)
    as [[t0|e] st0] eqn:Hb; [|exfalso; revert Hb; by_run_ok].
  destruct (generate_all_primitive_options ∅ ∅ all_primitives
              primitive_options 0 2 [] st)
    as [[[t res]|e] st'] eqn:Hrun;
    [|exfalso; revert Hrun; by_run_ok].
  destruct (read_table st0 t0 !! "sum") as [recs0|] eqn:Hrecs0.
  - exists t0, st0, t, res, st', recs0.
    split; [reflexivity|]. split; [reflexivity|]. split; [exact Hrecs0|].
    exact (generate_all_primitive_options_explicit ∅ ∅ all_primitives
             primitive_options 0 2 [] {[ "X"; "Y" ]} {[ "e" := {[ "v" ]} ]}
             st st0 st' t0 t res "sum" recs0 Hle HV Hb Hrun Hp Hrecs0).
  - exfalso.
    assert (match _init_primitive_options ∅ ∅ primitive_options
                    (entityset_dict []) st with
            | (Ok t0, st0) => match read_table st0 t0 !! "sum" with
                              | Some _ => true
                              | None => false
                              end
            | _ => false
            end = true) as H by (vm_compute; reflexivity).
    rewrite Hb, Hrecs0 in H. discriminate H.
Defined.

Lemma generate_all_primitive_options_unlisted_witness :
  let st := State [ObjSet {[ "X"; "Y" ]}; ObjDict ∅] [] in
  let all_primitives := [ByName "sum"] in
  let primitive_options :=
    [(PKName "sum", OptionDict []);
     (PKName "mean", OptionDict [("include_entities", RawList ["X"])])] in
  is_set st 0 {[ "X"; "Y" ]} ∧ is_vardict st 1 ∅ ∧
  ∃ t0 st0 t res st' recs0,
    _init_primitive_options ∅ ∅ primitive_options (entityset_dict []) st
    = (Ok t0, st0) ∧
    generate_all_primitive_options ∅ ∅ all_primitives primitive_options
      0 1 [] st = (Ok (t, res), st') ∧
    read_table st0 t0 !! "mean" = Some recs0 ∧
    (∀ q, q ∈ primitive_name <$> all_primitives → t0 !! q ≠ t0 !! "mean") ∧
    read_table st' t !! "mean" = Some recs0.
Proof.
  intros st all_primitives primitive_options.
  assert (is_set st 0 {[ "X"; "Y" ]}) as Hle by reflexivity.
  assert (is_vardict st 1 ∅) as HV.
  { exists ∅. split; [reflexivity|]. intros k. rewrite !lookup_empty. constructor. }
  split; [exact Hle|]. split; [exact HV|].
  destruct (_init_primitive_options ∅ ∅ primitive_options (entityset_dict []) st)
    as [[t0|e] st0] eqn:Hb; [|exfalso; revert Hb; by_run_ok].
  destruct (generate_all_primitive_options ∅ ∅ all_primitives
              primitive_options 0 1 [] st)
    as [[[t res]|e] st'] eqn:Hrun;
    [|exfalso; revert Hrun; by_run_ok].
  assert (∀ q, q ∈ primitive_name <$> all_primitives → t0 !! q ≠ t0 !! "mean")
    as Hnone.
  { intros q Hq. apply list_elem_of_singleton in Hq as ->.
    assert (match _init_primitive_options ∅ ∅ primitive_options
                    (entityset_dict []) st with
            | (Ok t0, _) => bool_decide (t0 !! "sum" ≠ t0 !! "mean")
            | _ => false
            end = true) as H by (vm_compute; reflexivity).
    rewrite Hb in H. by apply bool_decide_eq_true in H. }
  destruct (read_table st0 t0 !! "mean") as [recs0|] eqn:Hrecs0.
  - exists t0, st0, t, res, st', recs0.
    split; [reflexivity|]. split; [reflexivity|]. split; [exact Hrecs0|].
    split; [exact Hnone|].
    exact (generate_all_primitive_options_unlisted ∅ ∅ all_primitives
             primitive_options 0 1 [] {[ "X"; "Y" ]} ∅
             st st0 st' t0 t res "mean" recs0 Hle HV Hb Hrun Hrecs0 Hnone).
  - exfalso.
    assert (match _init_primitive_options ∅ ∅ primitive_options
                    (entityset_dict []) st with
            | (Ok t0, st0) => match read_table st0 t0 !! "mean" with
                              | Some _ => true
                              | None => false
                              end
            | _ => false
            end = true) as H by (vm_compute; reflexivity).
    rewrite Hb, Hrecs0 in H. discriminate H.
Defined.

Lemma generate_all_primitive_options_filters_witness :
  let st := State [ObjSet {[ "X" ]}; ObjDict ∅] [] in
  let all_primitives := [ByName "sum"] in
  let primitive_options :=
    [(PKName "sum", OptionDict [("include_entities", RawList ["X"])])] in
  is_set st 0 {[ "X" ]} ∧ is_vardict st 1 ∅ ∧
  ∃ t res st' recs,
    generate_all_primitive_options ∅ ∅ all_primitives primitive_options
      0 1 [] st = (Ok (t, res), st') ∧
    read_table st' t !! "sum" = Some recs ∧
    Forall normalized recs.
Proof.
  intros st all_primitives primitive_options.
  assert (is_set st 0 {[ "X" ]}) as Hle by reflexivity.
  assert (is_vardict st 1 ∅) as HV.
  { exists ∅. split; [reflexivity|]. intros k. rewrite !lookup_empty. constructor. }
  split; [exact Hle|]. split; [exact HV|].
  destruct (generate_all_primitive_options ∅ ∅ all_primitives
              primitive_options 0 1 [] st)
    as [[[t res]|e] st'] eqn:Hrun;
    [|exfalso; revert Hrun; by_run_ok].
  destruct (read_table st' t !! "sum") as [recs|] eqn:Hrecs.
  - exists t, res, st', recs.
    split; [reflexivity|]. split; [exact Hrecs|].
    exact (proj1 (generate_all_primitive_options_filters ∅ ∅ all_primitives
                    primitive_options 0 1 [] {[ "X" ]} ∅ st st' t res "sum" recs
                    Hle HV Hrun Hrecs)).
  - exfalso.
    assert (match generate_all_primitive_options ∅ ∅ all_primitives
                    primitive_options 0 1 [] st with
            | (Ok (t, _), st') => match read_table st' t !! "sum" with
                                  | Some _ => true
                                  | None => false
                                  end
            | _ => false
            end = true) as H by (vm_compute; reflexivity).
    rewrite Hrun, Hrecs in H. discriminate H.
Defined.

(** ** The groupby filter on features that are not identity features *)

(** X24: the groupby filter rejects a feature that is not an identity
    feature, except with a record that has [include_groupby_variables] and
    no [ignore_groupby_variables]: there the feature passes exactly when its
    entity is not a key of the include dict. *)
Theorem groupby_filter_other (O : option_record) (e n : string) :
  _groupby_filter_generator O (OtherFeature e n)
  = Ok match O !! "include_groupby_variables",
             O !! "ignore_groupby_variables" with
       | Some inc, None => negb (py_in e inc)
       | _, _ => false
       end.
Proof.
  unfold _groupby_filter_generator, has_key, getitem.
  destruct (O !! "include_groupby_variables") as [inc|] eqn:Hinc;
    destruct (O !! "ignore_groupby_variables") as [ign|] eqn:Hign;
    rewrite ?bool_decide_eq_true_2 by eauto;
    rewrite ?bool_decide_eq_false_2 by (by intros [? ?]); simpl; try done.
  by destruct (py_in e inc).
Qed.

(** ** What the option checkers emit *)

Lemma for_each_out {A} (l : list A) (body : A → M unit) (g : A → list output) :
  (∀ x st, body x st = (Ok (), State (heap st) (out st ++ g x))) →
  ∀ st, for_each l body st = (Ok (), State (heap st) (out st ++ l ≫= g)).
Proof.
  intros Hbody. induction l as [|x l IH]; intros st; simpl.
  - destruct st. unfold ret. simpl. by rewrite app_nil_r.
  - unfold bind. rewrite Hbody, IH. simpl. by rewrite app_assoc.
Qed.

Lemma list_entity_check_run (l : list string) (es : gmap string (list string))
    (st : state) :
  list_entity_check (RawList l) es st
  = (Ok true,
     State (heap st)
       (out st ++ filter (λ entity, es !! entity = None) l
                    ≫= λ e, [Printed e; WarnEntityNotInEntityset e])).
Proof.
  simpl. unfold bind at 1.
  rewrite (for_each_out _ _ (λ e, [Printed e; WarnEntityNotInEntityset e])).
  - done.
  - intros x st0. unfold bind, emit. simpl. by rewrite <- app_assoc.
Qed.

(** X25: [list_entity_check] accepts every list, leaves the store as it
    is, and prints and warns about exactly the entities of the list that
    are not in the entityset. *)
Theorem list_entity_check_warns (l : list string)
    (es : gmap string (list string)) (st : state) :
  ∃ st', list_entity_check (RawList l) es st = (Ok true, st') ∧
         heap st' = heap st ∧
         ∀ o, o ∈ out st'
              ↔ o ∈ out st
                ∨ ∃ e, e ∈ l ∧ es !! e = None ∧
                       (o = Printed e ∨ o = WarnEntityNotInEntityset e).
Proof.
  eexists. split; [apply list_entity_check_run|]. split; [done|].
  intros o. simpl. rewrite elem_of_app, list_elem_of_bind.
  split; (intros [Ho|Ho]; [by left|right]).
  - destruct Ho as (e & Ho & [Hnone He]%list_elem_of_filter).
    exists e. split; [done|]. split; [done|].
    apply elem_of_cons in Ho as [->|Ho]; [by left|].
    apply list_elem_of_singleton in Ho as ->. by right.
  - destruct Ho as (e & He & Hnone & Ho). exists e. split.
    + destruct Ho as [->| ->]; [by left|]. right. by left.
    + by apply list_elem_of_filter.
Qed.

(** What [dict_to_list_variable_check] emits for one item of the dict. *)
Lemma dict_check_run (d : list (string * raw_value))
    (es : gmap string (list string)) (st : state) :
  forallb isinstance_list (map snd d) = true →
  dict_to_list_variable_check (RawDict d) es st
  = (Ok true,
     State (heap st)
       (out st ++ d ≫= λ item,
          match es !! item.1 with
          | None => [WarnEntityNotInEntityset item.1]
          | Some cols =>
              match item.2 with
              | RawList vs =>
                  (λ v, WarnVariableNotInEntity v item.1)
                    <$> filter (λ v, v ∉ cols) vs
              | _ => []
              end
          end)).
Proof.
  intros Hall. simpl. rewrite Hall. unfold bind at 1.
  erewrite for_each_out; [done|].
  intros [e v] st0. simpl. destruct (es !! e) as [cols|]; [|done].
  destruct v as [vs|d'|]; simpl.
  - rewrite (for_each_out _ _ (λ v, [WarnVariableNotInEntity v e])).
    + assert (∀ xs : list string,
                xs ≫= (λ v, [WarnVariableNotInEntity v e])
                = (λ v, WarnVariableNotInEntity v e) <$> xs) as Hxs
        by (induction xs as [|x xs IH]; [done|]; csimpl; by rewrite IH).
      by rewrite Hxs.
    + done.
  - destruct st0. unfold ret. simpl. by rewrite app_nil_r.
  - destruct st0. unfold ret. simpl. by rewrite app_nil_r.
Qed.

(** X26: [dict_to_list_variable_check] accepts a dict whose values are all
    lists, leaves the store as it is, and warns about exactly the entities of
    the dict that are not in the entityset and the listed variables that
    their entity does not have; it prints nothing. *)
Theorem dict_to_list_variable_check_warns (d : list (string * raw_value))
    (es : gmap string (list string)) (st : state) :
  forallb isinstance_list (map snd d) = true →
  ∃ st', dict_to_list_variable_check (RawDict d) es st = (Ok true, st') ∧
         heap st' = heap st ∧
         ∀ o, o ∈ out st'
              ↔ o ∈ out st
                ∨ (∃ e v, (e, v) ∈ d ∧ es !! e = None ∧
                          o = WarnEntityNotInEntityset e)
                ∨ (∃ e vs cols x, (e, RawList vs) ∈ d ∧ es !! e = Some cols ∧
                                  x ∈ vs ∧ (x ∉ cols) ∧
                                  o = WarnVariableNotInEntity x e).
Proof.
  intros Hall. eexists. split; [by apply dict_check_run|]. split; [done|].
  intros o. simpl. rewrite elem_of_app, list_elem_of_bind.
  split.
  - intros [Ho|([e v] & Ho & Hin)]; [by left|]. right. simpl in Ho.
    destruct (es !! e) as [cols|] eqn:He.
    + right. destruct v as [vs|d'|]; try by apply elem_of_nil in Ho.
      apply list_elem_of_fmap in Ho as (x & -> & [Hx Hxin]%list_elem_of_filter).
      by exists e, vs, cols, x.
    + left. apply list_elem_of_singleton in Ho as ->. by exists e, v.
  - intros [Ho|[(e & v & Hin & He & ->)|(e & vs & cols & x & Hin & He & Hx & Hnx & ->)]];
      [by left|right..].
    + exists (e, v). split; [|done]. simpl. rewrite He. by left.
    + exists (e, RawList vs). split; [|done]. simpl. rewrite He.
      apply list_elem_of_fmap. exists x. split; [done|].
      by apply list_elem_of_filter.
Qed.

Lemma dict_to_list_variable_check_warns_witness :
  let d := [("transactions", RawList ["amount"; "bogus"]);
            ("sessions", RawList [])] in
  let es : gmap string (list string) :=
    {[ "transactions" := ["id"; "amount"] ]} in
  forallb isinstance_list (map snd d) = true ∧
  ∃ st', dict_to_list_variable_check (RawDict d) es (State [] [])
         = (Ok true, st') ∧
         WarnVariableNotInEntity "bogus" "transactions" ∈ out st'.
Proof.
  intros d es.
  assert (forallb isinstance_list (map snd d) = true) as H by reflexivity.
  split; [exact H|].
  destruct (dict_to_list_variable_check_warns d es (State [] []) H)
    as (st' & Hrun & _ & Hout).
  exists st'. split; [exact Hrun|]. apply Hout. right. right.
  exists "transactions", ["amount"; "bogus"], ["id"; "amount"], "bogus".
  split; [by left|]. split; [by vm_compute|].
  split; [by_compute|]. split; [by_compute|done].
Defined.

(** ** Normalisation without warnings *)

Lemma for_each_silent {A} (l : list A) (body : A → M unit) (st : state) :
  Forall (λ x, body x st = (Ok (), st)) l → for_each l body st = (Ok (), st).
Proof.
  induction 1 as [|x l Hx _ IH]; simpl; [done|].
  unfold bind. by rewrite Hx.
Qed.

Lemma list_entity_check_silent (v : raw_value) (es : gmap string (list string))
    (st : state) :
  known_ids es v → ∃ b, list_entity_check v es st = (Ok b, st).
Proof.
  intros Hk. destruct v as [l|d|]; simpl; [|by eexists..].
  exists true. unfold bind. rewrite for_each_silent; [done|].
  apply Forall_forall. intros x [Hnone Hx]%list_elem_of_filter.
  pose proof (proj1 (Forall_forall _ _) Hk x Hx) as [? Hs]. congruence.
Qed.

Lemma dict_check_silent (v : raw_value) (es : gmap string (list string))
    (st : state) :
  known_ids es v → ∃ b, dict_to_list_variable_check v es st = (Ok b, st).
Proof.
  intros Hk. destruct v as [l|d|]; simpl; [by eexists| |by eexists].
  destruct (forallb isinstance_list (map snd d)); [|by eexists].
  exists true. unfold bind at 1. rewrite for_each_silent; [done|].
  eapply Forall_impl; [exact Hk|]. intros [e v] (cols & He & Hv). simpl in *.
  rewrite He. destruct v as [vs|d'|]; [|done..].
  apply for_each_silent. apply Forall_forall.
  intros x [Hnx Hx]%list_elem_of_filter.
  destruct Hnx. by apply (proj1 (Forall_forall _ _) Hv).
Qed.

Lemma check_silent (k : string) (v : raw_value) (es : gmap string (list string))
    check (st : state) :
  _get_primitive_options !! k = Some check → known_ids es v →
  ∃ b, check v es st = (Ok b, st).
Proof.
  rewrite get_primitive_options_lookup. intros Hc Hk.
  repeat case_bool_decide; simplify_eq.
  - by apply list_entity_check_silent.
  - by apply dict_check_silent.
Qed.

(** X27: [_init_option_dict] is silent, and leaves the whole state as it
    is, when every entity and variable the option dict refers to is in the
    entityset: warnings come from unknown ids only. *)
Theorem init_option_dict_silent (key : primitive_key) (d : raw_option_dict)
    (es : gmap string (list string)) (st : state) :
  Forall (λ item, known_ids es item.2) d →
  (_init_option_dict key d es st).2 = st.
Proof.
  intros Hk. unfold _init_option_dict.
  match goal with
  | |- (bind (for_fold d ?body ∅) _ st).2 = st =>
      assert (∀ acc, (for_fold d body acc st).2 = st) as Hloop
  end.
  { induction Hk as [|[k v] d Hkv _ IH]; intros acc; simpl; [done|].
    unfold bind at 1. simpl.
    destruct (_get_primitive_options !! k) as [check|] eqn:Hc; [|done].
    destruct (check_silent k v es check st Hc Hkv) as [b Hb].
    unfold bind at 1. rewrite Hb. destruct b; simpl; [|done].
    destruct v as [l|vd|]; simpl; try apply IH.
    unfold bind at 1, lift. simpl.
    destruct (set_values vd ∅) as [m|]; simpl; [apply IH|done]. }
  unfold bind. specialize (Hloop ∅).
  destruct (for_fold d _ ∅ st) as [[r|e] st1]; simpl in *; done.
Qed.

Lemma init_option_dict_silent_witness :
  let d := [("ignore_entities", RawList ["customers"]);
            ("include_variables",
             RawDict [("transactions", RawList ["amount"])])] in
  let es : gmap string (list string) :=
    {[ "transactions" := ["id"; "amount"]; "customers" := ["id"] ]} in
  let st := State [] [Printed "earlier"] in
  Forall (λ item, known_ids es item.2) d ∧
  (_init_option_dict (PKName "sum") d es st).2 = st.
Proof.
  intros d es st.
  assert (Forall (λ item, known_ids es item.2) d) as H.
  { repeat constructor; simpl.
    - by eexists; vm_compute.
    - exists ["id"; "amount"]. split; [by vm_compute|].
      repeat constructor. }
  split; [exact H|].
  exact (init_option_dict_silent (PKName "sum") d es st H).
Defined.

(** ** From the raw options to the returned records *)

Lemma register_names_lookup (names : list string) (g : nat) :
  ∀ m m', register_names names g m = Ok m' →
    (∀ n, n ∈ names → m !! n = None) ∧
    ∀ n, m' !! n = if bool_decide (n ∈ names) then Some g else m !! n.
Proof.
  induction names as [|n0 names IH]; intros m m'; simpl.
  - intros [= <-]. split; [|done]. intros n Hn. by apply elem_of_nil in Hn.
  - case_bool_decide as H0; [done|]. intros (Hfresh & Hlook)%IH.
    assert (m !! n0 = None) as Hn0
      by (destruct (m !! n0) eqn:E; [destruct H0; eauto|done]).
    assert (n0 ∉ names) as Hnotin.
    { intros Hin. specialize (Hfresh n0 Hin). by rewrite lookup_insert_eq in Hfresh. }
    split.
    + intros n [->|Hn]%elem_of_cons; [done|].
      specialize (Hfresh n Hn).
      rewrite lookup_insert_ne in Hfresh; [done|]. by intros ->.
    + intros n. rewrite Hlook. destruct (decide (n = n0)) as [->|Hne].
      * rewrite (bool_decide_eq_false_2 (n0 ∈ names)) by done.
        rewrite bool_decide_eq_true_2 by (by left).
        by rewrite lookup_insert_eq.
      * rewrite lookup_insert_ne by done.
        case_bool_decide as Hin.
        -- by rewrite bool_decide_eq_true_2 by (by right).
        -- rewrite bool_decide_eq_false_2; [done|].
           by intros [?|?]%elem_of_cons.
Qed.

Lemma comprehension_Forall2 {A B} (f : A → result B) (l : list A) :
  ∀ ys, comprehension f l = Ok ys → Forall2 (λ x y, f x = Ok y) l ys.
Proof.
  induction l as [|x l IH]; intros ys; simpl.
  - intros [= <-]. constructor.
  - destruct (f x) as [y|] eqn:Hy; simpl; [|done].
    destruct (comprehension f l) as [ys'|]; simpl; [|done].
    intros [= <-]. constructor; [done|by apply IH].
Qed.

Section Records.

Variable get_aggregation_primitives get_transform_primitives
  : gmap string primitive.

Lemma table_of_entry_records (T T' : table)
    (item : primitive_key * raw_options) :
  table_wf T →
  table_of_entry get_aggregation_primitives get_transform_primitives T item
  = Ok T' →
  (∀ p recs, table_records T !! p = Some recs →
             table_records T' !! p = Some recs) ∧
  ∃ recs0,
    entry_records get_aggregation_primitives get_transform_primitives item
    = Ok recs0 ∧
    ∀ p, p ∈ key_names item.1 → table_records T' !! p = Some recs0.
Proof.
  intros Hwf. unfold table_of_entry.
  destruct (entry_records _ _ item) as [recs0|] eqn:Hrecs; simpl; [|done].
  destruct (register_names _ _ _) as [m|] eqn:Hreg; simpl; [|done].
  intros [= <-]. apply register_names_lookup in Hreg as [Hfresh Hlook].
  split.
  - intros p recs (g & Hg & Hgr)%table_records_inv.
    apply (table_records_lookup _ p g); simpl.
    + rewrite Hlook. case_bool_decide as Hin; [|done].
      by rewrite (Hfresh p Hin) in Hg.
    + rewrite lookup_app_l; [done|by eapply lookup_lt_Some].
  - exists recs0. split; [done|]. intros p Hp.
    apply (table_records_lookup _ p (length (groups T))); simpl.
    + rewrite Hlook. by rewrite bool_decide_eq_true_2.
    + by apply list_lookup_middle.
Qed.

Lemma table_of_options_records (entries : list (primitive_key * raw_options)) :
  ∀ T T',
    table_wf T →
    table_of_options get_aggregation_primitives get_transform_primitives
      entries T = Ok T' →
    (∀ p recs, table_records T !! p = Some recs →
               table_records T' !! p = Some recs) ∧
    ∀ key opts p, (key, opts) ∈ entries → p ∈ key_names key →
      ∃ recs0,
        entry_records get_aggregation_primitives get_transform_primitives
          (key, opts) = Ok recs0 ∧
        table_records T' !! p = Some recs0.
Proof.
  induction entries as [|item entries IH]; intros T T' Hwf; simpl.
  - intros [= <-]. split; [done|].
    intros key opts p Hin. by apply elem_of_nil in Hin.
  - destruct (table_of_entry _ _ T item) as [T1|] eqn:H1; simpl; [|done].
    intros Hrest.
    destruct (table_of_entry_records T T1 item Hwf H1)
      as (Hkeep1 & recs0 & Hrecs0 & Hnames).
    destruct (IH T1 T' (table_of_entry_wf _ _ T T1 item Hwf H1) Hrest)
      as (Hkeep & Hent).
    split; [intros p recs Hp; by apply Hkeep, Hkeep1|].
    intros key opts p [<-|Hin]%elem_of_cons Hp.
    + exists recs0. split; [done|]. apply Hkeep. by apply Hnames.
    + by apply (Hent key opts).
Qed.

Lemma entry_records_dicts (key : primitive_key) (opts : raw_options)
    (recs0 : list option_record) (es : gmap string (list string)) (st : state) :
  entry_records get_aggregation_primitives get_transform_primitives (key, opts)
  = Ok recs0 →
  Forall2 (λ d r, (_init_option_dict key d es st).1 = Ok r)
          (option_dicts opts) recs0.
Proof.
  assert (∀ d r, normal_form key d = Ok r →
                 (_init_option_dict key d es st).1 = Ok r) as Hnf.
  { intros d r Hr.
    by rewrite (emits_result _ _ st (init_option_dict_emits key d es)). }
  unfold entry_records. simpl. destruct opts as [d|l]; simpl.
  - destruct (normal_form key d) as [r|] eqn:Hr; simpl; [|done].
    intros [= <-]. repeat constructor. by apply Hnf.
  - destruct (find_primitive _ _ key) as [prim|]; [|done].
    destruct (number_of_inputs_matches prim (length l)) as [[]|]; simpl;
      try done.
    intros H%comprehension_Forall2.
    eapply Forall2_impl; [exact H|]. intros d r Hr. by apply Hnf.
Qed.

Lemma builder_table (primitive_options : list (primitive_key * raw_options))
    (lv : loc) (es : gmap string (list string))
    (V : gmap string (gset string)) (st st0 : state) (t0 : gmap string loc) :
  is_vardict st lv V →
  _init_primitive_options get_aggregation_primitives get_transform_primitives
    primitive_options es st = (Ok t0, st0) →
  ∃ T0,
    table_of_options get_aggregation_primitives get_transform_primitives
      primitive_options (Table ∅ []) = Ok T0 ∧
    read_table st0 t0 = table_records T0.
Proof.
  intros HV Hb.
  assert (lv < length (heap st)) as Hlv.
  { destruct HV as (d & Hd & _). by eapply lookup_lt_Some. }
  pose proof (init_primitive_options_loop get_aggregation_primitives
                get_transform_primitives lv es primitive_options st ∅ []
                (Table ∅ []) (table_ok_empty lv st) Hlv) as Hinit.
  unfold _init_primitive_options in Hb.
  destruct (table_of_options _ _ primitive_options (Table ∅ [])) as [T0|e].
  - destruct Hinit as (st1 & t1 & Gs1 & Hrun1 & _ & Hok1).
    rewrite Hb in Hrun1. injection Hrun1 as <- <-.
    exists T0. split; [done|]. by apply (table_ok_read lv st0 t0 Gs1).
  - destruct Hinit as (st1 & Hrun1 & _). congruence.
Qed.

(** X28: from the raw options to the returned table: for a primitive of
    [all_primitives] named by a key of [primitive_options], the records
    returned are, one for one, the records [_init_option_dict] makes of the
    option dicts of that key (the dict itself, or the dicts of the list),
    reconciled with the global ignores. *)
Theorem generate_all_primitive_options_end_to_end
    (all_primitives : list primitive_ref)
    (primitive_options : list (primitive_key * raw_options))
    (ignore_entities ignore_variables : loc) (es : list entity)
    (S : gset string) (V : gmap string (gset string))
    (st st' : state) (t : gmap string loc) (res : loc)
    (key : primitive_key) (opts : raw_options) (p : string) :
  is_set st ignore_entities S → is_vardict st ignore_variables V →
  generate_all_primitive_options get_aggregation_primitives
    get_transform_primitives all_primitives primitive_options
    ignore_entities ignore_variables es st = (Ok (t, res), st') →
  (key, opts) ∈ primitive_options → p ∈ key_names key →
  p ∈ primitive_name <$> all_primitives →
  ∃ recs0 recs,
    Forall2 (λ d r, (_init_option_dict key d (entityset_dict es) st).1 = Ok r)
            (option_dicts opts) recs0 ∧
    read_table st' t !! p = Some recs ∧
    Forall2 (reconciles S V (included_of_records recs0)) recs recs0.
Proof.
  intros Hle HV Hrun Hin Hp Hall.
  pose proof Hrun as (t0 & st0 & Hb & _)%bind_inv_ok.
  destruct (builder_table _ _ _ V st st0 t0 HV Hb) as (T0 & HT0 & Hread).
  assert (table_wf (Table ∅ [])) as Hwf
    by (intros q g; simpl; by rewrite lookup_empty).
  destruct (table_of_options_records primitive_options _ T0 Hwf HT0)
    as (_ & Hent).
  destruct (Hent key opts p Hin Hp) as (recs0 & Hrecs0 & Htab).
  rewrite <- Hread in Htab.
  destruct (explicit_records_reconciled get_aggregation_primitives
              get_transform_primitives all_primitives primitive_options
              ignore_entities ignore_variables es S V st st0 st' t0 t res
              p recs0 Hle HV Hb Hrun Hall Htab) as (recs & Hrecs & Hrel).
  exists recs0, recs. split; [by eapply entry_records_dicts|done].
Qed.

End Records.

Lemma generate_all_primitive_options_end_to_end_witness :
  let st := State [ObjSet {[ "customers" ]}; ObjDict ∅] [] in
  let all_primitives := [ByName "sum"] in
  let d := [("ignore_variables",
             RawDict [("transactions", RawList ["amount"])])] in
  let primitive_options := [(PKName "sum", OptionDict d)] in
  let es := [Entity "customers" ["id"; "age"];
             Entity "transactions" ["id"; "customer_id"; "amount"]] in
  is_set st 0 {[ "customers" ]} ∧ is_vardict st 1 ∅ ∧
  (PKName "sum", OptionDict d) ∈ primitive_options ∧
  "sum" ∈ key_names (PKName "sum") ∧
  ("sum" ∈ primitive_name <$> all_primitives) ∧
  ∃ t res st',
    generate_all_primitive_options ∅ ∅ all_primitives primitive_options
      0 1 es st = (Ok (t, res), st') ∧
    ∃ recs0 recs,
      Forall2 (λ d r, (_init_option_dict (PKName "sum") d (entityset_dict es)
                         st).1 = Ok r)
              (option_dicts (OptionDict d)) recs0 ∧
      read_table st' t !! "sum" = Some recs ∧
      Forall2 (reconciles {[ "customers" ]} ∅ (included_of_records recs0))
              recs recs0.
Proof.
  intros st all_primitives d primitive_options es.
  assert (is_set st 0 {[ "customers" ]}) as Hle by reflexivity.
  assert (is_vardict st 1 ∅) as HV.
  { exists ∅. split; [reflexivity|]. intros k. rewrite !lookup_empty. constructor. }
  assert ((PKName "sum", OptionDict d) ∈ primitive_options) as Hin
    by constructor.
  assert ("sum" ∈ key_names (PKName "sum")) as Hp by constructor.
  assert ("sum" ∈ primitive_name <$> all_primitives) as Hall by by_compute.
  split; [exact Hle|]. split; [exact HV|]. split; [exact Hin|].
  split; [exact Hp|]. split; [exact Hall|].
  destruct (generate_all_primitive_options ∅ ∅ all_primitives
              primitive_options 0 1 es st)
    as [[[t res]|e] st'] eqn:Hrun; [|exfalso; revert Hrun; by_run_ok].
  exists t, res, st'. split; [reflexivity|].
  exact (generate_all_primitive_options_end_to_end ∅ ∅ all_primitives
           primitive_options 0 1 es {[ "customers" ]} ∅ st st' t res
           (PKName "sum") (OptionDict d) "sum" Hle HV Hrun Hin Hp Hall).
Defined.
